(** * Image Model Arena: a shallow embedding of [ImageArena.tsx]

    The component keeps its session in React state cells and one mutable
    ref.  Every handler is embedded as a function from the state record to
    the next state record together with the list of effects (toasts,
    downloads) it emitted.  The source file holds two revisions of the
    component; the current one is embedded in [Module V1], the earlier one
    (rounds cap, tie / both-bad buttons, no keyboard shortcuts) in
    [Module V2].

    Conventions.
    - A JavaScript string is a [string]: a sequence of code units, here the
      ones below 256 (Latin-1).
    - An object used as a dictionary ([Record<string, T>]) is a [gmap] of
      its own properties together with what its prototype chain adds: a
      read that finds no own property returns what the object inherits,
      and an assignment to [__proto__] goes to the prototype setter.
      [Object.keys] is the map's key enumeration; wherever the source
      enumerates keys it shuffles them afterwards, so no statement below
      depends on the enumeration order.
    - A number that only counts is a [nat]; the rounds field of the earlier
      revision, which the user can set to a fraction, is a rational.
    - [Math.random()] is a draw from an explicit source of rationals.
    - The effects recorded are the toasts and the download of [startArena]
      and [finish]; the toasts of the file and table loaders are left out. *)

From Stdlib Require Import QArith Qround.
From stdpp Require Import gmap strings list sorting.
From Stdlib Require Import Ascii String.

Local Open Scope string_scope.
Set Warnings "-clear-no-such-hyp".

(** ** Strings as the source uses them *)

Module Js.

(** Code units matched by [\s] and removed by [String.prototype.trim]. *)
Definition is_ws (c : ascii) : bool :=
  let n := nat_of_ascii c in
  ((9 <=? n)%nat && (n <=? 13)%nat) || (n =? 32)%nat || (n =? 160)%nat.

(** The character class [[\-_.\s]]. *)
Definition is_sep (c : ascii) : bool :=
  Ascii.eqb c "-" || Ascii.eqb c "_" || Ascii.eqb c "." || is_ws c.

(** The character class [\d]. *)
Definition is_digit (c : ascii) : bool :=
  let n := nat_of_ascii c in (48 <=? n)%nat && (n <=? 57)%nat.

Definition is_zero (c : ascii) : bool := Ascii.eqb c "0".

(** The character class [[^/.]]. *)
Definition not_slash_dot (c : ascii) : bool :=
  negb (Ascii.eqb c "/" || Ascii.eqb c ".").

Fixpoint all (p : ascii → bool) (s : string) : bool :=
  match s with
  | EmptyString => true
  | String c r => p c && all p r
  end.

Definition is_empty (s : string) : bool :=
  match s with EmptyString => true | _ => false end.

(** [s.replace(/^[class]+/, "")]: drop the leading run of the class. *)
Fixpoint dropWhile (p : ascii → bool) (s : string) : string :=
  match s with
  | EmptyString => EmptyString
  | String c r => if p c then dropWhile p r else s
  end.

Definition trimStart (s : string) : string := dropWhile is_ws s.

Fixpoint trimEnd (s : string) : string :=
  match s with
  | EmptyString => EmptyString
  | String c r =>
      let r' := trimEnd r in
      if is_ws c && is_empty r' then EmptyString else String c r'
  end.

(** [s.trim()] *)
Definition trim (s : string) : string := trimEnd (trimStart s).

(** [s.indexOf(c)], with [-1] when [c] does not occur. *)
Fixpoint indexOf (c : ascii) (s : string) : Z :=
  match s with
  | EmptyString => (-1)%Z
  | String d r =>
      if Ascii.eqb d c then 0%Z
      else let i := indexOf c r in if (i <? 0)%Z then (-1)%Z else (i + 1)%Z
  end.

Fixpoint take (n : nat) (s : string) : string :=
  match n, s with
  | S n', String c r => String c (take n' r)
  | _, _ => EmptyString
  end.

Fixpoint drop (n : nat) (s : string) : string :=
  match n, s with
  | S n', String _ r => drop n' r
  | _, _ => s
  end.

(** [s.slice(0, i)] and [s.slice(i)] for an index [i >= 0]. *)
Definition slice_to (s : string) (i : Z) : string := take (Z.to_nat i) s.
Definition slice_from (s : string) (i : Z) : string := drop (Z.to_nat i) s.

(** [s.startsWith(p)] *)
Definition startsWith (s p : string) : bool := String.prefix p s.

(** [s.toLowerCase()] on code units below 256. *)
Definition lower_char (c : ascii) : ascii :=
  let n := nat_of_ascii c in
  if ((65 <=? n)%nat && (n <=? 90)%nat)
     || ((192 <=? n)%nat && (n <=? 222)%nat && negb (n =? 215)%nat)
  then ascii_of_nat (n + 32) else c.

Fixpoint toLowerCase (s : string) : string :=
  match s with
  | EmptyString => EmptyString
  | String c r => String (lower_char c) (toLowerCase r)
  end.

(** [(s.match(/c/g) || []).length] *)
Fixpoint count (c : ascii) (s : string) : nat :=
  match s with
  | EmptyString => 0
  | String d r => (if Ascii.eqb d c then 1 else 0) + count c r
  end.

(** [s.replace(/\.[^/.]+$/, "")]: the match starts at the first dot that
    is followed, up to the end of the string, by one or more characters
    other than [/] and [.]. *)
Fixpoint stripExtension (s : string) : string :=
  match s with
  | EmptyString => EmptyString
  | String c r =>
      if Ascii.eqb c "." && negb (is_empty r) && all not_slash_dot r
      then EmptyString
      else String c (stripExtension r)
  end.

Fixpoint dropLastQuote (s : string) : string :=
  match s with
  | EmptyString => EmptyString
  | String c EmptyString => if Ascii.eqb c "034" then EmptyString else s
  | String c r => String c (dropLastQuote r)
  end.

(** [s.replace(/^\"|\"$/g, "")]: one quote at the start and, in what
    follows it, one quote at the end. *)
Definition stripQuotes (s : string) : string :=
  match s with
  | String c r => if Ascii.eqb c "034" then dropLastQuote r else dropLastQuote s
  | EmptyString => EmptyString
  end.

(** [s.split(c)] for a one-character separator. *)
Fixpoint split (c : ascii) (s : string) : list string :=
  match s with
  | EmptyString => [EmptyString]
  | String d r =>
      if Ascii.eqb d c then EmptyString :: split c r
      else match split c r with
           | l :: ls => String d l :: ls
           | [] => [String d EmptyString]
           end
  end.

(** [x || d] on strings: the empty string is falsy. *)
Definition or_else (x d : string) : string := if is_empty x then d else x.

(** [s.split(/\r?\n/)] *)
Fixpoint splitLines (s : string) : list string :=
  match s with
  | EmptyString => [EmptyString]
  | String c r =>
      if Ascii.eqb c "010" then EmptyString :: splitLines r
      else
        match r with
        | String d r' =>
            if Ascii.eqb c "013" && Ascii.eqb d "010"
            then EmptyString :: splitLines r'
            else match splitLines r with
                 | l :: ls => String c l :: ls
                 | [] => [String c EmptyString]
                 end
        | EmptyString => [String c EmptyString]
        end
  end.

End Js.

(** ** Data model *)

Inductive Source := upload | public.

(** [LoadedImage].  The optional [file] handle is not a field of the
    record: both loaders set it exactly on uploads, to the [File] the image
    was read from, whose name is the image's [name]. *)
Record LoadedImage := {
  img_url : string;
  img_model : string;
  img_name : string;
  img_id : string;
  img_source : Source;
}.

Definition source_name (s : Source) : string :=
  match s with upload => "upload" | public => "public" end.

(** *** Plain objects used as maps

    The component keeps its lookup tables in plain objects ([{}]), so a
    read [o[k]] that finds no own property goes on to the prototype chain,
    and a write to the key [__proto__] reaches the prototype setter.  The
    prototype of a fresh object is [Object.prototype], taken here as a
    browser provides it and as no script has changed it: eleven methods and
    the [__proto__] accessor. *)

(** The methods of [Object.prototype], each with the [name] of the
    function found under the key. *)
Definition prototype_methods : list (string * string) :=
  [("constructor", "Object"); ("hasOwnProperty", "hasOwnProperty");
   ("isPrototypeOf", "isPrototypeOf");
   ("propertyIsEnumerable", "propertyIsEnumerable");
   ("toLocaleString", "toLocaleString"); ("toString", "toString");
   ("valueOf", "valueOf"); ("__defineGetter__", "__defineGetter__");
   ("__defineSetter__", "__defineSetter__");
   ("__lookupGetter__", "__lookupGetter__");
   ("__lookupSetter__", "__lookupSetter__")].

Fixpoint assoc (k : string) (l : list (string * string)) : option string :=
  match l with
  | [] => None
  | (k', v) :: r => if String.eqb k k' then Some v else assoc k r
  end.

(** The keys every plain object answers to without owning them. *)
Definition inherited (k : string) : bool :=
  String.eqb k "__proto__" || bool_decide (is_Some (assoc k prototype_methods)).

(** What a read from a table of images can return. *)
Inductive Value :=
| undefined
| image (i : LoadedImage)
| string_value (s : string)  (* a string property of an image *)
| file_handle (name : string) (* the [File] of an uploaded image *)
| method (name : string)     (* a function of [Object.prototype] *)
| object_prototype.          (* [Object.prototype] itself *)

(** Truthiness. *)
Definition truthy_value (v : Value) : bool :=
  match v with
  | undefined => false
  | string_value s => negb (Js.is_empty s)
  | _ => true
  end.

(** [v.url], [v.model], [v.name] and [v.id], each [None] for [undefined];
    reading them off the value [undefined] itself throws, see [readable]. *)
Definition get_url (v : Value) : option string :=
  match v with image i => Some (img_url i) | _ => None end.

Definition get_model (v : Value) : option string :=
  match v with image i => Some (img_model i) | _ => None end.

Definition get_id (v : Value) : option string :=
  match v with image i => Some (img_id i) | _ => None end.

Definition get_name (v : Value) : option string :=
  match v with
  | image i => Some (img_name i)
  | file_handle n | method n => Some n
  | _ => None
  end.

Definition readable (v : Value) : bool :=
  match v with undefined => false | _ => true end.

(** A [Record<string, LoadedImage>]: its own properties, and the image
    that an assignment to [__proto__] has made its prototype, if any. *)
Record Table := { own : gmap string LoadedImage; proto : option LoadedImage }.

Definition empty_table : Table := {| own := ∅; proto := None |}.

(** [t[k] = img] *)
Definition table_set (k : string) (img : LoadedImage) (t : Table) : Table :=
  if String.eqb k "__proto__" then {| own := own t; proto := Some img |}
  else {| own := <[k := img]> (own t); proto := proto t |}.

(** The own properties of an image object. *)
Definition image_property (k : string) (p : LoadedImage) : option Value :=
  if String.eqb k "url" then Some (string_value (img_url p))
  else if String.eqb k "model" then Some (string_value (img_model p))
  else if String.eqb k "name" then Some (string_value (img_name p))
  else if String.eqb k "id" then Some (string_value (img_id p))
  else if String.eqb k "source" then Some (string_value (source_name (img_source p)))
  else if String.eqb k "file" then
    match img_source p with
    | upload => Some (file_handle (img_name p))
    | public => None
    end
  else None.

(** A read that has reached [Object.prototype], for an object whose
    prototype is [parent]. *)
Definition object_property (k : string) (parent : Value) : Value :=
  if String.eqb k "__proto__" then parent
  else match assoc k prototype_methods with
       | Some name => method name
       | None => undefined
       end.

(** [t[k]] *)
Definition table_get (k : string) (t : Table) : Value :=
  match own t !! k with
  | Some i => image i
  | None =>
      match proto t with
      | Some p =>
          match image_property k p with
          | Some v => v
          | None => object_property k (image p)
          end
      | None => object_property k object_prototype
      end
  end.

(** [Object.keys(t)].  The engine lists index-like keys first; the order
    is taken here as the map's, and the list is shuffled before use. *)
Definition table_keys (t : Table) : list string := (map_to_list (own t)).*1.

(** [o[k] = v] for a primitive [v]: the prototype setter behind
    [__proto__] ignores a primitive, so nothing is stored; any other key
    becomes or stays an own property.  The object must own no [__proto__]
    property (none is ever created by an assignment). *)
Definition assign {V} (k : string) (v : V) (o : gmap string V) : gmap string V :=
  if String.eqb k "__proto__" then o else <[k := v]> o.

(** A pair as [startArena] builds it: whatever the two tables returned. *)
Record Pair := { left : Value; right : Value }.

Inductive Phase := config | playing | results.

(** The [{ name, model, id }] snapshot stored in a vote; a field is [None]
    when the side had no such property. *)
Record Snapshot := {
  snap_name : option string;
  snap_model : option string;
  snap_id : option string;
}.

Definition snapshot (v : Value) : Snapshot :=
  {| snap_name := get_name v; snap_model := get_model v; snap_id := get_id v |}.

(** One entry of [ArenaResult["votes"]], over the revision's choice type;
    [winnerModel] is [None] for [null]. *)
Record Vote (C : Type) := {
  round : nat;
  vote_left : Snapshot;
  vote_right : Snapshot;
  choice : C;
  winnerModel : option string;
}.
Arguments round {C}. Arguments vote_left {C}. Arguments vote_right {C}.
Arguments choice {C}. Arguments winnerModel {C}.

(** A JavaScript number holding a counter: a natural number, or [NaN]
    (what [undefined++] leaves behind). *)
Inductive number := Num (n : nat) | NaN.

(** [ArenaResult]; the wall-clock [timestamp] is left out.  [N] is the
    type of [roundsPlanned]: a counter in the current revision, any number
    the rounds field can hold in the earlier one. *)
Record ArenaResult (C N : Type) := {
  res_models : option string * option string;
  roundsPlanned : N;
  roundsCompleted : nat;
  winsByModel : gmap string number;
  ties : nat;
  bothBad : nat;
  res_votes : list (Vote C);
}.
Arguments res_models {C N}. Arguments roundsPlanned {C N}.
Arguments roundsCompleted {C N}. Arguments winsByModel {C N}.
Arguments ties {C N}. Arguments bothBad {C N}. Arguments res_votes {C N}.

(** What a handler does to the outside world. *)
Inductive Effect (C N : Type) :=
| toast_error (msg : string)
| toast_success (msg : string)
| downloadJSON (data : ArenaResult C N) (winner : option string).
Arguments toast_error {C N}. Arguments toast_success {C N}.
Arguments downloadJSON {C N}.

(** A property key computed from a possibly undefined value. *)
Definition key_of (m : option string) : string := default "undefined" m.

(** [a === b] and [a > b] on values read from a counter object. *)
Definition strict_eq (a b : option number) : bool :=
  match a, b with
  | Some (Num x), Some (Num y) => (x =? y)%nat
  | None, None => true
  | _, _ => false
  end.

Definition greater (a b : option number) : bool :=
  match a, b with
  | Some (Num x), Some (Num y) => (y <? x)%nat
  | _, _ => false
  end.

(** [o[k]++].  Whatever a read finds that is no number (nothing, or a
    member of the prototype) counts up to [NaN], which is then assigned. *)
Definition increment (k : string) (o : gmap string number) : gmap string number :=
  match o !! k with
  | Some (Num n) => <[k := Num (S n)]> o
  | _ => assign k NaN o
  end.

(** [mergeUniqueByUrl] *)
Fixpoint merge_loop (seen : gset string) (merged : list LoadedImage)
    (incoming : list LoadedImage) : list LoadedImage :=
  match incoming with
  | [] => merged
  | item :: rest =>
      if decide (img_url item ∈ seen) then merge_loop seen merged rest
      else merge_loop ({[img_url item]} ∪ seen) (merged ++ [item]) rest
  end.

Definition mergeUniqueByUrl (existing incoming : list LoadedImage) : list LoadedImage :=
  merge_loop (list_to_set (img_url <$> existing)) existing incoming.

(** [Array.from(new Set(xs))]: first occurrences, in insertion order. *)
Fixpoint distinct (seen : list string) (xs : list string) : list string :=
  match xs with
  | [] => []
  | x :: r => if decide (x ∈ seen) then distinct seen r else x :: distinct (x :: seen) r
  end.

(** The [models] memo: the first two distinct model labels. *)
Definition models (images : list LoadedImage) : list string :=
  take 2 (distinct [] (img_model <$> images)).

(** Truthiness of a destructured, possibly undefined, string. *)
Definition truthy (m : option string) : bool :=
  match m with Some s => negb (Js.is_empty s) | None => false end.

(** The two [Record<string, LoadedImage>] tables built by [startArena]. *)
Fixpoint build_maps (m1 m2 : string) (images : list LoadedImage)
    (maps : Table * Table) : Table * Table :=
  match images with
  | [] => maps
  | img :: rest =>
      let '(map1, map2) := maps in
      if decide (img_model img = m1)
      then build_maps m1 m2 rest (table_set (img_id img) img map1, map2)
      else if decide (img_model img = m2)
      then build_maps m1 m2 rest (map1, table_set (img_id img) img map2)
      else build_maps m1 m2 rest maps
  end.

(** [Object.keys(map1).filter((id) => map2[id])] *)
Definition commonIds (map1 map2 : Table) : list string :=
  filter (λ id, truthy_value (table_get id map2) = true) (table_keys map1).

(** ** The random source

    A source is the sequence of values the coming calls of [Math.random()]
    return; each lies in [0,1). *)

Definition Rng := nat → Q.

Definition random (g : Rng) : Q * Rng := (g 0, λ n, g (S n)).

Definition in_unit_interval (g : Rng) : Prop :=
  ∀ n, (0 <= g n)%Q ∧ (g n < 1)%Q.

(** [Math.random() < 0.5] *)
Definition below_half (r : Q) : bool :=
  if Qlt_le_dec r (1 # 2) then true else false.

(** [Math.floor(r * (i + 1))], an array index. *)
Definition scaled_floor (r : Q) (i : nat) : nat :=
  Z.to_nat (Qfloor (r * inject_Z (Z.of_nat (i + 1)))).

(** ** The current revision *)

Module V1.

Inductive Choice := choose_left | choose_right.

Definition normalizeId (id : string) : string :=
  if Js.is_empty id then ""
  else
    let trimmed := Js.trim id in
    let cleaned := Js.dropWhile Js.is_sep trimmed in
    if negb (Js.is_empty cleaned) && Js.all Js.is_digit cleaned then
      let noLeading := Js.dropWhile Js.is_zero cleaned in
      if Js.is_empty noLeading then "0" else noLeading
    else cleaned.

(** [[idxUnd, idxDash].filter((i) => i >= 0).sort((a, b) => a - b)] *)
Definition separatorIndices (base : string) : list Z :=
  merge_sort Z.le
    (filter (λ i, (0 ≤ i)%Z) [Js.indexOf "_" base; Js.indexOf "-" base]).

Definition parseModelPrefix (filename : string) : string :=
  let base := Js.stripExtension filename in
  match separatorIndices base with
  | i0 :: _ => Js.or_else (Js.slice_to base i0) "model"
  | [] => Js.or_else base "model"
  end.

Definition parseIdSuffix (filename : string) (modelPrefix : option string) : string :=
  let base := Js.stripExtension filename in
  let rest :=
    if truthy modelPrefix
       && Js.startsWith (Js.toLowerCase base) (Js.toLowerCase (key_of modelPrefix))
    then Js.slice_from base (Z.of_nat (String.length (key_of modelPrefix)))
    else
      let idx := match separatorIndices base with i0 :: _ => i0 | [] => (-1)%Z end in
      if (0 <=? idx)%Z then Js.slice_from base (idx + 1) else base in
  let rest := Js.dropWhile Js.is_sep rest in
  normalizeId (Js.or_else rest base).

(** One pass through the body of the row loop of [parseInstructionsCSV]:
    the [(id, instruction)] the row registers, or [None] when the row is
    skipped by one of the [continue]s. *)
Definition csv_row (delim : ascii) (i : nat) (line : string) : option (string * string) :=
  let idx := Js.indexOf delim line in
  if (idx <? 0)%Z then None
  else
    let id := Js.stripQuotes (Js.trim (Js.slice_to line idx)) in
    let instruction := Js.stripQuotes (Js.trim (Js.slice_from line (idx + 1))) in
    if (i =? 0)%nat && String.eqb (Js.toLowerCase id) "id" then None
    else if Js.is_empty id then None
    else Some (id, instruction).

(** The row loop, from row [i] on. *)
Fixpoint csv_rows (delim : ascii) (i : nat) (lines : list string)
    (map : gmap string string) : gmap string string :=
  match lines with
  | [] => map
  | line :: rest =>
      match csv_row delim i line with
      | None => csv_rows delim (S i) rest map
      | Some (id, instruction) =>
          let norm := normalizeId id in
          csv_rows delim (S i) rest (assign norm instruction (assign id instruction map))
      end
  end.

(** [semi >= comma ? ";" : ","] *)
Definition delimiter (first : string) : ascii :=
  let semi := Js.count ";" first in
  let comma := Js.count "," first in
  if (comma <=? semi)%nat then ";"%char else ","%char.

Definition nonblank (l : string) : bool :=
  (0 <? String.length (Js.trim l))%nat.

Definition parseInstructionsCSV (text : string) : gmap string string :=
  let lines := List.filter nonblank (Js.splitLines text) in
  match lines with
  | [] => ∅
  | first :: _ => csv_rows (delimiter first) 0 lines ∅
  end.

(** [[a[i], a[j]] = [a[j], a[i]]].  Both indices are in range whenever
    the draws lie in [0,1); outside the array the model leaves the list
    as it is. *)
Definition swap {T} (i j : nat) (a : list T) : list T :=
  match a !! i, a !! j with
  | Some x, Some y => <[j := x]> (<[i := y]> a)
  | _, _ => a
  end.

Fixpoint shuffle_loop {T} (i : nat) (a : list T) (g : Rng) : list T * Rng :=
  match i with
  | 0 => (a, g)
  | S i' =>
      let '(r, g) := random g in
      let j := scaled_floor r i in
      shuffle_loop i' (swap i j a) g
  end.

(** [shuffleArray]: Fisher-Yates on a copy. *)
Definition shuffleArray {T} (items : list T) (g : Rng) : list T * Rng :=
  shuffle_loop (List.length items - 1) items g.

(** The pair loop of [startArena]: [const a = map1[id]!; const b =
    map2[id]!;] and one draw for the sides.  Nothing is checked here: the
    pair holds whatever the two reads returned. *)
Fixpoint make_pairs (map1 map2 : Table) (order : list string)
    (g : Rng) : list Pair * Rng :=
  match order with
  | [] => ([], g)
  | id :: rest =>
      let a := table_get id map1 in
      let b := table_get id map2 in
      let '(r, g) := random g in
      let '(ps, g) := make_pairs map1 map2 rest g in
      ((if below_half r then {| left := a; right := b |}
        else {| left := b; right := a |}) :: ps, g)
  end.

(** A callback handed to [window.setTimeout] by [vote]: the values its
    closure captured. *)
Record Timeout := {
  next_round : nat;
  pairs_length : nat;
  closure_models : option string * option string;
  closure_rounds : nat;
}.

(** The state cells of the component, the [votesRef] ref, and the timer
    callbacks that are pending. *)
Record State := {
  rounds : nat;
  images : list LoadedImage;
  phase : Phase;
  current : nat;
  pairs : list Pair;
  instructionsById : gmap string string;
  votesRef : list (Vote Choice);
  justVoted : option Choice;
  timers : list Timeout;
}.

Definition setImages (v : list LoadedImage) (st : State) : State :=
  {| rounds := rounds st; images := v; phase := phase st; current := current st;
     pairs := pairs st; instructionsById := instructionsById st;
     votesRef := votesRef st; justVoted := justVoted st; timers := timers st |}.
Definition setPhase (v : Phase) (st : State) : State :=
  {| rounds := rounds st; images := images st; phase := v; current := current st;
     pairs := pairs st; instructionsById := instructionsById st;
     votesRef := votesRef st; justVoted := justVoted st; timers := timers st |}.
Definition setCurrent (v : nat) (st : State) : State :=
  {| rounds := rounds st; images := images st; phase := phase st; current := v;
     pairs := pairs st; instructionsById := instructionsById st;
     votesRef := votesRef st; justVoted := justVoted st; timers := timers st |}.
Definition setPairs (v : list Pair) (st : State) : State :=
  {| rounds := rounds st; images := images st; phase := phase st; current := current st;
     pairs := v; instructionsById := instructionsById st;
     votesRef := votesRef st; justVoted := justVoted st; timers := timers st |}.
Definition setInstructionsById (v : gmap string string) (st : State) : State :=
  {| rounds := rounds st; images := images st; phase := phase st; current := current st;
     pairs := pairs st; instructionsById := v;
     votesRef := votesRef st; justVoted := justVoted st; timers := timers st |}.
Definition setVotes (v : list (Vote Choice)) (st : State) : State :=
  {| rounds := rounds st; images := images st; phase := phase st; current := current st;
     pairs := pairs st; instructionsById := instructionsById st;
     votesRef := v; justVoted := justVoted st; timers := timers st |}.
Definition setJustVoted (v : option Choice) (st : State) : State :=
  {| rounds := rounds st; images := images st; phase := phase st; current := current st;
     pairs := pairs st; instructionsById := instructionsById st;
     votesRef := votesRef st; justVoted := v; timers := timers st |}.
Definition setTimers (v : list Timeout) (st : State) : State :=
  {| rounds := rounds st; images := images st; phase := phase st; current := current st;
     pairs := pairs st; instructionsById := instructionsById st;
     votesRef := votesRef st; justVoted := justVoted st; timers := v |}.

Definition initial (defaultRounds : nat) : State :=
  {| rounds := defaultRounds; images := []; phase := config; current := 0;
     pairs := []; instructionsById := ∅; votesRef := []; justVoted := None;
     timers := [] |}.

Definition Result : Type := State * list (Effect Choice nat).

Definition startArena (g : Rng) (st : State) : Result :=
  let m1 := models (images st) !! 0 in
  let m2 := models (images st) !! 1 in
  if negb (truthy m1) || negb (truthy m2) then
    (st, [toast_error
            "Please provide images from exactly two models (use filename prefixes)."])
  else
    let '(map1, map2) :=
      build_maps (key_of m1) (key_of m2) (images st) (empty_table, empty_table) in
    let common := commonIds map1 map2 in
    if (List.length common =? 0)%nat then
      (st, [toast_error
              "No matching pairs found (match by id after prefix, e.g., A_001 with B_001)."])
    else
      let '(order, g) := shuffleArray common g in
      let '(newPairs, _) := make_pairs map1 map2 order g in
      (setPhase playing (setCurrent 0 (setPairs newPairs (setVotes [] st))), []).

(** The tally loop and the export of [finish], with the [models] and
    [rounds] its closure saw. *)
Definition tally (wins : gmap string number) (v : Vote Choice) : gmap string number :=
  if truthy (winnerModel v) then increment (key_of (winnerModel v)) wins else wins.

Definition finish (ms : option string * option string) (planned : nat)
    (st : State) : Result :=
  let '(m1, m2) := ms in
  let winsByModel :=
    foldl tally (<[key_of m2 := Num 0]> (<[key_of m1 := Num 0]> ∅)) (votesRef st) in
  let result :=
    {| res_models := (m1, m2); roundsPlanned := planned;
       roundsCompleted := List.length (votesRef st); winsByModel := winsByModel;
       ties := 0; bothBad := 0; res_votes := votesRef st |} in
  let winner :=
    if strict_eq (winsByModel !! key_of m1) (winsByModel !! key_of m2) then Some "tie"
    else if greater (winsByModel !! key_of m1) (winsByModel !! key_of m2) then m1
    else m2 in
  (setPhase results st,
   [toast_success
      (if decide (winner = Some "tie") then "Result: tie"
       else "Winner: " +:+ key_of winner);
    downloadJSON result winner]).

(** The entry [vote] pushes onto the vote log. *)
Definition ballot (round : nat) (choice : Choice) (pr : Pair) : Vote Choice :=
  let winnerModel :=
    match choice with
    | choose_left => get_model (left pr)
    | choose_right => get_model (right pr)
    end in
  {| round := round; vote_left := snapshot (left pr);
     vote_right := snapshot (right pr); choice := choice;
     winnerModel := winnerModel |}.

(** [vote].  The handler reads [pairs] and [current] of the render that
    created it; handlers are re-created whenever either changes, so these
    are the cells' values.  Reading a property of a side that is
    [undefined] throws before anything is stored, which ends the handler.
    Both choices take the branch that shows the tick and advances from a
    timer. *)
Definition vote (choice : Choice) (st : State) : Result :=
  match pairs st !! current st with
  | None => (st, [])
  | Some pr =>
      if negb (readable (left pr) && readable (right pr)) then (st, [])
      else
        let st := setVotes (votesRef st ++ [ballot (current st + 1) choice pr]) st in
        let next := current st + 1 in
        let callback :=
          {| next_round := next; pairs_length := List.length (pairs st);
             closure_models := (models (images st) !! 0, models (images st) !! 1);
             closure_rounds := rounds st |} in
        (setTimers (timers st ++ [callback]) (setJustVoted (Some choice) st), [])
  end.

(** The callback [vote] scheduled, run 300 ms later. *)
Definition timeout_callback (t : Timeout) (st : State) : Result :=
  let st := setJustVoted None st in
  if (pairs_length t <=? next_round t)%nat
  then finish (closure_models t) (closure_rounds t) st
  else (setCurrent (next_round t) st, []).

Definition handleKeyDown (key : string) (st : State) : Result :=
  match phase st with
  | playing =>
      if String.eqb key "ArrowLeft" then vote choose_left st
      else if String.eqb key "ArrowRight" then vote choose_right st
      else (st, [])
  | _ => (st, [])
  end.

(** What can happen to the mounted component. *)
Inductive Event :=
| click_start (g : Rng)
| click_vote (c : Choice)
| keydown (key : string)
| timeout_fires
| click_new_session
| images_loaded (imgs : list LoadedImage)
| instructions_loaded (text : string).

(** One event.  A button acts only while it is rendered and enabled; the
    timers all have the same delay and fire in the order they were set. *)
Definition step (e : Event) (st : State) : Result :=
  match e with
  | click_start g =>
      match phase st, images st with
      | config, _ :: _ => startArena g st
      | _, _ => (st, [])
      end
  | click_vote c =>
      match phase st, justVoted st with
      | playing, None => vote c st
      | _, _ => (st, [])
      end
  | keydown key => handleKeyDown key st
  | timeout_fires =>
      match timers st with
      | t :: rest => timeout_callback t (setTimers rest st)
      | [] => (st, [])
      end
  | click_new_session =>
      match phase st with
      | results => (setPhase config st, [])
      | _ => (st, [])
      end
  | images_loaded imgs => (setImages (mergeUniqueByUrl (images st) imgs) st, [])
  | instructions_loaded text =>
      let parsed := parseInstructionsCSV text in
      if (size parsed =? 0)%nat then (st, [])
      else (setInstructionsById parsed st, [])
  end.

Fixpoint run (es : list Event) (st : State) : State * list (Effect Choice nat) :=
  match es with
  | [] => (st, [])
  | e :: es =>
      let '(st, out) := step e st in
      let '(st, out') := run es st in
      (st, (out ++ out')%list)
  end.

(** [onFileChange] / [loadFromPublicFolder]: the image record of a file. *)
Definition loadImage (src : Source) (url filename : string) : LoadedImage :=
  let model := parseModelPrefix filename in
  {| img_url := url; img_model := model; img_name := filename;
     img_id := parseIdSuffix filename (Some model); img_source := src |}.

End V1.


(** ** The earlier revision *)

Module V2.

Inductive Choice := choose_left | choose_right | choose_tie | choose_both.

Definition parseModelPrefix (filename : string) : string :=
  let base := Js.stripExtension filename in
  let partsByUnderscore := Js.split "_" base in
  let partsByDash := Js.split "-" base in
  let pick :=
    if (List.length partsByUnderscore <=? List.length partsByDash)%nat
    then partsByUnderscore else partsByDash in
  Js.or_else (default "" (pick !! 0)) "model".

Definition separatorIndices (base : string) : list Z :=
  merge_sort Z.le
    (filter (λ i, (0 ≤ i)%Z) [Js.indexOf "_" base; Js.indexOf "-" base]).

(** As in the current revision, but the result is not normalised. *)
Definition parseIdSuffix (filename : string) (modelPrefix : option string) : string :=
  let base := Js.stripExtension filename in
  let rest :=
    if truthy modelPrefix
       && Js.startsWith (Js.toLowerCase base) (Js.toLowerCase (key_of modelPrefix))
    then Js.slice_from base (Z.of_nat (String.length (key_of modelPrefix)))
    else
      let idx := match separatorIndices base with i0 :: _ => i0 | [] => (-1)%Z end in
      if (0 <=? idx)%Z then Js.slice_from base (idx + 1) else base in
  let rest := Js.dropWhile Js.is_sep rest in
  Js.or_else rest base.

Definition loadImage (src : Source) (url filename : string) : LoadedImage :=
  let model := parseModelPrefix filename in
  {| img_url := url; img_model := model; img_name := filename;
     img_id := parseIdSuffix filename (Some model); img_source := src |}.

(** [rounds] is whatever number the rounds field was last given;
    only comparisons, [Math.max] and [Math.min] are applied to it, which
    are exact, so the number is taken as a rational. *)
Record State := {
  rounds : Q;
  images : list LoadedImage;
  phase : Phase;
  current : nat;
  pairs : list Pair;
  votesRef : list (Vote Choice);
}.

Definition setRounds (v : Q) (st : State) : State :=
  {| rounds := v; images := images st; phase := phase st; current := current st;
     pairs := pairs st; votesRef := votesRef st |}.
Definition setImages (v : list LoadedImage) (st : State) : State :=
  {| rounds := rounds st; images := v; phase := phase st; current := current st;
     pairs := pairs st; votesRef := votesRef st |}.
Definition setPhase (v : Phase) (st : State) : State :=
  {| rounds := rounds st; images := images st; phase := v; current := current st;
     pairs := pairs st; votesRef := votesRef st |}.
Definition setCurrent (v : nat) (st : State) : State :=
  {| rounds := rounds st; images := images st; phase := phase st; current := v;
     pairs := pairs st; votesRef := votesRef st |}.
Definition setPairs (v : list Pair) (st : State) : State :=
  {| rounds := rounds st; images := images st; phase := phase st; current := current st;
     pairs := v; votesRef := votesRef st |}.
Definition setVotes (v : list (Vote Choice)) (st : State) : State :=
  {| rounds := rounds st; images := images st; phase := phase st; current := current st;
     pairs := pairs st; votesRef := v |}.

(** The page mounts the component without a [defaultRounds], which
    then is 20; a caller that passes one is taken to pass a whole number. *)
Definition initial (defaultRounds : nat) : State :=
  {| rounds := inject_Z (Z.of_nat defaultRounds); images := []; phase := config;
     current := 0; pairs := []; votesRef := [] |}.

Definition Result : Type := State * list (Effect Choice Q).

(** [Math.max] and [Math.min] *)
Definition number_max (a b : Q) : Q := if Qlt_le_dec a b then b else a.
Definition number_min (a b : Q) : Q := if Qlt_le_dec b a then b else a.

(** The pair loop of [startArena], [for (let i = 0; i < maxRounds; i++)],
    at index [i]: [order] holds the ids from position [i] on.  [maxRounds]
    is at most the length of the whole list, so the list is not used up
    while [i < maxRounds] holds. *)
Fixpoint make_pairs (map1 map2 : Table) (maxRounds : Q) (i : nat)
    (order : list string) (g : Rng) : list Pair * Rng :=
  match order with
  | id :: rest =>
      if Qlt_le_dec (inject_Z (Z.of_nat i)) maxRounds then
        let a := table_get id map1 in
        let b := table_get id map2 in
        let '(r, g) := random g in
        let '(ps, g) := make_pairs map1 map2 maxRounds (S i) rest g in
        ((if below_half r then {| left := a; right := b |}
          else {| left := b; right := a |}) :: ps, g)
      else ([], g)
  | [] => ([], g)
  end.

(** The tally loop of [finish]: wins, ties and both-bad counts. *)
Definition tally (acc : gmap string number * nat * nat) (v : Vote Choice)
    : gmap string number * nat * nat :=
  let '(wins, ties, bothBad) := acc in
  match choice v with
  | choose_tie => (wins, S ties, bothBad)
  | choose_both => (wins, ties, S bothBad)
  | _ =>
      if truthy (winnerModel v)
      then (increment (key_of (winnerModel v)) wins, ties, bothBad)
      else acc
  end.

Definition finish (st : State) : Result :=
  let m1 := models (images st) !! 0 in
  let m2 := models (images st) !! 1 in
  let '(winsByModel, ties, bothBad) :=
    foldl tally (<[key_of m2 := Num 0]> (<[key_of m1 := Num 0]> ∅), 0, 0)
          (votesRef st) in
  let result :=
    {| res_models := (m1, m2); roundsPlanned := rounds st;
       roundsCompleted := List.length (votesRef st); winsByModel := winsByModel;
       ties := ties; bothBad := bothBad; res_votes := votesRef st |} in
  let winner :=
    if strict_eq (winsByModel !! key_of m1) (winsByModel !! key_of m2) then Some "tie"
    else if greater (winsByModel !! key_of m1) (winsByModel !! key_of m2) then m1
    else m2 in
  (setPhase results st,
   [toast_success
      (if decide (winner = Some "tie") then "Result: tie"
       else "Winner: " +:+ key_of winner);
    downloadJSON result winner]).

(** The entry [vote] pushes onto the vote log. *)
Definition ballot (round : nat) (choice : Choice) (pr : Pair) : Vote Choice :=
  let winnerModel :=
    match choice with
    | choose_left => get_model (left pr)
    | choose_right => get_model (right pr)
    | _ => None
    end in
  {| round := round; vote_left := snapshot (left pr);
     vote_right := snapshot (right pr); choice := choice;
     winnerModel := winnerModel |}.

(** [vote]; as in the current revision, reading a property of a side that
    is [undefined] throws before anything is stored. *)
Definition vote (choice : Choice) (st : State) : Result :=
  match pairs st !! current st with
  | None => (st, [])
  | Some pr =>
      if negb (readable (left pr) && readable (right pr)) then (st, [])
      else
        let st := setVotes (votesRef st ++ [ballot (current st + 1) choice pr]) st in
        let next := current st + 1 in
        if (List.length (pairs st) <=? next)%nat then finish st
        else (setCurrent next st, [])
  end.

(** What can happen to the mounted component; [change_rounds] carries
    [Number(e.target.value)], the number read off the rounds field (0 for
    an empty field). *)
Inductive Event :=
| click_start (g : Rng)
| click_vote (c : Choice)
| click_new_session
| click_clear
| change_rounds (value : Q)
| images_loaded (imgs : list LoadedImage).

Section Engine.

(** [ids.sort(() => Math.random() - 0.5)]: the order a sort produces
    under a comparator that answers at random is left to the JavaScript
    engine; the embedding takes the engine's sort as a parameter. *)
Variable random_sort : list string → Rng → list string * Rng.

Definition startArena (g : Rng) (st : State) : Result :=
  let m1 := models (images st) !! 0 in
  let m2 := models (images st) !! 1 in
  if negb (truthy m1) || negb (truthy m2) then
    (st, [toast_error
            "Please provide images from exactly two models (use filename prefixes)."])
  else
    let '(map1, map2) :=
      build_maps (key_of m1) (key_of m2) (images st) (empty_table, empty_table) in
    let common := commonIds map1 map2 in
    if (List.length common =? 0)%nat then
      (st, [toast_error
              "No matching pairs found (match by id after prefix, e.g., A_001 with B_001)."])
    else
      let '(order, g) := random_sort common g in
      let maxRounds :=
        number_min (rounds st) (inject_Z (Z.of_nat (List.length order))) in
      let '(newPairs, _) := make_pairs map1 map2 maxRounds 0 order g in
      (setPhase playing (setCurrent 0 (setPairs newPairs (setVotes [] st))), []).

(** One event.  A button acts only while it is rendered and enabled. *)
Definition step (e : Event) (st : State) : Result :=
  match e with
  | click_start g =>
      match phase st, images st with
      | config, _ :: _ => startArena g st
      | _, _ => (st, [])
      end
  | click_vote c =>
      match phase st with
      | playing => vote c st
      | _ => (st, [])
      end
  | click_new_session =>
      match phase st with
      | results => (setPhase config st, [])
      | _ => (st, [])
      end
  | click_clear =>
      match phase st, images st with
      | config, _ :: _ => (setImages [] st, [])
      | _, _ => (st, [])
      end
  | change_rounds value =>
      match phase st with
      | config => (setRounds (number_max 1 value) st, [])
      | _ => (st, [])
      end
  | images_loaded imgs => (setImages (mergeUniqueByUrl (images st) imgs) st, [])
  end.

Fixpoint run (es : list Event) (st : State) : State * list (Effect Choice Q) :=
  match es with
  | [] => (st, [])
  | e :: es =>
      let '(st, out) := step e st in
      let '(st, out') := run es st in
      (st, (out ++ out')%list)
  end.

End Engine.

End V2.

(** ** The specification's vocabulary

    The definitions of this part follow the wording of the specification;
    the theorems compare them with the embedding above. *)

Module Spec.

Definition starts_with (p : ascii → bool) (s : string) : bool :=
  match s with String c _ => p c | EmptyString => false end.

Fixpoint ends_with (p : ascii → bool) (s : string) : bool :=
  match s with
  | EmptyString => false
  | String c EmptyString => p c
  | String _ r => ends_with p r
  end.

(** "Trims whitespace": [t] is [raw] without the whitespace around it. *)
Definition trimmed (raw t : string) : Prop :=
  ∃ before after,
    raw = before +:+ t +:+ after
    ∧ Js.all Js.is_ws before = true ∧ Js.all Js.is_ws after = true
    ∧ Spec.starts_with Js.is_ws t = false ∧ Spec.ends_with Js.is_ws t = false.

(** "Strips a leading run of separator characters". *)
Definition stripped (t cleaned : string) : Prop :=
  ∃ run,
    t = run +:+ cleaned ∧ Js.all Js.is_sep run = true
    ∧ Spec.starts_with Js.is_sep cleaned = false.

(** "The remainder is entirely digits". *)
Definition entirely_digits (s : string) : Prop :=
  s ≠ "" ∧ Js.all Js.is_digit s = true.

(** "Strips leading zeros; an all-zero string normalizes to "0"". *)
Definition without_leading_zeros (s out : string) : Prop :=
  ∃ zeros rest,
    s = zeros +:+ rest ∧ Js.all Js.is_zero zeros = true
    ∧ Spec.starts_with Js.is_zero rest = false
    ∧ out = (if decide (rest = "") then "0" else rest).

(** The contract of the Identifier Normalizer. *)
Definition normalize (raw out : string) : Prop :=
  ∃ t cleaned,
    trimmed raw t ∧ stripped t cleaned
    ∧ (entirely_digits cleaned → without_leading_zeros cleaned out)
    ∧ (¬ entirely_digits cleaned → out = cleaned).

(** The two characters the Filename Parser splits at. *)
Definition is_split (c : ascii) : bool := Ascii.eqb c "_" || Ascii.eqb c "-".

Fixpoint has_separator (s : string) : bool :=
  match s with
  | EmptyString => false
  | String c r => is_split c || has_separator r
  end.

(** The position of the first character of a class, if there is one. *)
Fixpoint first_index (p : ascii → bool) (s : string) : option nat :=
  match s with
  | EmptyString => None
  | String c r => if p c then Some 0 else S <$> first_index p r
  end.

(** "The smaller of the two indices that exist". *)
Definition smaller (a b : option nat) : option nat :=
  match a, b with
  | Some x, Some y => Some (Nat.min x y)
  | Some x, None => Some x
  | None, _ => b
  end.

(** "The substring before the first separator". *)
Fixpoint before_separator (s : string) : string :=
  match s with
  | EmptyString => EmptyString
  | String c r => if is_split c then EmptyString else String c (before_separator r)
  end.

(** "The remainder after that separator". *)
Fixpoint after_separator (s : string) : string :=
  match s with
  | EmptyString => EmptyString
  | String c r => if is_split c then r else after_separator r
  end.

(** The residual of a base name: the remainder after the first separator
    without its leading separator characters, "falling back to the full
    base name if the residual is empty". *)
Definition residual (base : string) : string :=
  Js.or_else (Js.dropWhile Js.is_sep (after_separator base)) base.

(** The Filename Parser property as the specification words it, for one
    filename and one pair of parsing functions. *)
Definition splits_at_first_separator
    (parseModel : string → string) (parseId : string → option string → string)
    (normalizeId : string → string) (filename : string) : Prop :=
  let base := Js.stripExtension filename in
  parseModel filename = before_separator base
  ∧ parseId filename (Some (parseModel filename)) = normalizeId (after_separator base).

(** The ids a model has in a catalog. *)
Definition ids_of (m : string) (images : list LoadedImage) : gset string :=
  list_to_set (img_id <$> filter (λ i, img_model i = m) images).

(** A lookup table of one model: every entry is an image of that model,
    filed under its own id. *)
Definition table_of (m : string) (t : gmap string LoadedImage) : Prop :=
  ∀ k v, t !! k = Some v → img_model v = m ∧ img_id v = k.

(** A pair as the data model wants it: one image of each of the two
    models, under one id. *)
Definition pair_between (m1 m2 : string) (p : Pair) : Prop :=
  ∃ a b,
    ((left p = image a ∧ right p = image b)
     ∨ (left p = image b ∧ right p = image a))
    ∧ img_model a = m1 ∧ img_model b = m2 ∧ img_id a = img_id b.

(** "[left.model ≠ right.model]; [left.id == right.id]". *)
Definition well_paired (p : Pair) : Prop :=
  get_model (left p) ≠ get_model (right p) ∧ get_id (left p) = get_id (right p).

(** A vote of a session between the models [A] and [B]: the entry the
    vote handler records for some pair of theirs. *)
Definition recorded1 (A B : string) (v : Vote V1.Choice) : Prop :=
  ∃ n c p, pair_between A B p ∧ v = V1.ballot n c p.

Definition recorded2 (A B : string) (v : Vote V2.Choice) : Prop :=
  ∃ n c p, pair_between A B p ∧ v = V2.ballot n c p.

(** "[winsByModel[m1] + winsByModel[m2] + ties + neitherCount ==
    roundsCompleted]", both win counts being numbers. *)
Definition accounts_for_every_round {C N} (A B : string) (data : ArenaResult C N)
    : Prop :=
  ∃ a b, winsByModel data !! A = Some (Num a) ∧ winsByModel data !! B = Some (Num b)
         ∧ a + b + ties data + bothBad data = roundsCompleted data.

(** "Returns to [Configuring] with an empty catalog and empty vote log",
    the pairs discarded as well. *)
Definition discarded (st : V1.State) : Prop :=
  V1.phase st = config ∧ V1.images st = [] ∧ V1.pairs st = []
  ∧ V1.votesRef st = [].

(** "Pairs count equals [|intersection|] (or the configured cap, whichever
    is smaller)". *)
Definition capped_pair_count (cap : nat) (ids : gset string) (ps : list Pair) : Prop :=
  List.length ps = Nat.min cap (size ids).

(** The exports among the effects of a run. *)
Definition is_download {C N} (e : Effect C N) : bool :=
  match e with downloadJSON _ _ => true | _ => false end.

Definition downloads {C N} (out : list (Effect C N)) : nat :=
  List.length (List.filter is_download out).

(** Planned and completed rounds of each export of a run. *)
Definition exported_rounds {C N} (out : list (Effect C N)) : list (N * nat) :=
  omap (λ e, match e with
             | downloadJSON data _ => Some (roundsPlanned data, roundsCompleted data)
             | _ => None
             end) out.

(** Row [i] of an instruction table is a data row that files its
    instruction under [key]: under its raw id or its normalised id. *)
Definition registers (delim : ascii) (i : nat) (line key : string) : Prop :=
  ∃ id instruction,
    V1.csv_row delim i line = Some (id, instruction)
    ∧ (key = id ∨ key = V1.normalizeId id).

(** The distinct model labels of a catalog. *)
Definition labels (images : list LoadedImage) : gset string :=
  list_to_set (img_model <$> images).

End Spec.

(** ** Session start, step by step

    Names for the intermediate values of [startArena]: the two lookup
    tables of a catalog with the labels [A] and [B], the ids they share, and
    the state a successful start of the current revision leaves. *)

Definition tables (A B : string) (images : list LoadedImage) : Table * Table :=
  build_maps A B images (empty_table, empty_table).

Definition matched (A B : string) (images : list LoadedImage) : list string :=
  commonIds (tables A B images).1 (tables A B images).2.

Definition started1 (g : Rng) (A B : string) (st : V1.State) : V1.State :=
  let common := matched A B (V1.images st) in
  let shuffled := V1.shuffleArray common g in
  let newPairs :=
    (V1.make_pairs (tables A B (V1.images st)).1 (tables A B (V1.images st)).2
       shuffled.1 shuffled.2).1 in
  V1.setPhase playing (V1.setCurrent 0 (V1.setPairs newPairs (V1.setVotes [] st))).

Definition started2 (random_sort : list string → Rng → list string * Rng)
    (g : Rng) (A B : string) (st : V2.State) : V2.State :=
  let common := matched A B (V2.images st) in
  let sorted := random_sort common g in
  let maxRounds :=
    V2.number_min (V2.rounds st) (inject_Z (Z.of_nat (List.length sorted.1))) in
  let newPairs :=
    (V2.make_pairs (tables A B (V2.images st)).1 (tables A B (V2.images st)).2
       maxRounds 0 sorted.1 sorted.2).1 in
  V2.setPhase playing (V2.setCurrent 0 (V2.setPairs newPairs (V2.setVotes [] st))).


(** The bound on the vote log, with what the voting phase adds to it: the
    votes so far are the rounds before the cursor. *)
Definition bounded2 (st : V2.State) : Prop :=
  (List.length (V2.votesRef st) ≤ List.length (V2.pairs st))%nat
  ∧ (V2.phase st = playing → List.length (V2.votesRef st) = V2.current st).

(** The same bound for the current revision while only buttons are used:
    between a vote and the timer that advances the cursor exactly one
    callback is pending, and it carries the next round. *)
Definition bounded1 (st : V1.State) : Prop :=
  (List.length (V1.votesRef st) ≤ List.length (V1.pairs st))%nat
  ∧ match V1.phase st with
    | playing =>
        (V1.justVoted st = None ∧ V1.timers st = []
         ∧ List.length (V1.votesRef st) = V1.current st)
        ∨ (V1.justVoted st ≠ None
           ∧ ∃ t, V1.timers st = [t]
                  ∧ V1.next_round t = V1.current st + 1
                  ∧ V1.pairs_length t = List.length (V1.pairs st)
                  ∧ List.length (V1.votesRef st) = V1.current st + 1)
    | _ => V1.justVoted st = None ∧ V1.timers st = []
    end.

Definition is_keydown (e : V1.Event) : bool :=
  match e with V1.keydown _ => true | _ => false end.

(** ** A worked session

    Two files of two models under one id, a random source that always
    answers the same, and an engine sort that keeps the order it is given. *)

Definition demo_catalog : list LoadedImage :=
  [V1.loadImage public "/images/alpha_001.png" "alpha_001.png";
   V1.loadImage public "/images/beta_001.png" "beta_001.png"].

(** The four files of the specification's end-to-end scenario. *)
Definition scenario_catalog : list LoadedImage :=
  [V1.loadImage public "/images/alpha_001.png" "alpha_001.png";
   V1.loadImage public "/images/alpha_002.png" "alpha_002.png";
   V1.loadImage public "/images/beta_001.png" "beta_001.png";
   V1.loadImage public "/images/beta_002.png" "beta_002.png"].

Definition always (q : Q) : Rng := λ _, q.

Definition keep_order (l : list string) (g : Rng) : list string * Rng := (l, g).

Definition demo_config1 : V1.State := V1.setImages demo_catalog (V1.initial 20).

Definition demo_config2 : V2.State := V2.setImages demo_catalog (V2.initial 20).

Definition demo_alpha : LoadedImage :=
  V1.loadImage public "/images/alpha_001.png" "alpha_001.png".

Definition demo_beta : LoadedImage :=
  V1.loadImage public "/images/beta_001.png" "beta_001.png".

Definition demo_pair : Pair :=
  {| left := image demo_alpha; right := image demo_beta |}.

(** The one-round session after a vote for the left image, and its earlier
    counterpart after a tie. *)
Definition demo_voted1 : V1.State :=
  V1.setVotes [V1.ballot 1 V1.choose_left demo_pair]
    (V1.setPairs [demo_pair] (V1.setPhase playing demo_config1)).

Definition demo_voted2 : V2.State :=
  V2.setVotes [V2.ballot 1 V2.choose_tie demo_pair]
    (V2.setPairs [demo_pair] (V2.setPhase playing demo_config2)).

(** The scenario's catalog in a component mounted with one round planned. *)
Definition one_round_planned : V1.State :=
  V1.setImages scenario_catalog (V1.initial 1).

(** The scenario: two rounds, the left image chosen in both. *)
Definition scenario_session : list V1.Event :=
  [V1.images_loaded scenario_catalog; V1.click_start (always 0);
   V1.click_vote V1.choose_left; V1.timeout_fires;
   V1.click_vote V1.choose_left; V1.timeout_fires].

(** Two presses of the left arrow key before the first timer fires. *)
Definition hasty_session : list V1.Event :=
  [V1.images_loaded demo_catalog; V1.click_start (always 0);
   V1.keydown "ArrowLeft"; V1.keydown "ArrowLeft";
   V1.timeout_fires; V1.timeout_fires].

(** The instruction table of the specification: a header and one row. *)
Definition demo_csv : string :=
  "id;instruction" +:+ String "010" "001;Draw a cat".

(** ** A catalog that reaches the prototype

    Two files of two models that share no id; the id of the first names a
    method every plain object inherits. *)
Definition alpha_constructor : LoadedImage :=
  V1.loadImage public "/images/alpha_constructor.png" "alpha_constructor.png".

Definition prototype_catalog : list LoadedImage :=
  [alpha_constructor; V1.loadImage public "/images/beta_001.png" "beta_001.png"].

Definition prototype_config : V1.State :=
  V1.setImages prototype_catalog (V1.initial 20).

(** The one round of that catalog, the right side chosen. *)
Definition prototype_session : list V1.Event :=
  [V1.images_loaded prototype_catalog; V1.click_start (always 0);
   V1.click_vote V1.choose_right; V1.timeout_fires].

(** An instruction table with the row [__proto__;hello]. *)
Definition prototype_csv : string :=
  "id;instruction" +:+ String "010" "__proto__;hello".

(** Four files of two models under two ids, named so that both revisions
    parse them alike, and the two components that hold them with one round
    planned. *)
Definition shared_catalog : list LoadedImage :=
  [V2.loadImage public "/images/alpha_-1.png" "alpha_-1.png";
   V2.loadImage public "/images/alpha_-2.png" "alpha_-2.png";
   V2.loadImage public "/images/beta_-1.png" "beta_-1.png";
   V2.loadImage public "/images/beta_-2.png" "beta_-2.png"].

Definition shared_config1 : V1.State := V1.setImages shared_catalog (V1.initial 1).

Definition shared_config2 : V2.State := V2.setImages shared_catalog (V2.initial 1).

(** The same kind of catalog for the earlier revision, and its one round
    with the right side chosen. *)
Definition earlier_prototype_catalog : list LoadedImage :=
  [V2.loadImage public "/images/x_-constructor.png" "x_-constructor.png";
   V2.loadImage public "/images/y_-001.png" "y_-001.png"].

Definition earlier_prototype_session : list V2.Event :=
  [V2.images_loaded earlier_prototype_catalog; V2.click_start (always 0);
   V2.click_vote V2.choose_right].

(** Two files of one model under one id, and one of the other model. *)
Definition duplicate_catalog : list LoadedImage :=
  [V1.loadImage public "/images/alpha_001.png" "alpha_001.png";
   V1.loadImage public "/images/alpha-001.png" "alpha-001.png";
   V1.loadImage public "/images/beta_001.png" "beta_001.png"].

Definition duplicate_config : V1.State :=
  V1.setImages duplicate_catalog (V1.initial 20).

(** ** Further parts of the component

    The helpers both revisions share around the catalog: resolving a path
    against the site base, reading file names off a directory listing,
    turning the names into catalog entries, and the per-model grouping. *)

Module JsMore.

(** [s.endsWith(p)] *)
Fixpoint endsWith (s p : string) : bool :=
  String.eqb s p
  || match s with
     | String _ r => endsWith r p
     | EmptyString => false
     end.

(** [s.slice(0, -1)] *)
Fixpoint dropLast (s : string) : string :=
  match s with
  | EmptyString => EmptyString
  | String _ EmptyString => EmptyString
  | String c r => String c (dropLast r)
  end.

(** [parts.join(sep)] *)
Fixpoint join (sep : string) (parts : list string) : string :=
  match parts with
  | [] => EmptyString
  | [p] => p
  | p :: rest => p +:+ sep +:+ join sep rest
  end.

(** [s.split("/").pop()] *)
Definition lastSegment (s : string) : string := List.last (Js.split "/" s) EmptyString.

End JsMore.

(** [window.location], as far as [withBase] reads it. *)
Record Location := { hostname : string; pathname : string }.

(** [withBase]: [envBase] is [import.meta.env.BASE_URL], [None] when it is
    nullish; [window] is [None] where there is no window. *)
Definition withBase (envBase : option string) (window : option Location)
    (path : string) : string :=
  let envBase := default "/" envBase in
  let base :=
    if Js.is_empty envBase || String.eqb envBase "/" then
      match window with
      | Some location =>
          if JsMore.endsWith (hostname location) "github.io" then
            match List.filter (λ s, negb (Js.is_empty s))
                    (Js.split "/" (pathname location)) with
            | segment :: _ => "/" +:+ segment +:+ "/"
            | [] => envBase
            end
          else envBase
      | None => envBase
      end
    else envBase in
  let a := if JsMore.endsWith base "/" then JsMore.dropLast base else base in
  let b := if Js.startsWith path "/" then path else "/" +:+ path in
  a +:+ b.

(** The extensions [loadFromPublicFolder] accepts. *)
Definition supported : list string :=
  [".png"; ".jpg"; ".jpeg"; ".webp"; ".gif"; ".bmp"].

Definition hasSupportedExtension (name : string) : bool :=
  existsb (λ ext, JsMore.endsWith (Js.toLowerCase name) ext) supported.

(** The file names [loadFromPublicFolder] reads off the links of a
    directory listing; a link without an [href] attribute is [None]. *)
Definition listingFileNames (hrefs : list (option string)) : list string :=
  let hrefs := List.map (λ a, Js.or_else (default "" a) "") hrefs in
  let hrefs := List.map (λ href, default "" (head (Js.split "?" href))) hrefs in
  let hrefs :=
    List.filter (λ href, negb (Js.is_empty href) && negb (Js.startsWith href ".."))
      hrefs in
  let hrefs :=
    List.map (λ href, if JsMore.endsWith href "/" then JsMore.dropLast href else href)
      hrefs in
  let names := List.map (λ href, Js.or_else (JsMore.lastSegment href) href) hrefs in
  List.filter hasSupportedExtension names.

(** The catalog entry [loadFromPublicFolder] makes of a file name. *)
Definition publicImage (envBase : option string) (window : option Location)
    (name : string) : LoadedImage :=
  let baseName := Js.or_else (JsMore.lastSegment name) name in
  let model := V1.parseModelPrefix baseName in
  let id := V1.parseIdSuffix baseName (Some model) in
  {| img_url := withBase envBase window ("images/" +:+ name); img_model := model;
     img_name := name; img_id := id; img_source := public |}.

(** The entries of the current revision for a list of file names: distinct
    names, shuffled. *)
Definition publicImages (envBase : option string) (window : option Location)
    (fileNames : list string) (g : Rng) : list LoadedImage :=
  let unique := distinct [] fileNames in
  let shuffledNames := (V1.shuffleArray unique g).1 in
  publicImage envBase window <$> shuffledNames.

(** The [grouped] memo: the images of each model, in catalog order.  For
    a label the object does not own, [map[img.model]] reads the prototype:
    a label that names one of its members is truthy there, so no array is
    created and the call of [push] on the member throws.  [None] is that
    [TypeError], which the render that evaluates the memo does not catch. *)
Definition grouped_step (acc : option (gmap string (list LoadedImage)))
    (img : LoadedImage) : option (gmap string (list LoadedImage)) :=
  match acc with
  | None => None
  | Some map =>
      match map !! img_model img with
      | Some list => Some (<[img_model img := (list ++ [img])%list]> map)
      | None =>
          if inherited (img_model img) then None
          else Some (<[img_model img := [img]]> map)
      end
  end.

Definition grouped (images : list LoadedImage)
    : option (gmap string (list LoadedImage)) :=
  foldl grouped_step (Some ∅) images.

(** A key that reaches nothing on the prototype chain of a fresh object. *)
Definition plain (k : string) : Prop := inherited k = false.

(** The last entry of a catalog with a given model and id. *)
Definition last_loaded (m id : string) (images : list LoadedImage) : option LoadedImage :=
  last (filter (λ i, img_model i = m ∧ img_id i = id) images).

(** The ids under which a list of pairs is judged: [left.id] of each. *)
Definition judged_ids (ps : list Pair) : list (option string) :=
  (λ p, get_id (left p)) <$> ps.

(** No character of a class in a string. *)
Definition free_of (p : ascii → bool) (s : string) : Prop :=
  Js.all (λ c, negb (p c)) s = true.

Definition is_char (c : ascii) : ascii → bool := λ d, Ascii.eqb d c.

Definition is_newline (c : ascii) : bool := Ascii.eqb c "010" || Ascii.eqb c "013".

Definition is_quote (c : ascii) : bool := Ascii.eqb c "034".

(** The votes of the earlier revision are numbered in the order cast. *)
Definition numbered2 (st : V2.State) : Prop :=
  bounded2 st
  ∧ round <$> V2.votesRef st = seq 1 (List.length (V2.votesRef st)).

(** While the earlier revision is voting there is a pair at the cursor. *)
Definition playable2 (st : V2.State) : Prop :=
  (1 <= V2.rounds st)%Q
  ∧ (V2.phase st = playing → (V2.current st < List.length (V2.pairs st))%nat).

(** The two halves of [normalizeId]: cleaning, and the rule for digits. *)
Definition cleaned (id : string) : string := Js.dropWhile Js.is_sep (Js.trim id).

Definition digits_rule (c : string) : string :=
  if negb (Js.is_empty c) && Js.all Js.is_digit c then
    let noLeading := Js.dropWhile Js.is_zero c in
    if Js.is_empty noLeading then "0" else noLeading
  else c.

(** The two sides of a pair are what the two lookup tables return for
    one id. *)
Definition from_tables (map1 map2 : Table) (p : Pair) : Prop :=
  ∃ k, (left p = table_get k map1 ∧ right p = table_get k map2)
       ∨ (right p = table_get k map1 ∧ left p = table_get k map2).

(** The rounds of a vote log that a model won, and those that ended with a
    given kind of choice. *)
Definition wins_for {C} (m : string) (votes : list (Vote C)) : nat :=
  List.length (filter (λ v, winnerModel v = Some m) votes).

Definition is_tie (c : V2.Choice) : bool :=
  match c with V2.choose_tie => true | _ => false end.

Definition is_both (c : V2.Choice) : bool :=
  match c with V2.choose_both => true | _ => false end.

Definition chosen {C} (p : C → bool) (votes : list (Vote C)) : nat :=
  List.length (List.filter (λ v, p (choice v)) votes).

(** The overall winner [finish] names for the win counts [a] of the first
    model and [b] of the second. *)
Definition overall (A B : string) (a b : nat) : option string :=
  if (a =? b)%nat then Some "tie" else if (b <? a)%nat then Some A else Some B.

(** The number of pairs of a session of the earlier revision against its
    rounds setting: the last pair starts before the setting is reached. *)
Definition started_before (count : nat) (limit : Q) : Prop :=
  count = 0 ∨ (inject_Z (Z.of_nat (count - 1)) < limit)%Q.

Definition capped2 (st : V2.State) : Prop :=
  bounded2 st
  ∧ (V2.phase st = playing →
     started_before (List.length (V2.pairs st)) (V2.rounds st)).

(** A whole number. *)
Definition whole (q : Q) : Prop := ∃ n : nat, (q == inject_Z (Z.of_nat n))%Q.

(** An export with at least one completed round, the last of them begun
    before the planned number was reached; when the planned number is
    whole, that is no more completed rounds than planned ones. *)
Definition within_plan (planned_completed : Q * nat) : Prop :=
  (1 ≤ planned_completed.2)%nat
  ∧ (inject_Z (Z.of_nat (planned_completed.2 - 1)) < planned_completed.1)%Q
  ∧ (whole planned_completed.1 →
     (inject_Z (Z.of_nat planned_completed.2) <= planned_completed.1)%Q).

(** The votes of the current revision are numbered in the order cast, as
    long as the bound on the vote log holds. *)
Definition numbered1 (st : V1.State) : Prop :=
  bounded1 st
  ∧ round <$> V1.votesRef st = seq 1 (List.length (V1.votesRef st)).

(** A catalog none of whose ids reaches the prototype of a lookup table. *)
Definition plain_ids (images : list LoadedImage) : Prop :=
  Forall (λ i, plain (img_id i)) images.

(** Both tables hold, under the key [k], an image filed under that id. *)
Definition both_filed (map1 map2 : Table) (k : string) : Prop :=
  ∃ a b, table_get k map1 = image a ∧ table_get k map2 = image b
         ∧ img_id a = k ∧ img_id b = k.

(** * Theorems *)

(** ** Facts about the string operations *)

Module JsFacts.

Lemma is_empty_true s : Js.is_empty s = true ↔ s = "".
Proof. destruct s; simpl; split; congruence. Qed.

Lemma is_empty_false s : Js.is_empty s = false ↔ s ≠ "".
Proof. destruct s; simpl; split; congruence. Qed.

Lemma append_nil_l s : "" +:+ s = s.
Proof. reflexivity. Qed.

Lemma append_cons c s t : String c s +:+ t = String c (s +:+ t).
Proof. reflexivity. Qed.

Ltac sapp := rewrite ?append_nil_l, ?append_cons in *.

Lemma append_nil_r s : s +:+ "" = s.
Proof. induction s as [|c s IH]; sapp; [done | by rewrite IH]. Qed.

Lemma append_assoc s t u : (s +:+ t) +:+ u = s +:+ t +:+ u.
Proof. induction s as [|c s IH]; sapp; [done | by rewrite IH]. Qed.

Lemma ws_is_sep c : Js.is_ws c = true → Js.is_sep c = true.
Proof. unfold Js.is_sep. intros ->. by rewrite !orb_true_r. Qed.

(** [dropWhile] removes a maximal leading run. *)
Lemma dropWhile_split p s :
  ∃ run, s = run +:+ Js.dropWhile p s ∧ Js.all p run = true
         ∧ Spec.starts_with p (Js.dropWhile p s) = false.
Proof.
  induction s as [|c s (run & Hs & Hrun & Hstart)]; simpl.
  - by exists "".
  - destruct (p c) eqn:Hc.
    + exists (String c run). sapp. simpl. rewrite Hc, Hrun. by rewrite <- Hs.
    + exists "". sapp. simpl. by rewrite Hc.
Qed.

Lemma dropWhile_fixed p s :
  Spec.starts_with p s = false → Js.dropWhile p s = s.
Proof. destruct s as [|c s]; simpl; [done | by intros ->]. Qed.

Lemma dropWhile_idem p s : Js.dropWhile p (Js.dropWhile p s) = Js.dropWhile p s.
Proof.
  destruct (dropWhile_split p s) as (_ & _ & _ & H). by apply dropWhile_fixed.
Qed.

Lemma dropWhile_app_run p run s :
  Js.all p run = true → Js.dropWhile p (run +:+ s) = Js.dropWhile p s.
Proof.
  induction run as [|c run IH]; sapp; simpl; [done |].
  intros [-> ?]%andb_true_iff. auto.
Qed.

Lemma dropWhile_sep_ws s :
  Js.dropWhile Js.is_sep (Js.dropWhile Js.is_ws s) = Js.dropWhile Js.is_sep s.
Proof.
  induction s as [|c s IH]; simpl; [done |].
  destruct (Js.is_ws c) eqn:Hc.
  - by rewrite (ws_is_sep _ Hc).
  - done.
Qed.

Lemma dropWhile_ws_sep s :
  Js.dropWhile Js.is_ws (Js.dropWhile Js.is_sep s) = Js.dropWhile Js.is_sep s.
Proof.
  apply dropWhile_fixed.
  destruct (dropWhile_split Js.is_sep s) as (_ & _ & _ & H).
  destruct (Js.dropWhile Js.is_sep s) as [|c r]; simpl in *; [done |].
  destruct (Js.is_ws c) eqn:Hc; [| done]. by rewrite (ws_is_sep _ Hc) in H.
Qed.

(** [trimEnd] removes a maximal trailing run of whitespace. *)
Lemma trimEnd_split s :
  ∃ after, s = Js.trimEnd s +:+ after ∧ Js.all Js.is_ws after = true
           ∧ Spec.ends_with Js.is_ws (Js.trimEnd s) = false.
Proof.
  induction s as [|c s (after & Hs & Hafter & Hend)]; simpl.
  - by exists "".
  - destruct (Js.is_ws c && Js.is_empty (Js.trimEnd s)) eqn:Hc.
    + apply andb_true_iff in Hc as [Hc He]. apply is_empty_true in He.
      rewrite He in Hs. sapp. subst after.
      exists (String c s). sapp. simpl. by rewrite Hc, Hafter.
    + exists after. sapp. rewrite <- Hs. split_and!; [done | done |].
      destruct (Js.trimEnd s) as [|d r] eqn:Hr; [| done].
      simpl in Hc. by rewrite andb_true_r in Hc.
Qed.

Lemma trimEnd_empty_all_ws s : Js.trimEnd s = "" → Js.all Js.is_ws s = true.
Proof.
  intros H. destruct (trimEnd_split s) as (after & Hs & Hafter & _).
  rewrite H in Hs. sapp. by subst.
Qed.

Lemma trimEnd_starts p s :
  Spec.starts_with p (Js.trimEnd s) = true → Spec.starts_with p s = true.
Proof.
  destruct s as [|c s]; simpl; [done |].
  by destruct (Js.is_ws c && Js.is_empty (Js.trimEnd s)).
Qed.

Lemma trimEnd_keeps_head c s :
  Js.is_ws c = false → Js.trimEnd (String c s) = String c (Js.trimEnd s).
Proof. simpl. by intros ->. Qed.

(** Stripping separators commutes with trimming the end. *)
Lemma dropWhile_sep_trimEnd s :
  Js.dropWhile Js.is_sep (Js.trimEnd s) = Js.trimEnd (Js.dropWhile Js.is_sep s).
Proof.
  induction s as [|c s IH]; [done |].
  destruct (Js.is_sep c) eqn:Hsep.
  - change (Js.dropWhile Js.is_sep (String c s)) with
      (if Js.is_sep c then Js.dropWhile Js.is_sep s else String c s).
    rewrite Hsep, <- IH. simpl.
    destruct (Js.is_ws c && Js.is_empty (Js.trimEnd s)) eqn:Hc.
    + apply andb_true_iff in Hc as [_ He]. apply is_empty_true in He.
      by rewrite He.
    + simpl. by rewrite Hsep.
  - assert (Js.is_ws c = false) as Hws.
    { destruct (Js.is_ws c) eqn:E; [| done]. by rewrite (ws_is_sep _ E) in Hsep. }
    rewrite trimEnd_keeps_head by done. simpl Js.dropWhile. rewrite Hsep.
    by rewrite trimEnd_keeps_head.
Qed.

Lemma all_app p s t : Js.all p (s +:+ t) = Js.all p s && Js.all p t.
Proof.
  induction s as [|c s IH]; sapp; simpl; [done |]. by rewrite IH, andb_assoc.
Qed.

Lemma take_drop n s : Js.take n s +:+ Js.drop n s = s.
Proof.
  revert s. induction n as [|n IH]; intros [|c s]; simpl; sapp; try done.
  by rewrite IH.
Qed.

End JsFacts.

(** ** The Identifier Normalizer *)

Module NormalizeFacts.
Import JsFacts.

Lemma trim_trimmed raw : Spec.trimmed raw (Js.trim raw).
Proof.
  unfold Spec.trimmed, Js.trim, Js.trimStart.
  destruct (dropWhile_split Js.is_ws raw) as (before & Hraw & Hbefore & Hstart).
  destruct (trimEnd_split (Js.dropWhile Js.is_ws raw)) as (after & Hmid & Hafter & Hend).
  exists before, after. split_and!; try done.
  - by rewrite <- Hmid.
  - destruct (Spec.starts_with Js.is_ws (Js.trimEnd (Js.dropWhile Js.is_ws raw))) eqn:E;
      [| done].
    apply trimEnd_starts in E. congruence.
Qed.

Lemma entirely_digits_test s :
  negb (Js.is_empty s) && Js.all Js.is_digit s = true ↔ Spec.entirely_digits s.
Proof.
  unfold Spec.entirely_digits.
  rewrite andb_true_iff, negb_true_iff, is_empty_false. tauto.
Qed.

Lemma normalizeId_meets_contract raw : Spec.normalize raw (V1.normalizeId raw).
Proof.
  unfold V1.normalizeId.
  destruct (Js.is_empty raw) eqn:Hraw.
  - apply is_empty_true in Hraw as ->.
    exists "", "". split_and!.
    + by exists "", "".
    + by exists "".
    + by intros [? _].
    + done.
  - exists (Js.trim raw), (Js.dropWhile Js.is_sep (Js.trim raw)).
    split_and!.
    + apply trim_trimmed.
    + apply dropWhile_split.
    + intros Hd. apply entirely_digits_test in Hd as ->.
      destruct (dropWhile_split Js.is_zero (Js.dropWhile Js.is_sep (Js.trim raw)))
        as (zeros & Hz & Hzeros & Hstart).
      exists zeros, (Js.dropWhile Js.is_zero (Js.dropWhile Js.is_sep (Js.trim raw))).
      split_and!; try done.
      generalize (Js.dropWhile Js.is_zero (Js.dropWhile Js.is_sep (Js.trim raw))).
      intros [|c r]; simpl Js.is_empty; by case_decide.
    + intros Hd.
      destruct (negb _ && _) eqn:E; [| done].
      by apply entirely_digits_test in E.
Qed.

(** The contract determines the result: the pieces it names are unique. *)

Lemma trimEnd_all_ws s : Js.all Js.is_ws s = true → Js.trimEnd s = "".
Proof.
  induction s as [|c s IH]; simpl; [done |].
  intros [-> Hs]%andb_true_iff. by rewrite (IH Hs).
Qed.

Lemma trimEnd_app_ws t after :
  Js.all Js.is_ws after = true → Spec.ends_with Js.is_ws t = false →
  Js.trimEnd (t +:+ after) = t.
Proof.
  intros Hafter. induction t as [|c t IH].
  - intros _. rewrite append_nil_l. by apply trimEnd_all_ws.
  - intros Hend. rewrite append_cons.
    change (Js.trimEnd (String c (t +:+ after))) with
      (if Js.is_ws c && Js.is_empty (Js.trimEnd (t +:+ after)) then ""
       else String c (Js.trimEnd (t +:+ after))).
    destruct t as [|d t].
    + rewrite append_nil_l, (trimEnd_all_ws _ Hafter).
      simpl in Hend. by rewrite Hend.
    + rewrite (IH Hend). simpl. by rewrite andb_false_r.
Qed.

Lemma trimmed_unique raw t : Spec.trimmed raw t → t = Js.trim raw.
Proof.
  intros (before & after & -> & Hb & Ha & Hs & He).
  unfold Js.trim, Js.trimStart.
  rewrite dropWhile_app_run by done.
  destruct t as [|c t].
  - sapp.
    assert (Js.dropWhile Js.is_ws after = "") as ->; [| done].
    clear -Ha. induction after as [|c s IH]; simpl in *; [done |].
    apply andb_true_iff in Ha as [-> Hs]. auto.
  - rewrite dropWhile_fixed by (sapp; done).
    by rewrite trimEnd_app_ws.
Qed.

Lemma stripped_unique t cleaned :
  Spec.stripped t cleaned → cleaned = Js.dropWhile Js.is_sep t.
Proof.
  intros (run & -> & Hrun & Hstart).
  by rewrite dropWhile_app_run, dropWhile_fixed.
Qed.

Lemma normalize_unique raw out :
  Spec.normalize raw out → out = V1.normalizeId raw.
Proof.
  intros (t & cleaned & Ht & Hc & Hdigits & Hother).
  apply trimmed_unique in Ht as ->. apply stripped_unique in Hc as ->.
  unfold V1.normalizeId.
  destruct (Js.is_empty raw) eqn:Hraw.
  - apply is_empty_true in Hraw as ->. apply Hother. by intros [? _].
  - destruct (negb _ && _) eqn:E.
    + apply entirely_digits_test in E.
      destruct (Hdigits E) as (zeros & rest & Hz & Hzeros & Hstart & ->).
      rewrite Hz, dropWhile_app_run, dropWhile_fixed by done.
      destruct rest; simpl Js.is_empty; by case_decide.
    + apply Hother. intros Hd. apply entirely_digits_test in Hd. congruence.
Qed.

(** Separator characters in front of an identifier do not change what it
    normalises to. *)
Lemma normalizeId_dropWhile_sep s :
  V1.normalizeId (Js.dropWhile Js.is_sep s) = V1.normalizeId s.
Proof.
  assert (Js.dropWhile Js.is_sep (Js.trim (Js.dropWhile Js.is_sep s))
          = Js.dropWhile Js.is_sep (Js.trim s)) as Hclean.
  { unfold Js.trim, Js.trimStart.
    rewrite !dropWhile_sep_trimEnd, dropWhile_ws_sep, dropWhile_sep_ws.
    by rewrite dropWhile_idem. }
  unfold V1.normalizeId. rewrite Hclean.
  destruct (Js.is_empty s) eqn:Hs.
  { apply is_empty_true in Hs as ->. done. }
  destruct (Js.is_empty (Js.dropWhile Js.is_sep s)) eqn:Hd; [| done].
  apply is_empty_true in Hd.
  assert (Js.dropWhile Js.is_sep (Js.trim s) = "") as ->; [| done].
  unfold Js.trim, Js.trimStart.
  by rewrite dropWhile_sep_trimEnd, dropWhile_sep_ws, Hd.
Qed.

End NormalizeFacts.

(** C7. For every input string, [normalizeId] returns what the contract
    describes, and nothing else fits the contract: whitespace trimmed, the
    leading run of [-], [_], [.] and whitespace stripped, then a remainder
    made of digits only loses its leading zeros (all zeros give "0") and
    any other remainder is returned as it is.  In particular "007" gives
    "7", "000" gives "0" and "A-01" stays "A-01". *)
Theorem normalizeId_contract :
  (∀ raw out, Spec.normalize raw out ↔ out = V1.normalizeId raw)
  ∧ V1.normalizeId "007" = "7"
  ∧ V1.normalizeId "000" = "0"
  ∧ V1.normalizeId "A-01" = "A-01".
Proof.
  split; [| by split_and!].
  intros raw out. split.
  - apply NormalizeFacts.normalize_unique.
  - intros ->. apply NormalizeFacts.normalizeId_meets_contract.
Qed.

(** ** The Filename Parser *)

Module ParseFacts.
Import JsFacts NormalizeFacts.

Lemma indexOf_first_index c s :
  Js.indexOf c s =
  match Spec.first_index (λ d, Ascii.eqb d c) s with
  | Some n => Z.of_nat n
  | None => (-1)%Z
  end.
Proof.
  induction s as [|d s IH]; simpl; [done |].
  destruct (Ascii.eqb d c); [done |]. rewrite IH.
  destruct (Spec.first_index _ s) as [n|]; simpl; [| done].
  destruct (Z.ltb_spec (Z.of_nat n) 0); lia.
Qed.

(** The first index of a union of two classes is the smaller of the two
    first indices that exist. *)
Lemma first_index_or p q s :
  Spec.first_index (λ c, p c || q c) s
  = Spec.smaller (Spec.first_index p s) (Spec.first_index q s).
Proof.
  induction s as [|c s IH]; simpl; [done |].
  destruct (p c), (q c); simpl; try done.
  - by destruct (Spec.first_index q s).
  - by destruct (Spec.first_index p s).
  - rewrite IH. by destruct (Spec.first_index p s), (Spec.first_index q s).
Qed.

Lemma sorted_indices_head (a b : option nat) :
  let z o := match o with Some n => Z.of_nat n | None => (-1)%Z end in
  head (merge_sort Z.le (filter (λ i, (0 ≤ i)%Z) [z a; z b]))
  = Z.of_nat <$> Spec.smaller a b.
Proof.
  destruct a as [x|], b as [y|]; cbv [filter list_filter];
    repeat case_decide; try lia; unfold merge_sort; cbn.
  - case_decide; simpl; f_equal; lia.
  - done.
  - done.
  - done.
Qed.

Lemma separatorIndices_head base :
  head (V1.separatorIndices base) = Z.of_nat <$> Spec.first_index Spec.is_split base.
Proof.
  unfold V1.separatorIndices. rewrite !indexOf_first_index.
  rewrite (sorted_indices_head
             (Spec.first_index (λ d, Ascii.eqb d "_") base)
             (Spec.first_index (λ d, Ascii.eqb d "-") base)).
  by rewrite <- first_index_or.
Qed.

Lemma first_index_none s :
  Spec.first_index Spec.is_split s = None →
  Spec.has_separator s = false ∧ Spec.before_separator s = s
  ∧ Spec.after_separator s = "".
Proof.
  induction s as [|c s IH]; simpl; [done |].
  destruct (Spec.is_split c); [done |].
  destruct (Spec.first_index Spec.is_split s); [done |].
  intros _. destruct IH as (-> & -> & ->); done.
Qed.

Lemma first_index_some s n :
  Spec.first_index Spec.is_split s = Some n →
  ∃ c, Spec.is_split c = true ∧ Spec.has_separator s = true
       ∧ Js.take n s = Spec.before_separator s
       ∧ Js.drop n s = String c (Spec.after_separator s).
Proof.
  revert n. induction s as [|c s IH]; intros n; simpl; [done |].
  destruct (Spec.is_split c) eqn:Hc.
  - intros [= <-]. by exists c.
  - destruct (Spec.first_index Spec.is_split s) as [m|]; [| done].
    intros [= <-]. destruct (IH m eq_refl) as (d & Hd & Hs & Ht & Hr).
    exists d. simpl. by rewrite Ht, Hr.
Qed.

Lemma split_is_sep c : Spec.is_split c = true → Js.is_sep c = true.
Proof.
  unfold Spec.is_split, Js.is_sep.
  intros [->| ->]%orb_true_iff; simpl; by rewrite ?orb_true_r.
Qed.

Lemma drop_length s : Js.drop (String.length s) s = "".
Proof. induction s as [|c s IH]; simpl; done. Qed.

Lemma take_length n s c r :
  Js.drop n s = String c r → String.length (Js.take n s) = n.
Proof.
  revert s. induction n as [|n IH]; intros [|d s]; simpl; try done.
  intros H. by rewrite (IH _ H).
Qed.

Lemma drop_succ n s c r : Js.drop n s = String c r → Js.drop (S n) s = r.
Proof.
  revert s. induction n as [|n IH]; intros s H.
  - simpl in H. by subst s.
  - destruct s as [|d s]; [done |]. simpl in H.
    change (Js.drop (S (S n)) (String d s)) with (Js.drop (S n) s). by apply IH.
Qed.

Lemma or_else_cases x d :
  (x = "" ∧ Js.or_else x d = d) ∨ (x ≠ "" ∧ Js.or_else x d = x).
Proof. destruct x; [by left | by right]. Qed.

(** What the current revision's model parser returns, for every filename. *)
Lemma parseModelPrefix_eq filename :
  V1.parseModelPrefix filename =
  Js.or_else (Spec.before_separator (Js.stripExtension filename)) "model".
Proof.
  unfold V1.parseModelPrefix.
  pose proof (separatorIndices_head (Js.stripExtension filename)) as Hh.
  destruct (Spec.first_index Spec.is_split _) as [n|] eqn:Hn.
  - destruct (V1.separatorIndices _) as [|i0 l]; [done |].
    simpl in Hh. injection Hh as ->.
    destruct (first_index_some _ _ Hn) as (c & _ & _ & Ht & _).
    unfold Js.slice_to. by rewrite Nat2Z.id, Ht.
  - destruct (V1.separatorIndices _) as [|i0 l]; [| done].
    by destruct (first_index_none _ Hn) as (_ & -> & _).
Qed.

Lemma or_else_dropWhile_sep base :
  V1.normalizeId (Js.or_else (Js.dropWhile Js.is_sep base) base) = V1.normalizeId base.
Proof.
  unfold Js.or_else. destruct (Js.is_empty _); [done |].
  apply normalizeId_dropWhile_sep.
Qed.

Lemma parseIdSuffix_eq filename :
  V1.parseIdSuffix filename (Some (V1.parseModelPrefix filename)) =
  V1.normalizeId (Spec.residual (Js.stripExtension filename)).
Proof.
  rewrite parseModelPrefix_eq. unfold V1.parseIdSuffix, Spec.residual.
  set (base := Js.stripExtension filename).
  pose proof (separatorIndices_head base) as Hh.
  destruct (Spec.first_index Spec.is_split base) as [n|] eqn:Hn.
  - destruct (V1.separatorIndices base) as [|i0 l]; [done |].
    simpl in Hh. injection Hh as ->.
    destruct (first_index_some _ _ Hn) as (c & Hc & _ & Ht & Hd).
    assert (Js.dropWhile Js.is_sep (Js.drop n base)
            = Js.dropWhile Js.is_sep (Spec.after_separator base)) as Hrest.
    { rewrite Hd. simpl. by rewrite (split_is_sep _ Hc). }
    assert (Js.slice_from base (Z.of_nat n + 1) = Spec.after_separator base) as Helse.
    { unfold Js.slice_from. replace (Z.to_nat (Z.of_nat n + 1)) with (S n) by lia.
      by apply (drop_succ _ _ c). }
    destruct (Z.leb_spec 0 (Z.of_nat n)); [| lia].
    destruct (truthy _ && _) eqn:Hbranch; [| by rewrite Helse].
    apply andb_true_iff in Hbranch as [Htruthy Hprefix].
    destruct (or_else_cases (Spec.before_separator base) "model") as [[Hb E]|[Hb E]];
      rewrite E in *; clear E.
    + (* the label fell back to "model": the base name starts with the
         separator, so it does not start with that label *)
      exfalso. rewrite <- Ht in Hb.
      destruct n; [| by destruct base].
      simpl in Hd. rewrite Hd in Hprefix.
      apply orb_true_iff in Hc as [Hc|Hc]; apply Ascii.eqb_eq in Hc; subst c;
        by vm_compute in Hprefix.
    + change (key_of (Some (Spec.before_separator base)))
        with (Spec.before_separator base).
      unfold Js.slice_from. rewrite Nat2Z.id.
      rewrite <- Ht, (take_length _ _ _ _ Hd). by rewrite Hrest.
  - destruct (V1.separatorIndices base) as [|i0 l]; [| done].
    destruct (first_index_none _ Hn) as (_ & Hb & Ha). rewrite Hb, Ha.
    simpl (Js.dropWhile Js.is_sep ""). simpl (0 <=? -1)%Z.
    destruct (truthy _ && _) eqn:Hbranch.
    + apply andb_true_iff in Hbranch as [Htruthy Hprefix].
      destruct (or_else_cases base "model") as [[Hbase E]|[Hbase E]];
        rewrite E in *; clear E.
      * rewrite Hbase in Hprefix. by vm_compute in Hprefix.
      * change (key_of (Some base)) with base.
        unfold Js.slice_from. by rewrite Nat2Z.id, drop_length.
    + rewrite or_else_dropWhile_sep. unfold Js.or_else. simpl.
      by destruct (Js.is_empty base) eqn:Hbase; [apply is_empty_true in Hbase as ->|].
Qed.

End ParseFacts.

(** C6 fails as stated: a base name that starts with its separator has an
    empty text before it, and the parser answers the label "model". *)
Lemma parse_leading_separator_counterexample :
  Spec.has_separator "_001.png" = true
  ∧ ¬ Spec.splits_at_first_separator
        V1.parseModelPrefix V1.parseIdSuffix V1.normalizeId "_001.png".
Proof.
  split; [reflexivity |].
  intros [Hmodel _]. vm_compute in Hmodel. discriminate.
Qed.

(** C6, amended.  For every filename whose base name (extension removed)
    holds a [_] or [-], the model label is the text before the first of
    them, or "model" when that text is empty; the id is the normalised
    remainder after it, or the normalised base name when the remainder
    holds nothing but separator characters. *)
Theorem parse_splits_at_first_separator (filename : string) :
  Spec.has_separator (Js.stripExtension filename) = true →
  V1.parseModelPrefix filename =
    (if decide (Spec.before_separator (Js.stripExtension filename) = "")
     then "model" else Spec.before_separator (Js.stripExtension filename))
  ∧ V1.parseIdSuffix filename (Some (V1.parseModelPrefix filename)) =
    (if decide (Js.dropWhile Js.is_sep
                  (Spec.after_separator (Js.stripExtension filename)) = "")
     then V1.normalizeId (Js.stripExtension filename)
     else V1.normalizeId (Spec.after_separator (Js.stripExtension filename))).
Proof.
  intros _. split.
  - rewrite ParseFacts.parseModelPrefix_eq.
    destruct (ParseFacts.or_else_cases
                (Spec.before_separator (Js.stripExtension filename)) "model")
      as [[Hb ->]|[Hb ->]]; by case_decide.
  - rewrite ParseFacts.parseIdSuffix_eq. unfold Spec.residual.
    destruct (ParseFacts.or_else_cases
                (Js.dropWhile Js.is_sep
                   (Spec.after_separator (Js.stripExtension filename)))
                (Js.stripExtension filename))
      as [[Hb ->]|[Hb ->]]; case_decide; try done.
    apply NormalizeFacts.normalizeId_dropWhile_sep.
Qed.

Lemma parse_splits_at_first_separator_witness :
  Spec.has_separator (Js.stripExtension "alpha_001.png") = true
  ∧ V1.parseModelPrefix "alpha_001.png" = "alpha"
  ∧ V1.parseIdSuffix "alpha_001.png" (Some (V1.parseModelPrefix "alpha_001.png")) = "1".
Proof.
  split; [reflexivity |].
  exact (parse_splits_at_first_separator "alpha_001.png" eq_refl).
Defined.

(** The earlier revision took the label from the split with the fewer
    parts and did not normalise the id. *)
Example earlier_parser_on_underscore :
  V2.parseModelPrefix "alpha_001.png" = "alpha_001"
  ∧ V2.parseIdSuffix "alpha_001.png" (Some (V2.parseModelPrefix "alpha_001.png"))
    = "alpha_001".
Proof. by vm_compute. Qed.

(** ** The Image Catalog and the Pair Matcher *)

Module CatalogFacts.

Lemma distinct_elem seen xs x :
  x ∈ distinct seen xs ↔ x ∈ xs ∧ x ∉ seen.
Proof.
  revert seen. induction xs as [|y xs IH]; intros seen; simpl.
  - set_solver.
  - case_decide as Hy.
    + rewrite IH. set_solver.
    + rewrite elem_of_cons, IH. rewrite !elem_of_cons.
      destruct (decide (x = y)) as [->|]; set_solver.
Qed.

Lemma distinct_NoDup seen xs : NoDup (distinct seen xs).
Proof.
  revert seen. induction xs as [|y xs IH]; intros seen; simpl.
  - constructor.
  - case_decide; [apply IH |].
    constructor; [| apply IH]. rewrite distinct_elem. set_solver.
Qed.

Lemma models_distinct images A B : models images = [A; B] → A ≠ B.
Proof.
  unfold models. intros H.
  pose proof (distinct_NoDup [] (img_model <$> images)) as Hnd.
  destruct (distinct [] (img_model <$> images)) as [|a [|b l]]; simplify_eq/=.
  apply NoDup_cons in Hnd as [Hnd _]. set_solver.
Qed.

(** The number of distinct labels is the size of the set of labels. *)
Lemma distinct_length (xs : list string) :
  List.length (distinct [] xs) = size (list_to_set xs : gset string).
Proof.
  rewrite <- (size_list_to_set (C := gset string)) by apply distinct_NoDup.
  f_equal. apply set_eq. intros x.
  rewrite !elem_of_list_to_set, distinct_elem. set_solver.
Qed.

Lemma ids_of_cons m img images :
  Spec.ids_of m (img :: images) =
  if decide (img_model img = m) then {[img_id img]} ∪ Spec.ids_of m images
  else Spec.ids_of m images.
Proof.
  unfold Spec.ids_of. rewrite filter_cons. by case_decide.
Qed.

Lemma table_of_empty m : Spec.table_of m ∅.
Proof. intros k v. by rewrite lookup_empty. Qed.

Lemma table_of_insert m t img :
  Spec.table_of m t → img_model img = m → Spec.table_of m (<[img_id img := img]> t).
Proof.
  intros Ht Hm k v. rewrite lookup_insert. case_decide; [| apply Ht].
  intros [= <-]. by subst.
Qed.

(** What an assignment does to the own properties and to the prototype. *)
Lemma plain_not_proto k : plain k → String.eqb k "__proto__" = false.
Proof. unfold plain, inherited. by intros [? _]%orb_false_iff. Qed.

Lemma plain_no_method k : plain k → assoc k prototype_methods = None.
Proof.
  unfold plain, inherited. intros [_ H]%orb_false_iff.
  apply bool_decide_eq_false in H.
  destruct (assoc k prototype_methods); [| done]. destruct H. by eexists.
Qed.

Lemma table_set_own k img t :
  own (table_set k img t)
  = if String.eqb k "__proto__" then own t else <[k := img]> (own t).
Proof. unfold table_set. by destruct (String.eqb k "__proto__"). Qed.

Lemma table_set_plain k img t :
  plain k →
  table_set k img t = {| own := <[k := img]> (own t); proto := proto t |}.
Proof. intros Hk. unfold table_set. by rewrite (plain_not_proto k Hk). Qed.

Lemma table_of_set m t img :
  Spec.table_of m (own t) → img_model img = m →
  Spec.table_of m (own (table_set (img_id img) img t)).
Proof.
  intros Ht Hm. rewrite table_set_own.
  destruct (String.eqb (img_id img) "__proto__"); [done |].
  by apply table_of_insert.
Qed.

Lemma build_maps_tables A B images a b :
  Spec.table_of A (own a) → Spec.table_of B (own b) →
  Spec.table_of A (own (build_maps A B images (a, b)).1)
  ∧ Spec.table_of B (own (build_maps A B images (a, b)).2).
Proof.
  revert a b. induction images as [|img images IH]; intros a b Ha Hb; simpl.
  - done.
  - repeat case_decide; apply IH; auto using table_of_set.
Qed.

(** With plain ids no assignment reaches a prototype, and the own
    properties of the two tables are the ids of the two models. *)
Lemma build_maps_plain A B images a b :
  A ≠ B → plain_ids images →
  dom (own (build_maps A B images (a, b)).1) = dom (own a) ∪ Spec.ids_of A images
  ∧ dom (own (build_maps A B images (a, b)).2) = dom (own b) ∪ Spec.ids_of B images
  ∧ proto (build_maps A B images (a, b)).1 = proto a
  ∧ proto (build_maps A B images (a, b)).2 = proto b.
Proof.
  intros HAB Hplain. revert a b.
  induction Hplain as [|img images Himg _ IH]; intros a b; simpl.
  - unfold Spec.ids_of. simpl. set_solver.
  - rewrite !ids_of_cons. rewrite (table_set_plain _ img a Himg).
    rewrite (table_set_plain _ img b Himg).
    repeat case_decide; try congruence;
      destruct (IH {| own := <[img_id img:=img]> (own a); proto := proto a |} b)
        as (E1 & E2 & E3 & E4);
      destruct (IH a {| own := <[img_id img:=img]> (own b); proto := proto b |})
        as (E5 & E6 & E7 & E8);
      destruct (IH a b) as (E9 & E10 & E11 & E12);
      rewrite ?E1, ?E2, ?E3, ?E4, ?E5, ?E6, ?E7, ?E8; simpl;
      rewrite ?dom_insert_L; split_and!; try done; set_solver.
Qed.

(** A read of a plain key from a table with no prototype of its own finds
    an own property or nothing. *)
Lemma plain_get k t :
  plain k → proto t = None →
  table_get k t = from_option image undefined (own t !! k).
Proof.
  intros Hk Hp. unfold table_get. rewrite Hp.
  destruct (own t !! k); [done |]. unfold object_property.
  by rewrite (plain_not_proto k Hk), (plain_no_method k Hk).
Qed.

Lemma table_keys_elem t k : k ∈ table_keys t ↔ k ∈ dom (own t).
Proof.
  unfold table_keys. rewrite elem_of_dom, list_elem_of_fmap. split.
  - intros ([k' v] & -> & Hin). apply elem_of_map_to_list in Hin. by exists v.
  - intros [v Hv]. exists (k, v). by rewrite elem_of_map_to_list.
Qed.

Lemma commonIds_elem (map1 map2 : Table) k :
  k ∈ commonIds map1 map2
  ↔ k ∈ dom (own map1) ∧ truthy_value (table_get k map2) = true.
Proof.
  unfold commonIds. rewrite list_elem_of_filter, table_keys_elem. tauto.
Qed.

Lemma commonIds_NoDup (map1 map2 : Table) : NoDup (commonIds map1 map2).
Proof. apply NoDup_filter, NoDup_fst_map_to_list. Qed.

(** The matched ids of a catalog with the two labels [A] and [B], when
    its ids are plain. *)
Lemma matched_ids A B images :
  A ≠ B → plain_ids images →
  list_to_set (commonIds (build_maps A B images (empty_table, empty_table)).1
                         (build_maps A B images (empty_table, empty_table)).2)
  = Spec.ids_of A images ∩ Spec.ids_of B images.
Proof.
  intros HAB Hplain.
  destruct (build_maps_plain A B images empty_table empty_table HAB Hplain)
    as (D1 & D2 & _ & P2).
  simpl in D1, D2, P2. rewrite dom_empty_L, union_empty_l_L in D1, D2.
  apply set_eq. intros k.
  rewrite elem_of_list_to_set, commonIds_elem, elem_of_intersection, D1.
  assert (k ∈ Spec.ids_of A images → plain k) as Hk.
  { unfold Spec.ids_of. rewrite elem_of_list_to_set.
    intros (i & -> & Hi%list_elem_of_filter)%list_elem_of_fmap.
    destruct Hi as [_ Hi]. by apply (proj1 (Forall_forall _ _) Hplain). }
  split; intros [HA HB]; (split; [done |]); specialize (Hk HA).
  - rewrite (plain_get k _ Hk P2) in HB. rewrite <- D2, elem_of_dom.
    by destruct (own _ !! k).
  - rewrite (plain_get k _ Hk P2). rewrite <- D2, elem_of_dom in HB.
    by destruct HB as [v ->].
Qed.

(** The shuffle of the current revision returns a permutation. *)
Lemma swap_perm {T} i j (a : list T) : V1.swap i j a ≡ₚ a.
Proof.
  unfold V1.swap.
  destruct (a !! i) as [x|] eqn:Hi; [| done].
  destruct (a !! j) as [y|] eqn:Hj; [| done].
  by apply Permutation_insert_swap.
Qed.

Lemma shuffle_loop_perm {T} i (a : list T) g : (V1.shuffle_loop i a g).1 ≡ₚ a.
Proof.
  revert a g. induction i as [|i IH]; intros a g; simpl; [done |].
  rewrite IH. apply swap_perm.
Qed.

Lemma shuffleArray_perm {T} (items : list T) g : (V1.shuffleArray items g).1 ≡ₚ items.
Proof. apply shuffle_loop_perm. Qed.

End CatalogFacts.

(** ** Session start *)

Module StartFacts.
Import CatalogFacts.

Lemma models_cases images :
  models images = []
  ∨ (∃ A, models images = [A])
  ∨ (∃ A B, models images = [A; B]).
Proof.
  unfold models. destruct (distinct [] (img_model <$> images)) as [|a [|b l]];
    simpl; eauto.
Qed.

Lemma truthy_some s : truthy (Some s) = true ↔ s ≠ "".
Proof. simpl. by rewrite negb_true_iff, JsFacts.is_empty_false. Qed.

Lemma matched_NoDup A B images : NoDup (matched A B images).
Proof. apply commonIds_NoDup. Qed.

Lemma matched_set A B images :
  A ≠ B → plain_ids images →
  list_to_set (matched A B images)
  = Spec.ids_of A images ∩ Spec.ids_of B images.
Proof. apply matched_ids. Qed.

Lemma matched_length A B images :
  A ≠ B → plain_ids images →
  List.length (matched A B images)
  = size (Spec.ids_of A images ∩ Spec.ids_of B images).
Proof.
  intros HAB Hplain. rewrite <- (matched_set A B images HAB Hplain).
  symmetry. apply size_list_to_set, commonIds_NoDup.
Qed.

Lemma matched_nil A B images :
  A ≠ B → plain_ids images →
  matched A B images = [] ↔ Spec.ids_of A images ∩ Spec.ids_of B images = ∅.
Proof.
  intros HAB Hplain. rewrite <- (matched_set A B images HAB Hplain).
  split; [by intros -> |].
  destruct (matched A B images) as [|k l]; [done |]. set_solver.
Qed.

Lemma tables_of A B images :
  Spec.table_of A (own (tables A B images).1)
  ∧ Spec.table_of B (own (tables A B images).2).
Proof. apply build_maps_tables; apply table_of_empty. Qed.

(** With plain ids, a matched id is an own property of both tables, and
    that is what both reads return. *)
Lemma matched_in_tables A B images k :
  A ≠ B → plain_ids images → k ∈ matched A B images →
  ∃ a b, table_get k (tables A B images).1 = image a
         ∧ table_get k (tables A B images).2 = image b
         ∧ img_model a = A ∧ img_model b = B ∧ img_id a = k ∧ img_id b = k.
Proof.
  intros HAB Hplain Hk.
  assert (k ∈ Spec.ids_of A images ∩ Spec.ids_of B images) as Hin.
  { rewrite <- (matched_set A B images HAB Hplain). by apply elem_of_list_to_set. }
  apply elem_of_intersection in Hin as [HA HB].
  assert (plain k) as Hplain_k.
  { revert HA. unfold Spec.ids_of. rewrite elem_of_list_to_set.
    intros (i & -> & Hi%list_elem_of_filter)%list_elem_of_fmap.
    destruct Hi as [_ Hi]. by apply (proj1 (Forall_forall _ _) Hplain). }
  destruct (build_maps_plain A B images empty_table empty_table HAB Hplain)
    as (D1 & D2 & P1 & P2).
  fold (tables A B images) in D1, D2, P1, P2. simpl in D1, D2, P1, P2.
  rewrite dom_empty_L, union_empty_l_L in D1, D2.
  rewrite <- D1, elem_of_dom in HA. rewrite <- D2, elem_of_dom in HB.
  destruct HA as [a Ha], HB as [b Hb].
  destruct (tables_of A B images) as [T1 T2].
  destruct (T1 _ _ Ha) as [? ?], (T2 _ _ Hb) as [? ?].
  exists a, b. rewrite !plain_get, Ha, Hb by done. by split_and!.
Qed.

(** The three ways [startArena] can go. *)
Lemma startArena_cases g st :
  (V1.startArena g st =
     (st, [toast_error
             "Please provide images from exactly two models (use filename prefixes)."])
   ∧ ¬ (∃ A B, models (V1.images st) = [A; B] ∧ A ≠ "" ∧ B ≠ ""))
  ∨ (∃ A B, models (V1.images st) = [A; B] ∧ A ≠ "" ∧ B ≠ ""
      ∧ matched A B (V1.images st) = []
      ∧ V1.startArena g st =
          (st, [toast_error
                  "No matching pairs found (match by id after prefix, e.g., A_001 with B_001)."]))
  ∨ (∃ A B, models (V1.images st) = [A; B] ∧ A ≠ "" ∧ B ≠ ""
      ∧ matched A B (V1.images st) ≠ []
      ∧ V1.startArena g st = (started1 g A B st, [])).
Proof.
  unfold V1.startArena, started1, matched, tables.
  destruct (models_cases (V1.images st)) as [E|[[A E]|(A & B & E)]]; rewrite E.
  - left. split; [done |]. by intros (? & ? & ? & _).
  - left. simpl. rewrite orb_true_r. split; [done |]. by intros (? & ? & ? & _).
  - simpl. destruct (Js.is_empty A) eqn:HA; simpl.
    { left. split; [done |]. intros (? & ? & [= <- <-] & HA' & _).
      by apply JsFacts.is_empty_true in HA. }
    destruct (Js.is_empty B) eqn:HB; simpl.
    { left. split; [done |]. intros (? & ? & [= <- <-] & _ & HB').
      by apply JsFacts.is_empty_true in HB. }
    apply JsFacts.is_empty_false in HA, HB.
    right. destruct (build_maps A B (V1.images st) (empty_table, empty_table))
      as [map1 map2] eqn:Hmaps.
    simpl. destruct (commonIds map1 map2) as [|k l] eqn:Hc; simpl.
    + left. exists A, B. rewrite Hmaps. simpl. by rewrite Hc.
    + right. exists A, B. rewrite Hmaps. simpl. rewrite Hc.
      split_and!; try done.
      destruct (V1.shuffleArray (k :: l) g) as [order g']. simpl.
      by destruct (V1.make_pairs map1 map2 order g') as [newPairs g''].
Qed.

Lemma make_pairs_from_tables map1 map2 order g :
  Forall (λ p, ∃ k, k ∈ order
                    ∧ ((left p = table_get k map1 ∧ right p = table_get k map2)
                       ∨ (right p = table_get k map1 ∧ left p = table_get k map2)))
    (V1.make_pairs map1 map2 order g).1.
Proof.
  revert g. induction order as [|k order IH]; intros g; simpl; [constructor |].
  specialize (IH (λ n, g (S n))).
  destruct (V1.make_pairs map1 map2 order _) as [ps g'].
  simpl. constructor.
  - exists k. split; [set_solver |]. destruct (below_half (g 0)); simpl; auto.
  - eapply Forall_impl; [exact IH |]. intros p (k' & ? & ?). exists k'. set_solver.
Qed.

Lemma make_pairs_length map1 map2 order g :
  List.length (V1.make_pairs map1 map2 order g).1 = List.length order.
Proof.
  revert g. induction order as [|k order IH]; intros g; simpl; [done |].
  specialize (IH (λ n, g (S n))).
  destruct (V1.make_pairs map1 map2 order _) as [ps g']. simpl in *. by rewrite IH.
Qed.

(** What a read of a matched id returns makes a pair between the two
    models. *)
Lemma sides_between A B map1 map2 (p : Pair) k a b :
  table_get k map1 = image a → table_get k map2 = image b →
  img_model a = A → img_model b = B → img_id a = k → img_id b = k →
  (left p = table_get k map1 ∧ right p = table_get k map2)
  ∨ (right p = table_get k map1 ∧ left p = table_get k map2) →
  Spec.pair_between A B p.
Proof.
  intros Ea Eb HA HB Ha Hb Hsides. exists a, b. rewrite Ea, Eb in Hsides.
  split_and!; try done; [| congruence]. destruct Hsides as [[? ?]|[? ?]]; auto.
Qed.

Lemma started1_pairs_count g A B st :
  List.length (V1.pairs (started1 g A B st))
  = List.length (matched A B (V1.images st)).
Proof.
  unfold started1. simpl. by rewrite make_pairs_length, shuffleArray_perm.
Qed.

Lemma started1_pairs_length g A B st :
  A ≠ B → plain_ids (V1.images st) →
  List.length (V1.pairs (started1 g A B st))
  = size (Spec.ids_of A (V1.images st) ∩ Spec.ids_of B (V1.images st)).
Proof.
  intros HAB Hplain. by rewrite started1_pairs_count, matched_length.
Qed.

Lemma started1_between g A B st :
  A ≠ B → plain_ids (V1.images st) →
  Forall (Spec.pair_between A B) (V1.pairs (started1 g A B st)).
Proof.
  intros HAB Hplain. unfold started1. simpl.
  eapply Forall_impl; [apply make_pairs_from_tables |].
  intros p (k & Hk & Hsides). rewrite shuffleArray_perm in Hk.
  destruct (matched_in_tables A B _ k HAB Hplain Hk)
    as (a & b & Ea & Eb & HA & HB & Ha & Hb).
  exact (sides_between A B _ _ p k a b Ea Eb HA HB Ha Hb Hsides).
Qed.

Section EarlierRevision.

Variable random_sort : list string → Rng → list string * Rng.

Lemma startArena2_cases g st :
  (V2.startArena random_sort g st =
     (st, [toast_error
             "Please provide images from exactly two models (use filename prefixes)."])
   ∧ ¬ (∃ A B, models (V2.images st) = [A; B] ∧ A ≠ "" ∧ B ≠ ""))
  ∨ (∃ A B, models (V2.images st) = [A; B] ∧ A ≠ "" ∧ B ≠ ""
      ∧ matched A B (V2.images st) = []
      ∧ V2.startArena random_sort g st =
          (st, [toast_error
                  "No matching pairs found (match by id after prefix, e.g., A_001 with B_001)."]))
  ∨ (∃ A B, models (V2.images st) = [A; B] ∧ A ≠ "" ∧ B ≠ ""
      ∧ matched A B (V2.images st) ≠ []
      ∧ V2.startArena random_sort g st = (started2 random_sort g A B st, [])).
Proof.
  unfold V2.startArena, started2, matched, tables.
  destruct (models_cases (V2.images st)) as [E|[[A E]|(A & B & E)]]; rewrite E.
  - left. split; [done |]. by intros (? & ? & ? & _).
  - left. simpl. rewrite orb_true_r. split; [done |]. by intros (? & ? & ? & _).
  - simpl. destruct (Js.is_empty A) eqn:HA; simpl.
    { left. split; [done |]. intros (? & ? & [= <- <-] & HA' & _).
      by apply JsFacts.is_empty_true in HA. }
    destruct (Js.is_empty B) eqn:HB; simpl.
    { left. split; [done |]. intros (? & ? & [= <- <-] & _ & HB').
      by apply JsFacts.is_empty_true in HB. }
    apply JsFacts.is_empty_false in HA, HB.
    right. destruct (build_maps A B (V2.images st) (empty_table, empty_table))
      as [map1 map2] eqn:Hmaps.
    simpl. destruct (commonIds map1 map2) as [|k l] eqn:Hc; simpl.
    + left. exists A, B. rewrite Hmaps. simpl. by rewrite Hc.
    + right. exists A, B. rewrite Hmaps. simpl. rewrite Hc.
      split_and!; try done.
      destruct (random_sort (k :: l) g) as [order g']. simpl.
      by destruct (V2.make_pairs map1 map2 _ 0 order g') as [newPairs g''].
Qed.

Lemma make_pairs2_from_tables map1 map2 maxRounds i order g :
  Forall (λ p, ∃ k, k ∈ order
                    ∧ ((left p = table_get k map1 ∧ right p = table_get k map2)
                       ∨ (right p = table_get k map1 ∧ left p = table_get k map2)))
    (V2.make_pairs map1 map2 maxRounds i order g).1.
Proof.
  revert i g. induction order as [|k order IH]; intros i g; simpl; [constructor |].
  destruct (Qlt_le_dec _ _); [| constructor].
  specialize (IH (S i) (λ n, g (S n))).
  destruct (V2.make_pairs map1 map2 maxRounds (S i) order _) as [ps g'].
  simpl. constructor.
  - exists k. split; [set_solver |]. destruct (below_half (g 0)); simpl; auto.
  - eapply Forall_impl; [exact IH |]. intros p (k' & ? & ?). exists k'. set_solver.
Qed.

(** How many pairs the loop builds: it goes on while the index is below
    [maxRounds] and ids are left. *)
Lemma make_pairs2_count map1 map2 maxRounds i order g :
  let n := List.length (V2.make_pairs map1 map2 maxRounds i order g).1 in
  (n ≤ List.length order)%nat
  ∧ (n = 0 ∨ (inject_Z (Z.of_nat (i + n - 1)) < maxRounds)%Q)
  ∧ ((n < List.length order)%nat → (maxRounds <= inject_Z (Z.of_nat (i + n)))%Q).
Proof.
  revert i g. induction order as [|k order IH]; intros i g; simpl.
  - split_and!; [lia | by left | lia].
  - destruct (Qlt_le_dec _ _) as [Hlt | Hle]; simpl.
    + specialize (IH (S i) (λ n, g (S n))).
      destruct (V2.make_pairs map1 map2 maxRounds (S i) order _) as [ps g'].
      simpl in *. destruct IH as (Hlen & Hlast & Hstop). split_and!.
      * lia.
      * right. destruct Hlast as [-> | Hlast].
        -- by replace (i + 1 - 1) with i by lia.
        -- by replace (i + S (List.length ps) - 1)
             with (S i + List.length ps - 1) by lia.
      * intros H. replace (i + S (List.length ps)) with (S i + List.length ps) by lia.
        apply Hstop. lia.
    + split_and!; [lia | by left |]. intros _. by rewrite Nat.add_0_r.
Qed.

(** With a whole number of rounds asked for, that is the smaller of the
    rounds and the ids. *)
Lemma make_pairs2_length map1 map2 rounds cap order g :
  (rounds == inject_Z (Z.of_nat cap))%Q →
  List.length
    (V2.make_pairs map1 map2
       (V2.number_min rounds (inject_Z (Z.of_nat (List.length order)))) 0 order g).1
  = Nat.min cap (List.length order).
Proof.
  intros Hwhole.
  set (maxRounds := V2.number_min rounds (inject_Z (Z.of_nat (List.length order)))).
  assert (maxRounds == inject_Z (Z.of_nat (Nat.min cap (List.length order))))%Q
    as Hmax.
  { unfold maxRounds, V2.number_min. destruct (Qlt_le_dec _ _) as [H | H].
    - rewrite Hwhole in H. rewrite <- Zlt_Qlt in H.
      by replace (Nat.min cap (List.length order)) with (List.length order) by lia.
    - rewrite Hwhole in H |- *. rewrite <- Zle_Qle in H.
      by replace (Nat.min cap (List.length order)) with cap by lia. }
  destruct (make_pairs2_count map1 map2 maxRounds 0 order g) as (Hlen & Hlast & Hstop).
  set (n := List.length (V2.make_pairs map1 map2 maxRounds 0 order g).1) in *.
  simpl in Hlast, Hstop.
  assert (n ≤ Nat.min cap (List.length order))%nat.
  { destruct Hlast as [-> | Hlast]; [lia |].
    rewrite Hmax in Hlast. rewrite <- Zlt_Qlt in Hlast. lia. }
  assert (Nat.min cap (List.length order) ≤ n)%nat; [| lia].
  destruct (decide (n < List.length order)%nat) as [Hn | Hn]; [| lia].
  specialize (Hstop Hn). rewrite Hmax in Hstop. rewrite <- Zle_Qle in Hstop. lia.
Qed.

(** The loop builds at least one pair when it has an id and [maxRounds]
    is positive, and [Math.min] of two positive numbers is positive. *)
Lemma make_pairs2_nonempty map1 map2 maxRounds order g :
  (0 < maxRounds)%Q → order ≠ [] →
  (1 ≤ List.length (V2.make_pairs map1 map2 maxRounds 0 order g).1)%nat.
Proof.
  intros Hpos Hne. destruct order as [|k order]; [done |]. simpl.
  destruct (Qlt_le_dec _ _) as [Hlt | Hle].
  - destruct (V2.make_pairs _ _ _ 1 order _) as [ps g']. simpl. lia.
  - exfalso. apply Qle_not_lt in Hle. by apply Hle.
Qed.

Lemma number_min_le a b : (V2.number_min a b <= a)%Q.
Proof.
  unfold V2.number_min. destruct (Qlt_le_dec b a) as [H | H].
  - by apply Qlt_le_weak.
  - apply Qle_refl.
Qed.

Lemma number_min_pos a b : (0 < a)%Q → (0 < b)%Q → (0 < V2.number_min a b)%Q.
Proof. intros Ha Hb. unfold V2.number_min. by destruct (Qlt_le_dec b a). Qed.

Lemma number_max_ge a b : (a <= V2.number_max a b)%Q.
Proof.
  unfold V2.number_max. destruct (Qlt_le_dec a b) as [H | H].
  - by apply Qlt_le_weak.
  - apply Qle_refl.
Qed.

Hypothesis random_sort_perm : ∀ l g, (random_sort l g).1 ≡ₚ l.

Lemma started2_pairs_length g A B st cap :
  A ≠ B → plain_ids (V2.images st) →
  (V2.rounds st == inject_Z (Z.of_nat cap))%Q →
  List.length (V2.pairs (started2 random_sort g A B st))
  = Nat.min cap
      (size (Spec.ids_of A (V2.images st) ∩ Spec.ids_of B (V2.images st))).
Proof.
  intros HAB Hplain Hwhole. unfold started2. simpl.
  rewrite (make_pairs2_length _ _ _ cap) by done.
  by rewrite random_sort_perm, matched_length.
Qed.

Lemma started2_between g A B st :
  A ≠ B → plain_ids (V2.images st) →
  Forall (Spec.pair_between A B) (V2.pairs (started2 random_sort g A B st)).
Proof.
  intros HAB Hplain. unfold started2. simpl.
  eapply Forall_impl; [apply make_pairs2_from_tables |].
  intros p (k & Hk & Hsides). rewrite random_sort_perm in Hk.
  destruct (matched_in_tables A B _ k HAB Hplain Hk)
    as (a & b & Ea & Eb & HA & HB & Ha & Hb).
  exact (sides_between A B _ _ p k a b Ea Eb HA HB Ha Hb Hsides).
Qed.

End EarlierRevision.

End StartFacts.
(** ** Claims about session start *)

(** A pair between two models is a pair as the data model wants it. *)
Lemma pair_between_well_paired A B p :
  A ≠ B → Spec.pair_between A B p → Spec.well_paired p.
Proof.
  intros HAB (a & b & Hsides & HA & HB & Hid).
  unfold Spec.well_paired.
  destruct Hsides as [[-> ->]|[-> ->]]; split; simpl; congruence.
Qed.

(** C4, at the failing input.  The catalog holds [alpha_constructor.png]
    and [beta_001.png], two models with no id in common.  The table of
    [beta] is a plain object, so its read under [constructor] returns the
    function every object inherits; the id counts as matched and the
    session starts with one pair, whose right side is that function and no
    image: the pair has no second model and no shared id. *)
Theorem prototype_member_is_paired :
  models prototype_catalog = ["alpha"; "beta"]
  ∧ (V1.startArena (always 0) prototype_config).2 = []
  ∧ V1.pairs (V1.startArena (always 0) prototype_config).1
    = [{| left := image alpha_constructor; right := method "Object" |}]
  ∧ ¬ Forall Spec.well_paired (V1.pairs (V1.startArena (always 0) prototype_config).1)
  ∧ ¬ Forall (Spec.pair_between "alpha" "beta")
        (V1.pairs (V1.startArena (always 0) prototype_config).1).
Proof.
  assert (V1.pairs (V1.startArena (always 0) prototype_config).1
          = [{| left := image alpha_constructor; right := method "Object" |}]) as E.
  { by vm_compute. }
  split; [by vm_compute |]. split; [by vm_compute |]. split; [exact E |].
  rewrite E. split.
  - intros H. apply Forall_cons in H as [[_ Hid] _]. discriminate Hid.
  - intros H. apply Forall_cons in H as [H _].
    apply (pair_between_well_paired "alpha" "beta") in H as [_ Hid]; [| done].
    discriminate Hid.
Qed.

(** The same two reads are the only way to such a pair: when no id of the
    catalog names something a plain object inherits, every pair of a
    successful start holds one image of each of the two detected models,
    the two under the same id. *)
Lemma plain_pairs_join_the_two_models (g : Rng) (st : V1.State) :
  plain_ids (V1.images st) →
  (V1.startArena g st).2 = [] →
  ∃ A B, models (V1.images st) = [A; B]
         ∧ Forall (Spec.pair_between A B) (V1.pairs (V1.startArena g st).1)
         ∧ Forall Spec.well_paired (V1.pairs (V1.startArena g st).1).
Proof.
  intros Hplain Hok.
  destruct (StartFacts.startArena_cases g st)
    as [[E _]|[(A & B & _ & _ & _ & _ & E)|(A & B & Hm & _ & _ & _ & E)]];
    rewrite E in Hok |- *; try done.
  exists A, B. split; [done |].
  pose proof (CatalogFacts.models_distinct _ _ _ Hm) as HAB.
  pose proof (StartFacts.started1_between g A B st HAB Hplain) as Hb.
  split; [done |].
  eapply Forall_impl; [exact Hb |]. intros p. by apply pair_between_well_paired.
Qed.

Lemma earlier_plain_pairs_join_the_two_models random_sort (g : Rng) (st : V2.State) :
  (∀ l g', (random_sort l g').1 ≡ₚ l) →
  plain_ids (V2.images st) →
  (V2.startArena random_sort g st).2 = [] →
  ∃ A B, models (V2.images st) = [A; B]
         ∧ Forall (Spec.pair_between A B)
             (V2.pairs (V2.startArena random_sort g st).1)
         ∧ Forall Spec.well_paired (V2.pairs (V2.startArena random_sort g st).1).
Proof.
  intros Hperm Hplain Hok.
  destruct (StartFacts.startArena2_cases random_sort g st)
    as [[E _]|[(A & B & _ & _ & _ & _ & E)|(A & B & Hm & _ & _ & _ & E)]];
    rewrite E in Hok |- *; try done.
  exists A, B. split; [done |].
  pose proof (CatalogFacts.models_distinct _ _ _ Hm) as HAB.
  pose proof (StartFacts.started2_between random_sort Hperm g A B st HAB Hplain) as Hb.
  split; [done |].
  eapply Forall_impl; [exact Hb |]. intros p. by apply pair_between_well_paired.
Qed.

(** A draw from [0,1) scaled to [i + 1] slots lands on one of the first
    [i + 1] indices, so the shuffle only ever swaps inside the array. *)
Lemma scaled_floor_bound (r : Q) (i : nat) :
  (0 <= r)%Q → (r < 1)%Q → (scaled_floor r i ≤ i)%nat.
Proof.
  intros H0 H1. unfold scaled_floor.
  set (n := Z.of_nat (i + 1)).
  assert (inject_Z (Qfloor (r * inject_Z n)) < inject_Z n)%Q as Hlt.
  { eapply Qle_lt_trans; [apply Qfloor_le |].
    assert (r * inject_Z n < 1 * inject_Z n)%Q as Hscaled.
    { apply Qmult_lt_compat_r; [| done].
      unfold n. rewrite <- (Zlt_Qlt 0). lia. }
    by rewrite Qmult_1_l in Hscaled. }
  rewrite <- Zlt_Qlt in Hlt. subst n. lia.
Qed.

(** C5 fails as stated for the current revision, which uses all matched
    ids whatever its rounds setting: with one round planned and two ids
    shared, it builds two pairs. *)
Lemma rounds_setting_is_no_cap_counterexample :
  models (V1.images one_round_planned) = ["alpha"; "beta"]
  ∧ V1.rounds one_round_planned = 1
  ∧ ¬ Spec.capped_pair_count (V1.rounds one_round_planned)
        (Spec.ids_of "alpha" (V1.images one_round_planned)
         ∩ Spec.ids_of "beta" (V1.images one_round_planned))
        (V1.pairs (V1.startArena (always 0) one_round_planned).1).
Proof.
  split; [by vm_compute |]. split; [reflexivity |].
  unfold Spec.capped_pair_count. intros H. vm_compute in H. discriminate.
Qed.

(** C5, amended.  For a catalog whose two detected models are [A] and [B]
    and none of whose ids names something a plain object inherits, the ids
    matched at session start are exactly the ids the two models share.
    When there are any, the current revision builds one pair for each of
    them, whatever its rounds setting; the earlier revision, with a whole
    number of rounds asked for, builds one for each of them up to that
    number. *)
Theorem matched_ids_and_pair_count
    (random_sort : list string → Rng → list string * Rng) (g : Rng)
    (st1 : V1.State) (st2 : V2.State) (A B : string) (cap : nat) :
  models (V1.images st1) = [A; B] → V2.images st2 = V1.images st1 →
  A ≠ "" → B ≠ "" → plain_ids (V1.images st1) →
  (V2.rounds st2 == inject_Z (Z.of_nat cap))%Q →
  (∀ l g', (random_sort l g').1 ≡ₚ l) →
  list_to_set (matched A B (V1.images st1))
    = Spec.ids_of A (V1.images st1) ∩ Spec.ids_of B (V1.images st1)
  ∧ (Spec.ids_of A (V1.images st1) ∩ Spec.ids_of B (V1.images st1) ≠ ∅ →
     V1.startArena g st1 = (started1 g A B st1, [])
     ∧ V2.startArena random_sort g st2 = (started2 random_sort g A B st2, [])
     ∧ List.length (V1.pairs (V1.startArena g st1).1)
       = size (Spec.ids_of A (V1.images st1) ∩ Spec.ids_of B (V1.images st1))
     ∧ List.length (V2.pairs (V2.startArena random_sort g st2).1)
       = Nat.min cap
           (size (Spec.ids_of A (V1.images st1) ∩ Spec.ids_of B (V1.images st1)))).
Proof.
  intros Hm Himg HA HB Hplain Hwhole Hsort.
  pose proof (CatalogFacts.models_distinct _ _ _ Hm) as HAB.
  split; [by apply StartFacts.matched_set |].
  intros Hne.
  assert (matched A B (V1.images st1) ≠ []) as Hmatched.
  { by rewrite StartFacts.matched_nil. }
  assert (V1.startArena g st1 = (started1 g A B st1, [])) as E1.
  { destruct (StartFacts.startArena_cases g st1)
      as [[_ Hno]|[(A' & B' & Hm' & _ & _ & Hnil & _)|(A' & B' & Hm' & _ & _ & _ & E)]].
    - destruct Hno. by exists A, B.
    - rewrite Hm in Hm'. by simplify_eq.
    - rewrite Hm in Hm'. by simplify_eq. }
  assert (V2.startArena random_sort g st2 = (started2 random_sort g A B st2, [])) as E2.
  { destruct (StartFacts.startArena2_cases random_sort g st2)
      as [[_ Hno]|[(A' & B' & Hm' & _ & _ & Hnil & _)|(A' & B' & Hm' & _ & _ & _ & E)]];
      rewrite Himg in *.
    - destruct Hno. by exists A, B.
    - rewrite Hm in Hm'. by simplify_eq.
    - rewrite Hm in Hm'. by simplify_eq. }
  rewrite E1, E2. split_and!; try done.
  - by apply StartFacts.started1_pairs_length.
  - rewrite <- Himg. apply StartFacts.started2_pairs_length; try done.
    by rewrite Himg.
Qed.

Lemma matched_ids_and_pair_count_witness :
  models (V1.images shared_config1) = ["alpha"; "beta"]
  ∧ V2.images shared_config2 = V1.images shared_config1
  ∧ plain_ids (V1.images shared_config1)
  ∧ (V2.rounds shared_config2 == inject_Z (Z.of_nat 1))%Q
  ∧ (∀ l g', (keep_order l g').1 ≡ₚ l)
  ∧ Spec.ids_of "alpha" (V1.images shared_config1)
    ∩ Spec.ids_of "beta" (V1.images shared_config1) ≠ ∅
  ∧ list_to_set (matched "alpha" "beta" (V1.images shared_config1))
    = Spec.ids_of "alpha" (V1.images shared_config1)
      ∩ Spec.ids_of "beta" (V1.images shared_config1)
  ∧ List.length (V1.pairs (V1.startArena (always 0) shared_config1).1)
    = size (Spec.ids_of "alpha" (V1.images shared_config1)
            ∩ Spec.ids_of "beta" (V1.images shared_config1))
  ∧ List.length (V2.pairs (V2.startArena keep_order (always 0) shared_config2).1)
    = Nat.min 1
        (size (Spec.ids_of "alpha" (V1.images shared_config1)
               ∩ Spec.ids_of "beta" (V1.images shared_config1))).
Proof.
  assert (∀ l g', (keep_order l g').1 ≡ₚ l) as Hsort by done.
  assert (models (V1.images shared_config1) = ["alpha"; "beta"]) as Hm
    by (by vm_compute).
  assert (V2.images shared_config2 = V1.images shared_config1) as Himg by done.
  assert (plain_ids (V1.images shared_config1)) as Hplain.
  { repeat constructor. }
  assert (V2.rounds shared_config2 == inject_Z (Z.of_nat 1))%Q as Hwhole
    by reflexivity.
  assert (Spec.ids_of "alpha" (V1.images shared_config1)
          ∩ Spec.ids_of "beta" (V1.images shared_config1) ≠ ∅) as Hne.
  { intros H. apply (f_equal size) in H. by vm_compute in H. }
  destruct (matched_ids_and_pair_count keep_order (always 0) shared_config1
              shared_config2 "alpha" "beta" 1 Hm Himg)
    as [Hset Hcount]; [done | done | exact Hplain | exact Hwhole | exact Hsort |].
  destruct (Hcount Hne) as (_ & _ & H1 & H2).
  split_and!; [exact Hm | exact Himg | exact Hplain | exact Hwhole | exact Hsort
              | exact Hne | exact Hset | exact H1 | exact H2].
Defined.

(** The rounds field of the earlier revision takes fractions, and the
    pair loop runs while its index is below the number: with 1.5 rounds
    asked for and two matched ids it builds two pairs. *)
Example fractional_rounds_build_one_pair_more :
  let st := (V2.run keep_order
               [V2.images_loaded shared_catalog; V2.change_rounds (3 # 2);
                V2.click_start (always 0)] (V2.initial 20)).1 in
  V2.rounds st = (3 # 2)%Q ∧ V2.phase st = playing ∧ List.length (V2.pairs st) = 2.
Proof. by vm_compute. Qed.

(** Every path on which a start reports an error returns the state it was
    given: phase, catalog, pairs and vote log are untouched. *)
Lemma failing_start_changes_nothing (g : Rng) (st : V1.State) :
  (V1.startArena g st).2 ≠ [] →
  (V1.startArena g st).1 = st
  ∧ ∃ msg, (V1.startArena g st).2 = [toast_error msg].
Proof.
  intros Hfail.
  destruct (StartFacts.startArena_cases g st)
    as [[E _]|[(A & B & _ & _ & _ & _ & E)|(A & B & Hm & _ & _ & Hne & E)]];
    rewrite E in Hfail |- *; simpl; eauto. done.
Qed.

Lemma earlier_failing_start_changes_nothing random_sort (g : Rng) (st : V2.State) :
  (V2.startArena random_sort g st).2 ≠ [] →
  (V2.startArena random_sort g st).1 = st
  ∧ ∃ msg, (V2.startArena random_sort g st).2 = [toast_error msg].
Proof.
  intros Hfail.
  destruct (StartFacts.startArena2_cases random_sort g st)
    as [[E _]|[(A & B & _ & _ & _ & _ & E)|(A & B & Hm & _ & _ & Hne & E)]];
    rewrite E in Hfail |- *; simpl; eauto. done.
Qed.

(** With fewer than two distinct models, or with two models that share no
    id and a catalog whose ids are plain, the start is such a failing
    one. *)
Lemma plain_failed_start_changes_nothing (g : Rng) (st : V1.State) :
  (size (Spec.labels (V1.images st)) < 2
   ∨ (plain_ids (V1.images st)
      ∧ ∃ A B, models (V1.images st) = [A; B]
               ∧ Spec.ids_of A (V1.images st) ∩ Spec.ids_of B (V1.images st) = ∅)) →
  (V1.startArena g st).1 = st
  ∧ ∃ msg, (V1.startArena g st).2 = [toast_error msg].
Proof.
  intros Hfail.
  destruct (StartFacts.startArena_cases g st)
    as [[E _]|[(A & B & _ & _ & _ & _ & E)|(A & B & Hm & _ & _ & Hne & E)]];
    rewrite E; simpl; eauto.
  exfalso. destruct Hfail as [Hfew|(Hplain & A' & B' & Hm' & Hempty)].
  - unfold Spec.labels in Hfew. rewrite <- CatalogFacts.distinct_length in Hfew.
    unfold models in Hm.
    destruct (distinct [] (img_model <$> V1.images st)) as [|a [|b l]];
      simpl in *; try done; lia.
  - rewrite Hm in Hm'. simplify_eq.
    apply Hne, StartFacts.matched_nil; [| done | done].
    by apply (CatalogFacts.models_distinct (V1.images st)).
Qed.

Lemma earlier_plain_failed_start_changes_nothing
    random_sort (g : Rng) (st : V2.State) :
  (size (Spec.labels (V2.images st)) < 2
   ∨ (plain_ids (V2.images st)
      ∧ ∃ A B, models (V2.images st) = [A; B]
               ∧ Spec.ids_of A (V2.images st) ∩ Spec.ids_of B (V2.images st) = ∅)) →
  (V2.startArena random_sort g st).1 = st
  ∧ ∃ msg, (V2.startArena random_sort g st).2 = [toast_error msg].
Proof.
  intros Hfail.
  destruct (StartFacts.startArena2_cases random_sort g st)
    as [[E _]|[(A & B & _ & _ & _ & _ & E)|(A & B & Hm & _ & _ & Hne & E)]];
    rewrite E; simpl; eauto.
  exfalso. destruct Hfail as [Hfew|(Hplain & A' & B' & Hm' & Hempty)].
  - unfold Spec.labels in Hfew. rewrite <- CatalogFacts.distinct_length in Hfew.
    unfold models in Hm.
    destruct (distinct [] (img_model <$> V2.images st)) as [|a [|b l]];
      simpl in *; try done; lia.
  - rewrite Hm in Hm'. simplify_eq.
    apply Hne, StartFacts.matched_nil; [| done | done].
    by apply (CatalogFacts.models_distinct (V2.images st)).
Qed.

(** C9, at the failing input.  The two models of this catalog share no
    id, yet the start does not fail: the read of the second table under
    [constructor] is truthy, so the id passes the filter, no error is
    reported, and the component leaves the configuring phase with one
    pair. *)
Theorem start_without_a_shared_id_succeeds :
  models prototype_catalog = ["alpha"; "beta"]
  ∧ Spec.ids_of "alpha" prototype_catalog ∩ Spec.ids_of "beta" prototype_catalog = ∅
  ∧ V1.phase prototype_config = config
  ∧ (V1.startArena (always 0) prototype_config).2 = []
  ∧ V1.phase (V1.startArena (always 0) prototype_config).1 = playing
  ∧ List.length (V1.pairs (V1.startArena (always 0) prototype_config).1) = 1
  ∧ (V1.startArena (always 0) prototype_config).1 ≠ prototype_config.
Proof.
  split_and!; by vm_compute.
Qed.

(** ** Voting, finishing and starting over *)

(** C10. Where no pair stands at the round cursor, [vote] does nothing for
    any choice: the state it returns is the state it was given (vote log,
    phase, cursor, pending timers and all), and it emits no effect. *)
Theorem vote_without_pair_is_noop
    (c1 : V1.Choice) (st1 : V1.State) (c2 : V2.Choice) (st2 : V2.State) :
  (V1.pairs st1 !! V1.current st1 = None → V1.vote c1 st1 = (st1, []))
  ∧ (V2.pairs st2 !! V2.current st2 = None → V2.vote c2 st2 = (st2, [])).
Proof.
  split; intros H.
  - unfold V1.vote. by rewrite H.
  - unfold V2.vote. by rewrite H.
Qed.

Lemma vote_without_pair_is_noop_witness :
  V1.pairs (V1.initial 20) !! V1.current (V1.initial 20) = None
  ∧ V2.pairs (V2.initial 20) !! V2.current (V2.initial 20) = None
  ∧ V1.vote V1.choose_left (V1.initial 20) = (V1.initial 20, [])
  ∧ V2.vote V2.choose_tie (V2.initial 20) = (V2.initial 20, []).
Proof.
  split; [reflexivity |]. split; [reflexivity |].
  destruct (vote_without_pair_is_noop
              V1.choose_left (V1.initial 20) V2.choose_tie (V2.initial 20))
    as [H1 H2].
  split; [apply H1 | apply H2]; reflexivity.
Defined.

(** The guard is about the cursor, not about the phase: once a session has
    finished, the cursor still stands on its last pair. *)
Example cursor_after_the_last_round :
  let st := (V1.run scenario_session (V1.initial 20)).1 in
  V1.phase st = results ∧ is_Some (V1.pairs st !! V1.current st).
Proof. split; [by vm_compute |]. vm_compute. eauto. Qed.

(** C1 fails as stated: after a session of one round, "New Session" leaves
    the catalog, the pair and the vote where they were. *)
Lemma new_session_keeps_state_counterexample :
  let st :=
    (V1.run [V1.images_loaded demo_catalog; V1.click_start (always 0);
             V1.click_vote V1.choose_left; V1.timeout_fires] (V1.initial 20)).1 in
  V1.phase st = results
  ∧ List.length (V1.images (V1.step V1.click_new_session st).1) = 2
  ∧ List.length (V1.pairs (V1.step V1.click_new_session st).1) = 1
  ∧ List.length (V1.votesRef (V1.step V1.click_new_session st).1) = 1
  ∧ ¬ Spec.discarded (V1.step V1.click_new_session st).1.
Proof.
  split_and!; try by vm_compute.
  intros (_ & Himages & _). vm_compute in Himages. discriminate.
Qed.

(** C1, amended.  From the results phase, "New Session" returns to the
    configuration phase and leaves catalog, pairs and vote log as they are;
    it is the next successful start that empties the vote log and replaces
    the pairs. *)
Theorem new_session_returns_to_config
    (random_sort : list string → Rng → list string * Rng) (g : Rng)
    (st1 : V1.State) (st2 : V2.State) :
  (V1.phase st1 = results →
     V1.step V1.click_new_session st1 = (V1.setPhase config st1, [])
     ∧ V1.images (V1.setPhase config st1) = V1.images st1
     ∧ V1.pairs (V1.setPhase config st1) = V1.pairs st1
     ∧ V1.votesRef (V1.setPhase config st1) = V1.votesRef st1)
  ∧ (V2.phase st2 = results →
     V2.step random_sort V2.click_new_session st2 = (V2.setPhase config st2, [])
     ∧ V2.images (V2.setPhase config st2) = V2.images st2
     ∧ V2.pairs (V2.setPhase config st2) = V2.pairs st2
     ∧ V2.votesRef (V2.setPhase config st2) = V2.votesRef st2)
  ∧ ((V1.startArena g st1).2 = [] →
     V1.votesRef (V1.startArena g st1).1 = []
     ∧ ∃ A B, V1.startArena g st1 = (started1 g A B st1, []))
  ∧ ((V2.startArena random_sort g st2).2 = [] →
     V2.votesRef (V2.startArena random_sort g st2).1 = []
     ∧ ∃ A B, V2.startArena random_sort g st2 = (started2 random_sort g A B st2, [])).
Proof.
  split_and!.
  - intros H. simpl. by rewrite H.
  - intros H. simpl. by rewrite H.
  - intros H.
    destruct (StartFacts.startArena_cases g st1)
      as [[E _]|[(A & B & _ & _ & _ & _ & E)|(A & B & _ & _ & _ & _ & E)]];
      rewrite E in H |- *; try done.
    split; [done |]. by exists A, B.
  - intros H.
    destruct (StartFacts.startArena2_cases random_sort g st2)
      as [[E _]|[(A & B & _ & _ & _ & _ & E)|(A & B & _ & _ & _ & _ & E)]];
      rewrite E in H |- *; try done.
    split; [done |]. by exists A, B.
Qed.

Lemma new_session_returns_to_config_witness :
  V1.phase (V1.setPhase results demo_config1) = results
  ∧ V1.step V1.click_new_session (V1.setPhase results demo_config1)
    = (V1.setPhase config (V1.setPhase results demo_config1), []).
Proof.
  split; [reflexivity |].
  apply (new_session_returns_to_config keep_order (always 0)
           (V1.setPhase results demo_config1) demo_config2).
  reflexivity.
Defined.

(** The end-to-end scenario of the specification: two models, two matched
    ids, two pairs; after two votes for the left image, which was alpha's
    both times, alpha has two wins, two rounds are completed and the
    session shows its results. *)
Example end_to_end_scenario :
  let st := (V1.run scenario_session (V1.initial 20)).1 in
  let out := (V1.run scenario_session (V1.initial 20)).2 in
  models (V1.images st) = ["alpha"; "beta"]
  ∧ List.length (V1.pairs st) = 2
  ∧ (snap_model ∘ vote_left) <$> V1.votesRef st = [Some "alpha"; Some "alpha"]
  ∧ V1.phase st = results
  ∧ ∃ msg data,
      out = [toast_success msg; downloadJSON data (Some "alpha")]
      ∧ winsByModel data !! "alpha" = Some (Num 2)
      ∧ roundsCompleted data = 2.
Proof.
  split_and!; try by vm_compute.
  eexists _, _. split_and!; by vm_compute.
Qed.

(** ** The Aggregator *)

Module TallyFacts.

Lemma increment_present k o n :
  o !! k = Some (Num n) → increment k o = <[k := Num (S n)]> o.
Proof. unfold increment. by intros ->. Qed.

Lemma pair_between_models A B p :
  Spec.pair_between A B p →
  (get_model (left p) = Some A ∨ get_model (left p) = Some B)
  ∧ (get_model (right p) = Some A ∨ get_model (right p) = Some B).
Proof.
  intros (a & b & [[-> ->]|[-> ->]] & <- & <- & _); simpl; auto.
Qed.

Lemma recorded1_winner A B v :
  Spec.recorded1 A B v → winnerModel v = Some A ∨ winnerModel v = Some B.
Proof.
  intros (n & c & p & Hp & ->).
  destruct (pair_between_models _ _ _ Hp) as [Hl Hr].
  by destruct c.
Qed.

Lemma recorded2_cases A B v :
  Spec.recorded2 A B v →
  choice v = V2.choose_tie ∨ choice v = V2.choose_both
  ∨ ((choice v = V2.choose_left ∨ choice v = V2.choose_right)
     ∧ (winnerModel v = Some A ∨ winnerModel v = Some B)).
Proof.
  intros (n & c & p & Hp & ->).
  destruct (pair_between_models _ _ _ Hp) as [Hl Hr].
  destruct c; simpl; auto.
Qed.

Section TwoModels.

Variables A B : string.
Hypothesis distinct_labels : A ≠ B.
Hypothesis A_nonempty : A ≠ "".
Hypothesis B_nonempty : B ≠ "".

(** One win for a model raises its counter and leaves the other. *)
Lemma win_counted m wins a b :
  m = A ∨ m = B →
  wins !! A = Some (Num a) → wins !! B = Some (Num b) →
  ∃ a' b', increment m wins !! A = Some (Num a')
           ∧ increment m wins !! B = Some (Num b')
           ∧ a' + b' = S (a + b).
Proof.
  intros [-> | ->] Ha Hb.
  - rewrite (increment_present _ _ _ Ha). exists (S a), b.
    rewrite lookup_insert_eq, lookup_insert_ne by done. split_and!; try done; lia.
  - rewrite (increment_present _ _ _ Hb). exists a, (S b).
    rewrite lookup_insert_eq, lookup_insert_ne by done. split_and!; try done; lia.
Qed.

Lemma tally1_fold votes wins a b :
  Forall (Spec.recorded1 A B) votes →
  wins !! A = Some (Num a) → wins !! B = Some (Num b) →
  ∃ a' b', foldl V1.tally wins votes !! A = Some (Num a')
           ∧ foldl V1.tally wins votes !! B = Some (Num b')
           ∧ a' + b' = a + b + List.length votes.
Proof.
  intros Hvotes. revert wins a b.
  induction Hvotes as [|v votes Hv _ IH]; intros wins a b Ha Hb; simpl.
  - exists a, b. split_and!; try done; lia.
  - assert (∃ m, winnerModel v = Some m ∧ (m = A ∨ m = B)) as (m & Hm & HmAB).
    { destruct (recorded1_winner _ _ _ Hv) as [H|H]; eauto. }
    assert (V1.tally wins v = increment m wins) as ->.
    { unfold V1.tally. rewrite Hm.
      assert (truthy (Some m) = true) as ->; [| done].
      apply StartFacts.truthy_some. by destruct HmAB as [-> | ->]. }
    destruct (win_counted m wins a b HmAB Ha Hb) as (a1 & b1 & Ha1 & Hb1 & Hsum).
    destruct (IH _ _ _ Ha1 Hb1) as (a' & b' & ? & ? & ?).
    exists a', b'. split_and!; try done; lia.
Qed.

Lemma tally2_fold votes wins t bb a b :
  Forall (Spec.recorded2 A B) votes →
  wins !! A = Some (Num a) → wins !! B = Some (Num b) →
  ∃ wins' t' bb' a' b',
    foldl V2.tally (wins, t, bb) votes = (wins', t', bb')
    ∧ wins' !! A = Some (Num a') ∧ wins' !! B = Some (Num b')
    ∧ a' + b' + t' + bb' = a + b + t + bb + List.length votes.
Proof.
  intros Hvotes. revert wins t bb a b.
  induction Hvotes as [|v votes Hv _ IH]; intros wins t bb a b Ha Hb;
    cbn [foldl List.length].
  - exists wins, t, bb, a, b. split_and!; try done; lia.
  - destruct (recorded2_cases _ _ _ Hv) as [Hc|[Hc|[Hc Hw]]].
    + assert (V2.tally (wins, t, bb) v = (wins, S t, bb)) as ->.
      { unfold V2.tally. by rewrite Hc. }
      destruct (IH wins (S t) bb a b Ha Hb) as (w' & t' & bb' & a' & b' & ? & ? & ? & ?).
      exists w', t', bb', a', b'. split_and!; try done; lia.
    + assert (V2.tally (wins, t, bb) v = (wins, t, S bb)) as ->.
      { unfold V2.tally. by rewrite Hc. }
      destruct (IH wins t (S bb) a b Ha Hb) as (w' & t' & bb' & a' & b' & ? & ? & ? & ?).
      exists w', t', bb', a', b'. split_and!; try done; lia.
    + assert (∃ m, winnerModel v = Some m ∧ (m = A ∨ m = B)) as (m & Hm & HmAB).
      { destruct Hw as [H|H]; eauto. }
      assert (V2.tally (wins, t, bb) v = (increment m wins, t, bb)) as ->.
      { unfold V2.tally. rewrite Hm.
        assert (truthy (Some m) = true) as ->.
        { apply StartFacts.truthy_some. by destruct HmAB as [-> | ->]. }
        by destruct Hc as [-> | ->]. }
      destruct (win_counted m wins a b HmAB Ha Hb) as (a1 & b1 & Ha1 & Hb1 & Hsum).
      destruct (IH _ t bb _ _ Ha1 Hb1) as (w' & t' & bb' & a' & b' & ? & ? & ? & ?).
      exists w', t', bb', a', b'. split_and!; try done; lia.
Qed.

(** The counter object [finish] starts from. *)
Lemma fresh_counters :
  (<[B := Num 0]> (<[A := Num 0]> (∅ : gmap string number))) !! A = Some (Num 0)
  ∧ (<[B := Num 0]> (<[A := Num 0]> (∅ : gmap string number))) !! B = Some (Num 0).
Proof.
  split.
  - rewrite lookup_insert_ne by done. apply lookup_insert_eq.
  - apply lookup_insert_eq.
Qed.

End TwoModels.

End TallyFacts.

(** When the votes of a log are what the vote handler records for pairs
    between the two models [A] and [B], the exported win counts of [A] and
    [B], the ties and the both-bad count add up to the exported number of
    completed rounds, which is the length of the vote log. *)
Lemma recorded_votes_are_accounted_for
    (A B : string) (planned : nat) (st1 : V1.State) (st2 : V2.State) :
  A ≠ B → A ≠ "" → B ≠ "" →
  (Forall (Spec.recorded1 A B) (V1.votesRef st1) →
   ∃ msg data winner,
     V1.finish (Some A, Some B) planned st1
       = (V1.setPhase results st1, [toast_success msg; downloadJSON data winner])
     ∧ Spec.accounts_for_every_round A B data
     ∧ roundsCompleted data = List.length (V1.votesRef st1))
  ∧ (models (V2.images st2) = [A; B] →
     Forall (Spec.recorded2 A B) (V2.votesRef st2) →
     ∃ msg data winner,
       V2.finish st2
         = (V2.setPhase results st2, [toast_success msg; downloadJSON data winner])
       ∧ Spec.accounts_for_every_round A B data
       ∧ roundsCompleted data = List.length (V2.votesRef st2)).
Proof.
  intros HAB HA HB.
  destruct (TallyFacts.fresh_counters A B HAB) as [Ha0 Hb0].
  split.
  - intros Hvotes. unfold V1.finish. simpl key_of.
    destruct (TallyFacts.tally1_fold A B HAB HA HB _ _ 0 0 Hvotes Ha0 Hb0)
      as (a & b & Ha & Hb & Hsum).
    eexists _, _, _. split; [reflexivity |]. split; [| done].
    exists a, b. simpl. split_and!; try done; lia.
  - intros Hm Hvotes. unfold V2.finish. rewrite Hm. simpl key_of.
    destruct (TallyFacts.tally2_fold A B HAB HA HB _ _ 0 0 0 0 Hvotes Ha0 Hb0)
      as (w & t & bb & a & b & -> & Ha & Hb & Hsum).
    eexists _, _, _. split; [reflexivity |]. split; [| done].
    exists a, b. simpl. split_and!; try done; lia.
Qed.

(** C3, at the failing input.  The session over [alpha_constructor.png]
    and [beta_001.png] has one pair, whose right side is the inherited
    function; a vote for it records no winner, and the tally counts only
    votes with one.  The export reports one completed round and not one
    win, tie or both-bad to go with it. *)
Theorem prototype_vote_is_not_counted :
  ∃ msg data winner,
    (V1.run prototype_session (V1.initial 20)).2
    = [toast_success msg; downloadJSON data winner]
    ∧ res_models data = (Some "alpha", Some "beta")
    ∧ winnerModel <$> res_votes data = [None]
    ∧ winsByModel data !! "alpha" = Some (Num 0)
    ∧ winsByModel data !! "beta" = Some (Num 0)
    ∧ ties data = 0 ∧ bothBad data = 0
    ∧ roundsCompleted data = 1
    ∧ ¬ Spec.accounts_for_every_round "alpha" "beta" data.
Proof.
  eexists _, _, _. split; [by vm_compute |].
  split_and!; try by vm_compute.
  intros (a & b & Ha & Hb & Hsum).
  vm_compute in Ha, Hb. injection Ha as <-. injection Hb as <-.
  by vm_compute in Hsum.
Qed.

(** The earlier revision, which tallies ties and both-bad votes as well,
    loses the round the same way. *)
Lemma earlier_prototype_vote_is_not_counted :
  ∃ msg data winner,
    (V2.run keep_order earlier_prototype_session (V2.initial 20)).2
    = [toast_success msg; downloadJSON data winner]
    ∧ res_models data = (Some "x", Some "y")
    ∧ winsByModel data !! "x" = Some (Num 0)
    ∧ winsByModel data !! "y" = Some (Num 0)
    ∧ ties data = 0 ∧ bothBad data = 0
    ∧ roundsCompleted data = 1
    ∧ ¬ Spec.accounts_for_every_round "x" "y" data.
Proof.
  eexists _, _, _. split; [by vm_compute |].
  split_and!; try by vm_compute.
  intros (a & b & Ha & Hb & Hsum).
  vm_compute in Ha, Hb. injection Ha as <-. injection Hb as <-.
  by vm_compute in Hsum.
Qed.

(** ** The vote log against the number of pairs *)

(** C2, at the failing input.  With one pair to judge, a second press of an
    arrow key before the tick of the first has timed out is recorded as a
    second vote for the same round, and each of the two timers runs the
    finish step: two votes for one pair, and two exports, each reporting
    two completed rounds of one planned. *)
Theorem keydown_twice_overshoots :
  let st := (V1.run hasty_session (V1.initial 1)).1 in
  let out := (V1.run hasty_session (V1.initial 1)).2 in
  List.length (V1.pairs st) = 1
  ∧ List.length (V1.votesRef st) = 2
  ∧ round <$> V1.votesRef st = [1; 1]
  ∧ Spec.downloads out = 2
  ∧ Spec.exported_rounds out = [(1, 2); (1, 2)].
Proof. by vm_compute. Qed.

(** The buttons are guarded where the keyboard is not: while the tick is
    shown a click on a vote button does nothing. *)
Lemma click_while_ticked_is_rejected (c c' : V1.Choice) (st : V1.State) :
  V1.justVoted st = Some c' → V1.step (V1.click_vote c) st = (st, []).
Proof. intros H. simpl. rewrite H. by destruct (V1.phase st). Qed.

Lemma keydown_while_ticked_is_recorded :
  let st := (V1.run [V1.images_loaded demo_catalog; V1.click_start (always 0);
                     V1.keydown "ArrowLeft"] (V1.initial 20)).1 in
  V1.justVoted st = Some V1.choose_left
  ∧ List.length (V1.votesRef st) = 1
  ∧ List.length (V1.votesRef (V1.step (V1.keydown "ArrowLeft") st).1) = 2
  ∧ List.length (V1.votesRef (V1.step (V1.click_vote V1.choose_left) st).1) = 1.
Proof. by vm_compute. Qed.

(** The rest of the invariant holds in the current revision too: no event
    other than a start takes a vote off the log or alters one; a start
    either fails and leaves the log alone or opens an empty one. *)
Lemma finish_keeps_votes ms planned st :
  (V1.finish ms planned st).1 = V1.setPhase results st.
Proof. by destruct ms. Qed.

Lemma vote_log_only_grows (e : V1.Event) (st : V1.State) :
  match e with
  | V1.click_start _ =>
      V1.votesRef (V1.step e st).1 = V1.votesRef st
      ∨ V1.votesRef (V1.step e st).1 = []
  | _ => V1.votesRef st `prefix_of` V1.votesRef (V1.step e st).1
  end.
Proof.
  assert (∀ c, V1.votesRef st `prefix_of` V1.votesRef (V1.vote c st).1) as Hvote.
  { intros c. unfold V1.vote.
    destruct (V1.pairs st !! V1.current st) as [pr|]; simpl; [| done].
    destruct (negb _); simpl; [done |]. by apply prefix_app_r. }
  destruct e as [g|c|key| | |imgs|text]; simpl.
  - destruct (V1.phase st); auto. destruct (V1.images st); auto.
    destruct (StartFacts.startArena_cases g st)
      as [[E _]|[(A & B & _ & _ & _ & _ & E)|(A & B & _ & _ & _ & _ & E)]];
      rewrite E; auto.
  - destruct (V1.phase st); try done. by destruct (V1.justVoted st).
  - unfold V1.handleKeyDown. destruct (V1.phase st); try done.
    destruct (String.eqb key "ArrowLeft"); [done |].
    by destruct (String.eqb key "ArrowRight").
  - destruct (V1.timers st) as [|t rest]; [done |].
    unfold V1.timeout_callback.
    destruct (V1.pairs_length t <=? V1.next_round t)%nat; [| done].
    by rewrite finish_keeps_votes.
  - by destruct (V1.phase st).
  - done.
  - by destruct (size (V1.parseInstructionsCSV text) =? 0)%nat.
Qed.

(** Sessions driven by the buttons alone keep the bound in the current
    revision. *)
Module CurrentBound.

Lemma clicks_keep_bound e st :
  is_keydown e = false → bounded1 st → bounded1 (V1.step e st).1.
Proof.
  intros He Hb. pose proof Hb as [Hle Hphase].
  destruct e as [g|c|key| | |imgs|text]; simpl; try done.
  - destruct (V1.phase st) eqn:Hp; try done.
    destruct (V1.images st) eqn:Hi; [done |].
    destruct (StartFacts.startArena_cases g st)
      as [[E _]|[(A & B & _ & _ & _ & _ & E)|(A & B & _ & _ & _ & _ & E)]];
      rewrite E; simpl; try done.
    destruct Hphase as [Hj Ht]. split; simpl; [lia |]. by left.
  - destruct (V1.phase st) eqn:Hp; try done.
    destruct (V1.justVoted st) eqn:Hj; [done |].
    destruct Hphase as [(_ & Ht & Hcur)|[Hne _]]; [| done].
    unfold V1.vote.
    destruct (V1.pairs st !! V1.current st) as [pr|] eqn:Hpr; [| done].
    destruct (negb _); [done |].
    apply lookup_lt_Some in Hpr.
    split; simpl; rewrite ?length_app; simpl; [lia |].
    rewrite Hp. right. split; [done |]. rewrite Ht. simpl.
    eexists. split; [reflexivity |]. simpl. lia.
  - destruct (V1.timers st) as [|t rest] eqn:Ht; [done |].
    destruct (V1.phase st) eqn:Hp; try (by destruct Hphase).
    destruct Hphase as [(_ & Hnil & _)|(_ & t' & Heq & Hnext & Hlen & Hcur)]; [done |].
    injection Heq as <- ->.
    unfold V1.timeout_callback.
    destruct (Nat.leb_spec (V1.pairs_length t) (V1.next_round t)).
    + rewrite finish_keeps_votes. by split.
    + split; simpl; [done |]. rewrite Hp. left. split_and!; try done; lia.
  - destruct (V1.phase st) eqn:Hp; try done; by split.
  - destruct (size (V1.parseInstructionsCSV text) =? 0)%nat; [done |].
    split; simpl; [done |]. by destruct (V1.phase st).
Qed.

Lemma click_runs_keep_bound es st :
  Forall (λ e, is_keydown e = false) es →
  bounded1 st → bounded1 (V1.run es st).1.
Proof.
  intros Hes. revert st.
  induction Hes as [|e es He _ IH]; intros st Hst; simpl; [done |].
  pose proof (clicks_keep_bound e st He Hst) as Hstep.
  destruct (V1.step e st) as [st' out].
  specialize (IH st' Hstep).
  by destruct (V1.run es st') as [st'' out'].
Qed.

Lemma clicks_never_exceed_pairs es defaultRounds :
  Forall (λ e, is_keydown e = false) es →
  (List.length (V1.votesRef (V1.run es (V1.initial defaultRounds)).1)
   ≤ List.length (V1.pairs (V1.run es (V1.initial defaultRounds)).1))%nat.
Proof.
  intros Hes. apply click_runs_keep_bound; [done |].
  split; simpl; [lia | done].
Qed.

End CurrentBound.

(** The earlier revision, which advances the cursor inside [vote], keeps
    the bound in every state its events can reach. *)
Module EarlierBound.

Section Engine.

Variable random_sort : list string → Rng → list string * Rng.

Lemma earlier_finish_state st : (V2.finish st).1 = V2.setPhase results st.
Proof. unfold V2.finish. by destruct (foldl _ _ _) as [[? ?] ?]. Qed.

Lemma step_keeps_bound e st :
  bounded2 st → bounded2 (V2.step random_sort e st).1.
Proof.
  intros Hb. pose proof Hb as [Hle Hcur].
  destruct e as [g|c| | |value|imgs]; simpl.
  - destruct (V2.phase st) eqn:Hp; try done.
    destruct (V2.images st) eqn:Hi; [done |].
    destruct (StartFacts.startArena2_cases random_sort g st)
      as [[E _]|[(A & B & _ & _ & _ & _ & E)|(A & B & _ & _ & _ & _ & E)]];
      rewrite E; simpl; try done.
    split; simpl; [lia | done].
  - destruct (V2.phase st) eqn:Hp; try done.
    unfold V2.vote.
    destruct (V2.pairs st !! V2.current st) as [pr|] eqn:Hpr; [| done].
    destruct (negb _); [done |].
    apply lookup_lt_Some in Hpr. specialize (Hcur eq_refl).
    cbn [V2.pairs V2.setVotes V2.current].
    destruct (Nat.leb_spec (List.length (V2.pairs st)) (V2.current st + 1)).
    + rewrite earlier_finish_state. split; simpl; [| done].
      rewrite length_app. simpl. lia.
    + split; simpl; rewrite length_app; simpl; lia.
  - destruct (V2.phase st) eqn:Hp; try done; split; simpl; try lia; done.
  - destruct (V2.phase st) eqn:Hp; try done.
    destruct (V2.images st); try done; split; simpl; try lia; by rewrite Hp.
  - destruct (V2.phase st) eqn:Hp; try done; split; simpl; try lia; by rewrite Hp.
  - done.
Qed.

Lemma run_keeps_bound es st :
  bounded2 st → bounded2 (V2.run random_sort es st).1.
Proof.
  revert st. induction es as [|e es IH]; intros st Hst; simpl; [done |].
  pose proof (step_keeps_bound e st Hst) as Hstep.
  destruct (V2.step random_sort e st) as [st' out].
  specialize (IH st' Hstep).
  by destruct (V2.run random_sort es st') as [st'' out'].
Qed.

Lemma votes_never_exceed_pairs es defaultRounds :
  (List.length (V2.votesRef (V2.run random_sort es (V2.initial defaultRounds)).1)
   ≤ List.length (V2.pairs (V2.run random_sort es (V2.initial defaultRounds)).1))%nat.
Proof. apply run_keeps_bound. split; simpl; [lia | done]. Qed.

End Engine.

End EarlierBound.

(** ** The instruction table *)

Module CsvFacts.

Lemma csv_rows_untouched delim lines i0 (m : gmap string string) key :
  (∀ j line, lines !! j = Some line → ¬ Spec.registers delim (i0 + j) line key) →
  V1.csv_rows delim i0 lines m !! key = m !! key.
Proof.
  revert i0 m. induction lines as [|line lines IH]; intros i0 m Hno; simpl; [done |].
  assert (∀ j l, lines !! j = Some l → ¬ Spec.registers delim (S i0 + j) l key) as Hrest.
  { intros j l Hl. replace (S i0 + j) with (i0 + S j) by lia. by apply Hno. }
  specialize (Hno 0 line eq_refl). rewrite Nat.add_0_r in Hno.
  destruct (V1.csv_row delim i0 line) as [[id instruction]|] eqn:Hrow.
  - rewrite IH by done. unfold assign.
    destruct (String.eqb (V1.normalizeId id) "__proto__"),
             (String.eqb id "__proto__");
      rewrite ?lookup_insert_ne; try done; intros <-; apply Hno;
      exists id, instruction; auto.
  - by apply IH.
Qed.

Lemma csv_rows_keeps delim lines i0 (m : gmap string string) key :
  is_Some (m !! key) → is_Some (V1.csv_rows delim i0 lines m !! key).
Proof.
  revert i0 m. induction lines as [|line lines IH]; intros i0 m Hm; simpl; [done |].
  destruct (V1.csv_row delim i0 line) as [[id instruction]|]; apply IH; [| done].
  unfold assign.
  destruct (String.eqb (V1.normalizeId id) "__proto__"),
           (String.eqb id "__proto__");
    rewrite ?lookup_insert; repeat case_decide; eauto.
Qed.

Lemma registered_lookup (m : gmap string string) id norm instruction key :
  key ≠ "__proto__" → key = id ∨ key = norm →
  assign norm instruction (assign id instruction m) !! key = Some instruction.
Proof.
  intros Hkey%String.eqb_neq Hor. unfold assign.
  destruct (String.eqb norm "__proto__") eqn:En,
           (String.eqb id "__proto__") eqn:Ei;
    destruct Hor as [-> | ->]; try congruence;
    rewrite ?lookup_insert; repeat case_decide; done.
Qed.

Lemma csv_rows_registered delim lines i0 (m : gmap string string) j line key :
  key ≠ "__proto__" →
  lines !! j = Some line → Spec.registers delim (i0 + j) line key →
  is_Some (V1.csv_rows delim i0 lines m !! key).
Proof.
  intros Hplain.
  revert i0 m j. induction lines as [|l lines IH]; intros i0 m j Hj Hreg; [done |].
  destruct j as [|j]; simpl in Hj |- *.
  - injection Hj as ->. rewrite Nat.add_0_r in Hreg.
    destruct Hreg as (id & instruction & -> & Hkey).
    apply csv_rows_keeps. rewrite (registered_lookup _ _ _ _ _ Hplain Hkey). eauto.
  - replace (i0 + S j) with (S i0 + j) in Hreg by lia.
    destruct (V1.csv_row delim i0 l) as [[id instruction]|]; by eapply IH.
Qed.

Lemma csv_rows_last delim lines i0 (m : gmap string string) j line id instruction key :
  key ≠ "__proto__" →
  lines !! j = Some line →
  V1.csv_row delim (i0 + j) line = Some (id, instruction) →
  key = id ∨ key = V1.normalizeId id →
  (∀ j' later, j < j' → lines !! j' = Some later →
               ¬ Spec.registers delim (i0 + j') later key) →
  V1.csv_rows delim i0 lines m !! key = Some instruction.
Proof.
  intros Hplain.
  revert i0 m j. induction lines as [|l lines IH]; intros i0 m j Hj Hrow Hkey Hlater;
    [done |].
  destruct j as [|j]; simpl in Hj |- *.
  - injection Hj as ->. rewrite Nat.add_0_r in Hrow. rewrite Hrow.
    rewrite csv_rows_untouched; [by apply registered_lookup |].
    intros j' later Hl. replace (S i0 + j') with (i0 + S j') by lia.
    apply Hlater; [lia | done].
  - replace (i0 + S j) with (S i0 + j) in Hrow by lia.
    assert (V1.csv_rows delim (S i0) lines
              (match V1.csv_row delim i0 l with
               | Some (id', ins') =>
                   assign (V1.normalizeId id') ins' (assign id' ins' m)
               | None => m
               end) !! key = Some instruction) as H.
    { eapply IH; eauto. intros j' later Hlt Hl.
      replace (S i0 + j') with (i0 + S j') by lia. apply Hlater; [lia | done]. }
    by destruct (V1.csv_row delim i0 l) as [[id' ins']|].
Qed.

End CsvFacts.

(** The delimiter of an instruction table is [;] when its header line
    holds at least as many [;] as [,], and [,] otherwise.  A data row is
    filed under its raw id and under its normalised id, for every key of
    the two that is not [__proto__]: the key is present in the lookup, and
    it returns the row's instruction unless a later row files under the
    same key.  The table with header [id;instruction] and row
    [001;Draw a cat] answers "Draw a cat" for "001" and for "1". *)
Lemma plain_instructions_under_raw_and_normalized_id :
  (∀ first,
     V1.delimiter first =
     if decide (Js.count "," first ≤ Js.count ";" first)%nat then ";"%char else ","%char)
  ∧ (∀ text first rest i line id instruction key,
       List.filter V1.nonblank (Js.splitLines text) = first :: rest →
       (first :: rest) !! i = Some line →
       V1.csv_row (V1.delimiter first) i line = Some (id, instruction) →
       key = id ∨ key = V1.normalizeId id →
       key ≠ "__proto__" →
       is_Some (V1.parseInstructionsCSV text !! key)
       ∧ ((∀ j later, i < j → (first :: rest) !! j = Some later →
                      ¬ Spec.registers (V1.delimiter first) j later key) →
          V1.parseInstructionsCSV text !! key = Some instruction))
  ∧ V1.parseInstructionsCSV demo_csv !! "001" = Some "Draw a cat"
  ∧ V1.parseInstructionsCSV demo_csv !! "1" = Some "Draw a cat".
Proof.
  split_and!.
  - intros first. unfold V1.delimiter.
    destruct (Nat.leb_spec (Js.count "," first) (Js.count ";" first));
      case_decide; done || lia.
  - intros text first rest i line id instruction key Hlines Hline Hrow Hkey Hplain.
    unfold V1.parseInstructionsCSV. rewrite Hlines. split.
    + apply (CsvFacts.csv_rows_registered _ _ 0 _ i line); [done | done |].
      by exists id, instruction.
    + intros Hlater. by apply (CsvFacts.csv_rows_last _ _ 0 _ i line id).
  - by vm_compute.
  - by vm_compute.
Qed.

(** C8, at the failing input.  The table holds the data row
    [__proto__;hello].  The lookup is a plain object, and an assignment to
    its key [__proto__] reaches the prototype setter, which drops a
    string: the row is filed under its normalised id only, and the lookup
    owns no entry under the raw id. *)
Theorem proto_row_is_not_registered :
  List.filter V1.nonblank (Js.splitLines prototype_csv)
  = ["id;instruction"; "__proto__;hello"]
  ∧ V1.csv_row (V1.delimiter "id;instruction") 1 "__proto__;hello"
    = Some ("__proto__", "hello")
  ∧ Spec.registers (V1.delimiter "id;instruction") 1 "__proto__;hello" "__proto__"
  ∧ V1.parseInstructionsCSV prototype_csv !! "__proto__" = None
  ∧ V1.normalizeId "__proto__" = "proto__"
  ∧ V1.parseInstructionsCSV prototype_csv !! "proto__" = Some "hello".
Proof.
  split_and!; try by vm_compute.
  exists "__proto__", "hello". split; [by vm_compute | by left].
Qed.

(** * Further properties *)

(** ** Identifiers *)

Module IdFacts.
Import JsFacts NormalizeFacts.

Lemma normalizeId_split id : V1.normalizeId id = digits_rule (cleaned id).
Proof.
  unfold V1.normalizeId, digits_rule, cleaned.
  destruct (Js.is_empty id) eqn:E; [| done].
  by apply is_empty_true in E as ->.
Qed.

Lemma trimEnd_fixed s : Spec.ends_with Js.is_ws s = false → Js.trimEnd s = s.
Proof.
  intros H. rewrite <- (append_nil_r s) at 1. by apply trimEnd_app_ws.
Qed.

Lemma cleaned_eq s : cleaned s = Js.trimEnd (Js.dropWhile Js.is_sep s).
Proof.
  unfold cleaned, Js.trim, Js.trimStart.
  by rewrite dropWhile_sep_trimEnd, dropWhile_sep_ws.
Qed.

Lemma cleaned_shape s :
  Spec.starts_with Js.is_sep (cleaned s) = false
  ∧ Spec.ends_with Js.is_ws (cleaned s) = false.
Proof.
  rewrite cleaned_eq. split.
  - destruct (Spec.starts_with Js.is_sep (Js.trimEnd _)) eqn:E; [| done].
    apply trimEnd_starts in E.
    destruct (dropWhile_split Js.is_sep s) as (_ & _ & _ & H). congruence.
  - by destruct (trimEnd_split (Js.dropWhile Js.is_sep s)) as (_ & _ & _ & H).
Qed.

Lemma cleaned_fixed t :
  Spec.starts_with Js.is_sep t = false → Spec.ends_with Js.is_ws t = false →
  cleaned t = t.
Proof.
  intros Hs He. rewrite cleaned_eq, dropWhile_fixed by done. by apply trimEnd_fixed.
Qed.

Lemma digit_not_sep c : Js.is_digit c = true → Js.is_sep c = false ∧ Js.is_ws c = false.
Proof.
  destruct c as [[] [] [] [] [] [] [] []]; vm_compute; intros; (done || by split).
Qed.

Lemma zero_is_digit c : Js.is_zero c = true → Js.is_digit c = true.
Proof. intros H%Ascii.eqb_eq. by subst. Qed.

Lemma digits_shape s :
  Js.all Js.is_digit s = true →
  Spec.starts_with Js.is_sep s = false ∧ Spec.ends_with Js.is_ws s = false.
Proof.
  intros H. split.
  - destruct s as [|c s]; simpl in *; [done |].
    apply andb_true_iff in H as [H _]. by apply digit_not_sep in H as [? ?].
  - induction s as [|c s IH]; [done |].
    simpl in H. apply andb_true_iff in H as [Hc Hs].
    destruct s as [|d s]; [| by apply IH].
    simpl. by apply digit_not_sep in Hc as [? ?].
Qed.

Lemma digits_dropWhile p s :
  Js.all Js.is_digit s = true → Js.all Js.is_digit (Js.dropWhile p s) = true.
Proof.
  induction s as [|c s IH]; simpl; [done |].
  intros H. destruct (p c); [| done].
  apply andb_true_iff in H as [_ H]. auto.
Qed.

(** What the digits rule returns is a fixed point of cleaning and of the
    rule itself. *)
Lemma digits_rule_shape c :
  Spec.starts_with Js.is_sep c = false → Spec.ends_with Js.is_ws c = false →
  Spec.starts_with Js.is_sep (digits_rule c) = false
  ∧ Spec.ends_with Js.is_ws (digits_rule c) = false.
Proof.
  intros Hs He. unfold digits_rule.
  destruct (negb (Js.is_empty c) && Js.all Js.is_digit c) eqn:E; [| done].
  apply andb_true_iff in E as [_ Hd].
  destruct (Js.is_empty (Js.dropWhile Js.is_zero c)) eqn:Hn; [done |].
  by apply digits_shape, digits_dropWhile.
Qed.

Lemma digits_rule_idem c : digits_rule (digits_rule c) = digits_rule c.
Proof.
  assert (digits_rule c =
          if negb (Js.is_empty c) && Js.all Js.is_digit c then
            if Js.is_empty (Js.dropWhile Js.is_zero c) then "0"
            else Js.dropWhile Js.is_zero c
          else c) as Hc by reflexivity.
  destruct (negb (Js.is_empty c) && Js.all Js.is_digit c) eqn:E.
  - apply andb_true_iff in E as [_ Hd].
    destruct (Js.is_empty (Js.dropWhile Js.is_zero c)) eqn:Hn; rewrite Hc.
    + by vm_compute.
    + unfold digits_rule. rewrite Hn, (digits_dropWhile _ _ Hd), dropWhile_idem.
      simpl. by rewrite Hn.
  - rewrite Hc. exact Hc.
Qed.

(** A normalised id starts with no separator; in particular it is never
    the key [__proto__]. *)
Lemma normalizeId_shape id : Spec.starts_with Js.is_sep (V1.normalizeId id) = false.
Proof.
  rewrite normalizeId_split.
  destruct (cleaned_shape id) as [Hs He]. by apply digits_rule_shape.
Qed.

Lemma normalizeId_not_proto id : V1.normalizeId id ≠ "__proto__".
Proof. intros H. pose proof (normalizeId_shape id) as Hs. by rewrite H in Hs. Qed.

End IdFacts.

(** X1. Normalising an identifier twice gives what normalising it once
    gives: a normalised id is its own normal form. *)
Theorem normalizeId_idempotent (id : string) :
  V1.normalizeId (V1.normalizeId id) = V1.normalizeId id.
Proof.
  rewrite !IdFacts.normalizeId_split.
  destruct (IdFacts.cleaned_shape id) as [Hs He].
  destruct (IdFacts.digits_rule_shape _ Hs He) as [Hs' He'].
  rewrite (IdFacts.cleaned_fixed _ Hs' He'). apply IdFacts.digits_rule_idem.
Qed.

(** X2. Numeric identifiers that differ only in leading zeros normalise to
    the same id, which is why [alpha_001] pairs with [beta_1]. *)
Theorem leading_zeros_do_not_matter (zeros digits : string) :
  Js.all Js.is_zero zeros = true → Js.all Js.is_digit digits = true → digits ≠ "" →
  V1.normalizeId (zeros +:+ digits) = V1.normalizeId digits.
Proof.
  intros Hz Hd Hne.
  assert (Js.all Js.is_digit zeros = true) as Hzd.
  { clear -Hz. induction zeros as [|c s IH]; simpl in *; [done |].
    apply andb_true_iff in Hz as [Hc Hs]. by rewrite (IdFacts.zero_is_digit _ Hc), IH. }
  assert (Js.all Js.is_digit (zeros +:+ digits) = true) as Hall.
  { by rewrite JsFacts.all_app, Hzd, Hd. }
  assert (Js.is_empty (zeros +:+ digits) = false) as Hne'.
  { destruct zeros; [by apply JsFacts.is_empty_false | done]. }
  rewrite !IdFacts.normalizeId_split.
  destruct (IdFacts.digits_shape _ Hall) as [? ?], (IdFacts.digits_shape _ Hd) as [? ?].
  rewrite !IdFacts.cleaned_fixed by done.
  unfold digits_rule. rewrite Hne', Hall, Hd.
  apply JsFacts.is_empty_false in Hne. rewrite Hne. simpl.
  by rewrite JsFacts.dropWhile_app_run.
Qed.

Lemma leading_zeros_do_not_matter_witness :
  Js.all Js.is_zero "00" = true ∧ Js.all Js.is_digit "17" = true ∧ "17" ≠ ""
  ∧ V1.normalizeId ("00" +:+ "17") = V1.normalizeId "17".
Proof.
  split; [reflexivity |]. split; [reflexivity |]. split; [done |].
  by apply (leading_zeros_do_not_matter "00" "17").
Defined.

(** ** File names *)

Module NameFacts.
Import JsFacts.

Lemma before_separator_free s : Spec.has_separator (Spec.before_separator s) = false.
Proof.
  induction s as [|c s IH]; simpl; [done |].
  destruct (Spec.is_split c) eqn:Hc; simpl; [done |]. by rewrite Hc.
Qed.

Lemma or_else_nonempty x d : d ≠ "" → Js.or_else x d ≠ "".
Proof. intros Hd. unfold Js.or_else. by destruct x. Qed.

Lemma stripExtension_app b e :
  e ≠ "" → Js.all Js.not_slash_dot e = true → Js.stripExtension (b +:+ "." +:+ e) = b.
Proof.
  intros He Hall. apply is_empty_false in He.
  induction b as [|c b IH]; repeat sapp.
  - change (Js.stripExtension (String "." e)) with
      (if Ascii.eqb "." "." && negb (Js.is_empty e) && Js.all Js.not_slash_dot e
       then "" else String "." (Js.stripExtension e)).
    by rewrite He, Hall.
  - change (Js.stripExtension (String c (b +:+ String "." e))) with
      (if Ascii.eqb c "." && negb (Js.is_empty (b +:+ String "." e))
          && Js.all Js.not_slash_dot (b +:+ String "." e)
       then "" else String c (Js.stripExtension (b +:+ String "." e))).
    rewrite all_app. simpl (Js.all Js.not_slash_dot (String "." e)).
    rewrite !andb_false_r. by rewrite IH.
Qed.

End NameFacts.

(** X3. A model label is never empty, and the current revision's label
    never holds a [_] or [-]: whatever the file is called, it lands in a
    model that session start accepts as a label. *)
Theorem model_label_is_never_empty (filename : string) :
  V1.parseModelPrefix filename ≠ ""
  ∧ Spec.has_separator (V1.parseModelPrefix filename) = false
  ∧ V2.parseModelPrefix filename ≠ "".
Proof.
  rewrite ParseFacts.parseModelPrefix_eq. split_and!.
  - by apply NameFacts.or_else_nonempty.
  - destruct (ParseFacts.or_else_cases
                (Spec.before_separator (Js.stripExtension filename)) "model")
      as [[_ ->]|[_ ->]]; [done | apply NameFacts.before_separator_free].
  - unfold V2.parseModelPrefix. by apply NameFacts.or_else_nonempty.
Qed.

(** X4. The extension plays no part in parsing: a final [.ext] of one or
    more characters other than [/] and [.] is cut off whole, so two files
    that differ in it alone get the same model label and the same id. *)
Theorem extension_is_ignored (base ext ext' : string) (m : option string) :
  ext ≠ "" → Js.all Js.not_slash_dot ext = true →
  ext' ≠ "" → Js.all Js.not_slash_dot ext' = true →
  Js.stripExtension (base +:+ "." +:+ ext) = base
  ∧ V1.parseModelPrefix (base +:+ "." +:+ ext) = V1.parseModelPrefix (base +:+ "." +:+ ext')
  ∧ V1.parseIdSuffix (base +:+ "." +:+ ext) m = V1.parseIdSuffix (base +:+ "." +:+ ext') m.
Proof.
  intros He Hall He' Hall'.
  pose proof (NameFacts.stripExtension_app base ext He Hall) as E.
  pose proof (NameFacts.stripExtension_app base ext' He' Hall') as E'.
  unfold V1.parseModelPrefix, V1.parseIdSuffix. by rewrite E, E'.
Qed.

Lemma extension_is_ignored_witness :
  "png" ≠ "" ∧ Js.all Js.not_slash_dot "png" = true
  ∧ "jpeg" ≠ "" ∧ Js.all Js.not_slash_dot "jpeg" = true
  ∧ Js.stripExtension ("alpha_001.v2" +:+ "." +:+ "png") = "alpha_001.v2".
Proof.
  split; [done |]. split; [reflexivity |]. split; [done |]. split; [reflexivity |].
  by apply (extension_is_ignored "alpha_001.v2" "png" "jpeg" None).
Defined.

(** X5. For a catalog whose labels are all non-empty, as the labels of
    loaded files are, session start reports the two-models error exactly
    when the catalog holds fewer than two distinct labels. *)
Theorem two_models_error_iff (g : Rng) (st : V1.State) :
  Forall (λ i, img_model i ≠ "") (V1.images st) →
  (V1.startArena g st).2
    = [toast_error "Please provide images from exactly two models (use filename prefixes)."]
  ↔ (size (Spec.labels (V1.images st)) < 2)%nat.
Proof.
  intros Hlabels.
  assert (∀ A, A ∈ models (V1.images st) → A ≠ "") as Hne.
  { intros A HA. apply (subseteq_take 2), CatalogFacts.distinct_elem in HA.
    destruct HA as [HA _]. apply list_elem_of_fmap in HA as (i & -> & Hi).
    by apply (proj1 (Forall_forall _ _) Hlabels). }
  unfold Spec.labels. rewrite <- CatalogFacts.distinct_length.
  destruct (StartFacts.startArena_cases g st)
    as [[E Hno]|[(A & B & Hm & _ & _ & _ & E)|(A & B & Hm & _ & _ & _ & E)]];
    rewrite E; simpl.
  - split; [intros _ | done].
    destruct (StartFacts.models_cases (V1.images st)) as [Hm|[[A Hm]|(A & B & Hm)]];
      unfold models in Hm.
    + destruct (distinct [] _) as [|a [|b l]]; simpl in *; try done; lia.
    + destruct (distinct [] _) as [|a [|b l]]; simpl in *; try done; lia.
    + destruct Hno. exists A, B. fold (models (V1.images st)) in Hm.
      split; [done |]. split; apply Hne; rewrite Hm; set_solver.
  - split; [done |]. intros Hlt. unfold models in Hm.
    destruct (distinct [] _) as [|a [|b l]]; simpl in *; try done; lia.
  - split; [done |]. intros Hlt. unfold models in Hm.
    destruct (distinct [] _) as [|a [|b l]]; simpl in *; try done; lia.
Qed.

Lemma two_models_error_iff_witness :
  Forall (λ i, img_model i ≠ "") (V1.images demo_config1)
  ∧ ((V1.startArena (always 0) demo_config1).2
       = [toast_error
            "Please provide images from exactly two models (use filename prefixes)."]
     ↔ (size (Spec.labels (V1.images demo_config1)) < 2)%nat).
Proof.
  assert (Forall (λ i, img_model i ≠ "") (V1.images demo_config1)) as H.
  { repeat constructor; by vm_compute. }
  split; [exact H |]. by apply (two_models_error_iff (always 0) demo_config1).
Defined.

(** ** Instruction tables *)

Module TableFacts.
Import JsFacts.

Lemma dropLastQuote_snoc s : Js.dropLastQuote (s +:+ String "034" "") = s.
Proof.
  induction s as [|c s IH]; [done |].
  rewrite append_cons.
  destruct s as [|d s]; [by rewrite append_nil_l |].
  rewrite append_cons in IH |- *.
  change (Js.dropLastQuote (String c (String d (s +:+ String "034" ""))))
    with (String c (Js.dropLastQuote (String d (s +:+ String "034" "")))).
  by rewrite IH.
Qed.

Lemma take_app_length s t : Js.take (String.length s) (s +:+ t) = s.
Proof.
  induction s as [|c s IH]; rewrite ?append_cons, ?append_nil_l; simpl.
  - by destruct t.
  - by rewrite IH.
Qed.

Lemma drop_app_length s c r : Js.drop (S (String.length s)) (s +:+ String c r) = r.
Proof. induction s as [|d s IH]; rewrite ?append_cons, ?append_nil_l; simpl; done. Qed.

Lemma indexOf_app c s r :
  Js.count c s = 0 →
  Js.indexOf c (s +:+ String c r) = Z.of_nat (String.length s).
Proof.
  induction s as [|d s IH]; rewrite ?append_cons, ?append_nil_l.
  - intros _. simpl. by rewrite Ascii.eqb_refl.
  - simpl. destruct (Ascii.eqb d c); [done |]. intros H. rewrite (IH H).
    destruct (Z.ltb_spec (Z.of_nat (String.length s)) 0); lia.
Qed.

Lemma csv_rows_none delim lines i0 (m : gmap string string) :
  (∀ j line, lines !! j = Some line → V1.csv_row delim (i0 + j) line = None) →
  V1.csv_rows delim i0 lines m = m.
Proof.
  revert i0. induction lines as [|line lines IH]; intros i0 Hno; simpl; [done |].
  pose proof (Hno 0 line eq_refl) as H0. rewrite Nat.add_0_r in H0. rewrite H0.
  apply IH. intros j l Hl. replace (S i0 + j) with (i0 + S j) by lia. by apply Hno.
Qed.

(** How [split(/\r?\n/)] walks over a character that is no line break. *)
Lemma splitLines_step c r :
  is_newline c = false → r ≠ "" →
  Js.splitLines (String c r) =
  match Js.splitLines r with
  | l :: ls => String c l :: ls
  | [] => [String c ""]
  end.
Proof.
  unfold is_newline. intros [H10 H13]%orb_false_iff Hr.
  destruct r as [|d r]; [done |].
  change (Js.splitLines (String c (String d r))) with
    (if Ascii.eqb c "010" then "" :: Js.splitLines (String d r)
     else if Ascii.eqb c "013" && Ascii.eqb d "010" then "" :: Js.splitLines r
     else match Js.splitLines (String d r) with
          | l :: ls => String c l :: ls
          | [] => [String c ""]
          end).
  by rewrite H10, H13.
Qed.

Lemma splitLines_single l : free_of is_newline l → Js.splitLines l = [l].
Proof.
  unfold free_of. induction l as [|c l IH]; [done |].
  simpl Js.all. intros [Hc Hl]%andb_true_iff. apply negb_true_iff in Hc.
  destruct l as [|d l].
  - unfold is_newline in Hc. apply orb_false_iff in Hc as [H10 _].
    simpl. by rewrite H10.
  - rewrite splitLines_step by done. by rewrite (IH Hl).
Qed.

Lemma splitLines_line l sep rest :
  sep = String "010" "" ∨ sep = String "013" (String "010" "") →
  free_of is_newline l →
  Js.splitLines (l +:+ sep +:+ rest) = l :: Js.splitLines rest.
Proof.
  intros Hsep. unfold free_of. induction l as [|c l IH].
  - intros _. by destruct Hsep as [-> | ->].
  - simpl Js.all. intros [Hc Hl]%andb_true_iff. apply negb_true_iff in Hc.
    rewrite append_cons, splitLines_step, (IH Hl); [done | done |].
    destruct l; by destruct Hsep as [-> | ->].
Qed.

Lemma splitLines_join sep ls :
  sep = String "010" "" ∨ sep = String "013" (String "010" "") →
  ls ≠ [] → Forall (free_of is_newline) ls →
  Js.splitLines (JsMore.join sep ls) = ls.
Proof.
  intros Hsep Hne Hfree. induction Hfree as [|l ls Hl Hls IH]; [done |].
  destruct ls as [|l' ls].
  - by apply splitLines_single.
  - change (JsMore.join sep (l :: l' :: ls))
      with (l +:+ sep +:+ JsMore.join sep (l' :: ls)).
    rewrite splitLines_line by done. by rewrite IH.
Qed.

End TableFacts.

(** X6. Quoting a field and stripping the quotes again gives the field
    back, whatever it holds: only the one quote at each end is removed. *)
Theorem stripQuotes_roundtrip (field : string) :
  Js.stripQuotes (String "034" (field +:+ String "034" "")) = field.
Proof. simpl. apply TableFacts.dropLastQuote_snoc. Qed.

(** X7. A row is split at its first delimiter: what stands before it is
    the id, and everything after it, further delimiters included, is the
    instruction. *)
Theorem row_splits_at_first_delimiter
    (delim : ascii) (i : nat) (raw_id raw_instruction : string) :
  Js.count delim raw_id = 0 →
  V1.csv_row delim i (raw_id +:+ String delim raw_instruction) =
  let id := Js.stripQuotes (Js.trim raw_id) in
  if (i =? 0)%nat && String.eqb (Js.toLowerCase id) "id" then None
  else if Js.is_empty id then None
  else Some (id, Js.stripQuotes (Js.trim raw_instruction)).
Proof.
  intros Hid. unfold V1.csv_row. rewrite (TableFacts.indexOf_app _ _ _ Hid).
  destruct (Z.ltb_spec (Z.of_nat (String.length raw_id)) 0); [lia |].
  unfold Js.slice_to, Js.slice_from.
  rewrite Nat2Z.id, TableFacts.take_app_length.
  replace (Z.to_nat (Z.of_nat (String.length raw_id) + 1))
    with (S (String.length raw_id)) by lia.
  by rewrite TableFacts.drop_app_length.
Qed.

Lemma row_splits_at_first_delimiter_witness :
  Js.count ";" "007" = 0
  ∧ V1.csv_row ";" 1 ("007" +:+ String ";" " a cat; then a dog")
    = Some ("007", "a cat; then a dog").
Proof.
  split; [reflexivity |].
  by rewrite (row_splits_at_first_delimiter ";" 1 "007" " a cat; then a dog").
Defined.

(** X8. A table yields no instruction at all exactly when none of its
    non-blank lines is a data row; that is when the loaders report that no
    instructions were found and leave the lookup as it is. *)
Theorem no_instructions_iff (text : string) :
  V1.parseInstructionsCSV text = ∅
  ↔ ∀ i line,
      List.filter V1.nonblank (Js.splitLines text) !! i = Some line →
      V1.csv_row
        (V1.delimiter (default "" (head (List.filter V1.nonblank (Js.splitLines text)))))
        i line = None.
Proof.
  unfold V1.parseInstructionsCSV.
  destruct (List.filter V1.nonblank (Js.splitLines text)) as [|first rest] eqn:E.
  { split; [by intros _ i line | done]. }
  simpl (default _ _). split.
  - intros Hempty i line Hline.
    destruct (V1.csv_row (V1.delimiter first) i line) as [[id instruction]|] eqn:Hrow;
      [| done].
    exfalso.
    destruct (CsvFacts.csv_rows_registered (V1.delimiter first) (first :: rest) 0 ∅
                i line (V1.normalizeId id) (IdFacts.normalizeId_not_proto id) Hline)
      as [v Hv].
    { exists id, instruction. auto. }
    by rewrite Hempty, lookup_empty in Hv.
  - intros Hno. by apply TableFacts.csv_rows_none.
Qed.

(** X9. Splitting a text into lines undoes joining them, with [\n] as
    with [\r\n], for lines that hold no line break themselves; so a table
    reads the same whichever of the two line endings it was saved with. *)
Theorem line_endings_do_not_matter (lines : list string) :
  lines ≠ [] → Forall (free_of is_newline) lines →
  Js.splitLines (JsMore.join (String "010" "") lines) = lines
  ∧ Js.splitLines (JsMore.join (String "013" (String "010" "")) lines) = lines
  ∧ V1.parseInstructionsCSV (JsMore.join (String "013" (String "010" "")) lines)
    = V1.parseInstructionsCSV (JsMore.join (String "010" "") lines).
Proof.
  intros Hne Hfree.
  pose proof (TableFacts.splitLines_join (String "010" "") lines
                (or_introl eq_refl) Hne Hfree) as E1.
  pose proof (TableFacts.splitLines_join (String "013" (String "010" "")) lines
                (or_intror eq_refl) Hne Hfree) as E2.
  split; [done |]. split; [done |].
  unfold V1.parseInstructionsCSV. by rewrite E1, E2.
Qed.

Lemma line_endings_do_not_matter_witness :
  ["id;instruction"; "001;Draw a cat"] ≠ []
  ∧ Forall (free_of is_newline) ["id;instruction"; "001;Draw a cat"]
  ∧ Js.splitLines
      (JsMore.join (String "013" (String "010" "")) ["id;instruction"; "001;Draw a cat"])
    = ["id;instruction"; "001;Draw a cat"].
Proof.
  assert (Forall (free_of is_newline) ["id;instruction"; "001;Draw a cat"]) as H.
  { repeat constructor. }
  split; [done |]. split; [exact H |].
  by apply (line_endings_do_not_matter ["id;instruction"; "001;Draw a cat"]).
Defined.

(** ** Growing the catalog *)

Module MergeFacts.

Lemma merge_loop_adds (seen : gset string) merged incoming :
  ∃ added,
    merge_loop seen merged incoming = (merged ++ added)%list
    ∧ sublist added incoming
    ∧ NoDup (img_url <$> added)
    ∧ (∀ i, i ∈ added → img_url i ∉ seen)
    ∧ (∀ i, i ∈ incoming → img_url i ∈ seen ∨ img_url i ∈ img_url <$> added).
Proof.
  revert seen merged.
  induction incoming as [|item rest IH]; intros seen merged; simpl.
  - exists []. rewrite app_nil_r. split_and!; try done; try apply NoDup_nil_2; set_solver.
  - case_decide as Hseen.
    + destruct (IH seen merged) as (added & E & Hsub & Hnd & Hnew & Hall).
      exists added. split_and!; try done.
      * by apply sublist_cons.
      * intros i [-> | Hi]%elem_of_cons; auto.
    + destruct (IH ({[img_url item]} ∪ seen) (merged ++ [item])%list)
        as (added & E & Hsub & Hnd & Hnew & Hall).
      exists (item :: added). split_and!.
      * by rewrite E, <- app_assoc.
      * by apply sublist_skip.
      * rewrite fmap_cons. apply NoDup_cons. split; [| done].
        intros (i & Hu & Hi)%list_elem_of_fmap. apply Hnew in Hi. set_solver.
      * intros i [-> | Hi]%elem_of_cons; [done |]. apply Hnew in Hi. set_solver.
      * intros i [-> | Hi]%elem_of_cons; [set_solver |].
        destruct (Hall i Hi) as [Hs | Ha]; set_solver.
Qed.

Lemma merge_loop_known (seen : gset string) merged incoming :
  (∀ i, i ∈ incoming → img_url i ∈ seen) →
  merge_loop seen merged incoming = merged.
Proof.
  induction incoming as [|item rest IH]; intros Hall; simpl; [done |].
  case_decide as Hseen; [apply IH; set_solver |].
  destruct Hseen. apply Hall. set_solver.
Qed.

Lemma distinct_app seen xs ys :
  ∃ rest, distinct seen (xs ++ ys) = (distinct seen xs ++ rest)%list.
Proof.
  revert seen. induction xs as [|x xs IH]; intros seen; simpl.
  - by exists (distinct seen ys).
  - case_decide; [apply IH |].
    destruct (IH (x :: seen)) as [rest ->]. by exists rest.
Qed.

Lemma grouped_thrown images : foldl grouped_step None images = None.
Proof. by induction images. Qed.

Lemma grouped_throws (acc : gmap string (list LoadedImage)) images :
  foldl grouped_step (Some acc) images = None
  ↔ ∃ img, img ∈ images ∧ inherited (img_model img) = true
           ∧ acc !! img_model img = None.
Proof.
  revert acc. induction images as [|img images IH]; intros acc.
  - simpl. split; [done |]. intros (? & ?%elem_of_nil & _). done.
  - cbn [foldl]. unfold grouped_step at 2.
    destruct (acc !! img_model img) as [list|] eqn:Hm;
      [| destruct (inherited (img_model img)) eqn:Hi].
    + rewrite IH. split; intros (i & Hin & Hinh & Hacc).
      * exists i. split; [set_solver |]. split; [done |].
        rewrite lookup_insert in Hacc. by case_decide.
      * apply elem_of_cons in Hin as [-> | Hin]; [congruence |].
        exists i. split; [done |]. split; [done |].
        rewrite lookup_insert. case_decide; [congruence | done].
    + rewrite grouped_thrown. split; [| done]. intros _.
      exists img. split; [set_solver | done].
    + rewrite IH. split; intros (i & Hin & Hinh & Hacc).
      * exists i. split; [set_solver |]. split; [done |].
        rewrite lookup_insert in Hacc. by case_decide.
      * apply elem_of_cons in Hin as [-> | Hin]; [congruence |].
        exists i. split; [done |]. split; [done |].
        rewrite lookup_insert. case_decide; [congruence | done].
Qed.

Lemma grouped_fold (acc map : gmap string (list LoadedImage)) images m :
  foldl grouped_step (Some acc) images = Some map →
  default [] (map !! m)
  = (default [] (acc !! m) ++ filter (λ i, img_model i = m) images)%list
  ∧ (is_Some (map !! m) ↔ is_Some (acc !! m) ∨ m ∈ img_model <$> images).
Proof.
  revert acc. induction images as [|img images IH]; intros acc.
  - simpl. intros [= <-]. rewrite app_nil_r. split; [done |]. set_solver.
  - cbn [foldl]. unfold grouped_step at 2.
    rewrite filter_cons, fmap_cons, elem_of_cons.
    destruct (acc !! img_model img) as [list|] eqn:Hm;
      [| destruct (inherited (img_model img)) eqn:Hi].
    + intros H. destruct (IH _ H) as [-> ->]. rewrite lookup_insert.
      repeat case_decide; simplify_eq/=.
      * rewrite Hm. simpl. rewrite <- app_assoc. split; [done |].
        split; [auto | by eauto].
      * split; [done |]. naive_solver.
    + by rewrite grouped_thrown.
    + intros H. destruct (IH _ H) as [-> ->]. rewrite lookup_insert.
      repeat case_decide; simplify_eq/=.
      * rewrite Hm. simpl. split; [done |]. split; [auto | by eauto].
      * split; [done |]. naive_solver.
Qed.

(** The loop over one more incoming image. *)
Lemma merge_loop_app (seen : gset string) merged l1 l2 :
  merge_loop seen merged (l1 ++ l2)
  = merge_loop (seen ∪ list_to_set (img_url <$> l1)) (merge_loop seen merged l1) l2.
Proof.
  revert seen merged. induction l1 as [|item l1 IH]; intros seen merged; simpl.
  - by rewrite union_empty_r_L.
  - case_decide as Hseen; rewrite IH; f_equal; set_solver.
Qed.

Lemma merge_adds (existing incoming : list LoadedImage) :
  ∃ added,
    mergeUniqueByUrl existing incoming = (existing ++ added)%list
    ∧ sublist added incoming
    ∧ NoDup (img_url <$> added)
    ∧ (∀ i, i ∈ added → img_url i ∉ img_url <$> existing)
    ∧ (∀ i, i ∈ incoming →
         img_url i ∈ img_url <$> mergeUniqueByUrl existing incoming).
Proof.
  unfold mergeUniqueByUrl.
  destruct (merge_loop_adds (list_to_set (img_url <$> existing))
              existing incoming) as (added & E & Hsub & Hnd & Hnew & Hall).
  exists added. split_and!; try done.
  - intros i Hi. apply Hnew in Hi. set_solver.
  - intros i Hi. rewrite E, fmap_app, elem_of_app.
    destruct (Hall i Hi); set_solver.
Qed.

Lemma merge_NoDup (existing incoming : list LoadedImage) :
  NoDup (img_url <$> existing) →
  NoDup (img_url <$> mergeUniqueByUrl existing incoming).
Proof.
  intros Hnd.
  destruct (merge_adds existing incoming) as (added & -> & _ & Hadded & Hnew & _).
  rewrite fmap_app. apply NoDup_app. split_and!; [done | | done].
  intros u Hu (i & -> & Hi)%list_elem_of_fmap. by apply (Hnew i).
Qed.

(** No event but a load touches the catalog of the current revision. *)
Lemma step_images1 e st :
  V1.images (V1.step e st).1 = V1.images st
  ∨ ∃ imgs, V1.images (V1.step e st).1 = mergeUniqueByUrl (V1.images st) imgs.
Proof.
  destruct e as [g|c|key| | |imgs|text]; simpl.
  - destruct (V1.phase st); auto. destruct (V1.images st) eqn:Hi; auto.
    rewrite <- Hi.
    destruct (StartFacts.startArena_cases g st)
      as [[E _]|[(A & B & _ & _ & _ & _ & E)|(A & B & _ & _ & _ & _ & E)]];
      rewrite E; auto.
  - destruct (V1.phase st); auto. destruct (V1.justVoted st); auto.
    unfold V1.vote. destruct (V1.pairs st !! V1.current st); auto.
    destruct (negb _); auto.
  - unfold V1.handleKeyDown, V1.vote.
    destruct (V1.phase st); auto.
    destruct (String.eqb key "ArrowLeft");
      [| destruct (String.eqb key "ArrowRight")];
      destruct (V1.pairs st !! V1.current st); auto;
      destruct (negb _); auto.
  - destruct (V1.timers st) as [|t rest]; auto.
    unfold V1.timeout_callback.
    destruct (V1.pairs_length t <=? V1.next_round t)%nat; auto.
    unfold V1.finish. destruct (V1.closure_models t). auto.
  - destruct (V1.phase st); auto.
  - eauto.
  - destruct (size (V1.parseInstructionsCSV text) =? 0)%nat; auto.
Qed.

Lemma run_images1 es st :
  NoDup (img_url <$> V1.images st) →
  NoDup (img_url <$> V1.images (V1.run es st).1).
Proof.
  revert st. induction es as [|e es IH]; intros st Hst; simpl; [done |].
  assert (NoDup (img_url <$> V1.images (V1.step e st).1)) as Hstep.
  { destruct (step_images1 e st) as [-> | [imgs ->]]; [done |].
    by apply merge_NoDup. }
  destruct (V1.step e st) as [st' out].
  specialize (IH st' Hstep).
  by destruct (V1.run es st') as [st'' out'].
Qed.

Section Engine.

Variable random_sort : list string → Rng → list string * Rng.

Lemma step_images2 e st :
  V2.images (V2.step random_sort e st).1 = V2.images st
  ∨ V2.images (V2.step random_sort e st).1 = []
  ∨ ∃ imgs,
      V2.images (V2.step random_sort e st).1 = mergeUniqueByUrl (V2.images st) imgs.
Proof.
  destruct e as [g|c| | |value|imgs]; simpl.
  - destruct (V2.phase st); auto. destruct (V2.images st) eqn:Hi; auto.
    rewrite <- Hi.
    destruct (StartFacts.startArena2_cases random_sort g st)
      as [[E _]|[(A & B & _ & _ & _ & _ & E)|(A & B & _ & _ & _ & _ & E)]];
      rewrite E; auto.
  - destruct (V2.phase st); auto.
    unfold V2.vote. destruct (V2.pairs st !! V2.current st); auto.
    destruct (negb _); auto.
    cbn [V2.pairs V2.setVotes V2.current].
    destruct (_ <=? _)%nat; auto.
    rewrite EarlierBound.earlier_finish_state. auto.
  - destruct (V2.phase st); auto.
  - destruct (V2.phase st); auto. destruct (V2.images st) eqn:Hi; auto.
  - destruct (V2.phase st); auto.
  - eauto.
Qed.

Lemma run_images2 es st :
  NoDup (img_url <$> V2.images st) →
  NoDup (img_url <$> V2.images (V2.run random_sort es st).1).
Proof.
  revert st. induction es as [|e es IH]; intros st Hst; simpl; [done |].
  assert (NoDup (img_url <$> V2.images (V2.step random_sort e st).1)) as Hstep.
  { destruct (step_images2 e st) as [-> | [-> | [imgs ->]]];
      [done | apply NoDup_nil_2 | by apply merge_NoDup]. }
  destruct (V2.step random_sort e st) as [st' out].
  specialize (IH st' Hstep).
  by destruct (V2.run random_sort es st') as [st'' out'].
Qed.

End Engine.

End MergeFacts.

(** X10. Merging keeps the catalog as it was and appends a selection of
    the incoming images, in their order: an incoming image is appended
    exactly when its address occurs neither in the catalog nor earlier
    among the incoming images, so of several with one address the first is
    the one kept.  Every incoming address is in the catalog afterwards. *)
Theorem merge_appends_the_new_addresses (existing incoming : list LoadedImage) :
  (∃ added,
     mergeUniqueByUrl existing incoming = (existing ++ added)%list
     ∧ sublist added incoming
     ∧ NoDup (img_url <$> added)
     ∧ (∀ i, i ∈ added → img_url i ∉ img_url <$> existing)
     ∧ (∀ i, i ∈ incoming →
          img_url i ∈ img_url <$> mergeUniqueByUrl existing incoming))
  ∧ mergeUniqueByUrl existing [] = existing
  ∧ (∀ earlier i,
       incoming = (earlier ++ [i])%list →
       mergeUniqueByUrl existing incoming
       = if decide (img_url i ∈ img_url <$> (existing ++ earlier)%list)
         then mergeUniqueByUrl existing earlier
         else (mergeUniqueByUrl existing earlier ++ [i])%list).
Proof.
  split; [apply MergeFacts.merge_adds |]. split; [done |].
  intros earlier i ->. unfold mergeUniqueByUrl.
  rewrite MergeFacts.merge_loop_app. simpl.
  repeat case_decide; try done; exfalso; set_solver.
Qed.

Lemma merge_appends_the_new_addresses_witness :
  mergeUniqueByUrl
    [V1.loadImage public "/images/beta_001.png" "beta_001.png"]
    [V1.loadImage public "/images/alpha_001.png" "alpha_001.png";
     V1.loadImage public "/images/alpha_001.png" "alpha_001.png";
     V1.loadImage public "/images/beta_001.png" "beta_001.png"]
  = [V1.loadImage public "/images/beta_001.png" "beta_001.png";
     V1.loadImage public "/images/alpha_001.png" "alpha_001.png"].
Proof.
  set (b := V1.loadImage public "/images/beta_001.png" "beta_001.png").
  set (a := V1.loadImage public "/images/alpha_001.png" "alpha_001.png").
  destruct (merge_appends_the_new_addresses [b] [a; a; b]) as (_ & _ & H3).
  destruct (merge_appends_the_new_addresses [b] [a; a]) as (_ & _ & H2).
  destruct (merge_appends_the_new_addresses [b] [a]) as (_ & _ & H1).
  destruct (merge_appends_the_new_addresses [b] []) as (_ & H0 & _).
  rewrite (H3 [a; a] b eq_refl), (H2 [a] a eq_refl), (H1 [] a eq_refl), H0.
  by vm_compute.
Defined.

(** X11. Whatever happens to the mounted component, in either revision,
    its catalog never holds two images with the same address. *)
Theorem catalog_addresses_stay_distinct
    (random_sort : list string → Rng → list string * Rng)
    (es1 : list V1.Event) (es2 : list V2.Event) (defaultRounds : nat) :
  NoDup (img_url <$> V1.images (V1.run es1 (V1.initial defaultRounds)).1)
  ∧ NoDup (img_url <$>
             V2.images (V2.run random_sort es2 (V2.initial defaultRounds)).1).
Proof.
  split.
  - apply MergeFacts.run_images1. apply NoDup_nil_2.
  - apply MergeFacts.run_images2. apply NoDup_nil_2.
Qed.

(** X12. Loading the same images a second time changes nothing. *)
Theorem merging_again_adds_nothing (existing incoming : list LoadedImage) :
  mergeUniqueByUrl (mergeUniqueByUrl existing incoming) incoming
  = mergeUniqueByUrl existing incoming.
Proof.
  destruct (MergeFacts.merge_adds existing incoming) as (_ & _ & _ & _ & _ & Hall).
  unfold mergeUniqueByUrl at 1. apply MergeFacts.merge_loop_known.
  intros i Hi. rewrite elem_of_list_to_set. by apply Hall.
Qed.

(** X13. Images that arrive later never displace a detected model: the
    labels detected before a merge are the first labels detected after
    it, so once two models are detected they stay the two contestants. *)
Theorem detected_models_are_kept (existing incoming : list LoadedImage) :
  models existing `prefix_of` models (mergeUniqueByUrl existing incoming)
  ∧ (List.length (models existing) = 2 →
     models (mergeUniqueByUrl existing incoming) = models existing).
Proof.
  destruct (MergeFacts.merge_adds existing incoming) as (added & -> & _).
  unfold models. rewrite fmap_app.
  destruct (MergeFacts.distinct_app [] (img_model <$> existing) (img_model <$> added))
    as [rest ->].
  split.
  - destruct (distinct [] (img_model <$> existing)) as [|a [|b l]]; simpl.
    + apply prefix_nil.
    + destruct rest; [done |]. by exists [s].
    + done.
  - rewrite length_take. intros Hlen. apply take_app_le. lia.
Qed.

(** X14. The per-model listing throws exactly when some label of the
    catalog names something a plain object inherits; otherwise it files
    every image under its own model, in catalog order: a model's entry
    holds exactly the catalog's images of that model, and there is an entry
    for exactly the labels that occur. *)
Theorem grouped_by_model (images : list LoadedImage) :
  (grouped images = None
   ↔ ∃ img, img ∈ images ∧ inherited (img_model img) = true)
  ∧ ∀ map m,
      grouped images = Some map →
      default [] (map !! m) = filter (λ i, img_model i = m) images
      ∧ (is_Some (map !! m) ↔ m ∈ img_model <$> images).
Proof.
  unfold grouped. split.
  - rewrite MergeFacts.grouped_throws. split.
    + intros (img & ? & ? & _). by exists img.
    + intros (img & ? & ?). exists img. by rewrite lookup_empty.
  - intros map m H.
    destruct (MergeFacts.grouped_fold ∅ map images m H) as [E1 E2].
    rewrite E1, E2, lookup_empty. split; [done |].
    split; [by intros [[? [=]] | ?] | auto].
Qed.

Lemma grouped_by_model_witness :
  grouped [V1.loadImage public "/images/constructor_001.png" "constructor_001.png"]
  = None
  ∧ ∃ map,
      grouped shared_catalog = Some map
      ∧ default [] (map !! "alpha")
        = filter (λ i, img_model i = "alpha") shared_catalog
      ∧ is_Some (map !! "alpha").
Proof.
  split.
  - apply (proj1 (grouped_by_model _)).
    eexists. split; [apply list_elem_of_here | by vm_compute].
  - destruct (grouped shared_catalog) as [map|] eqn:E; [| by vm_compute in E].
    exists map. split; [done |].
    destruct (proj2 (grouped_by_model shared_catalog) map "alpha" E) as [H1 H2].
    split; [exact H1 |].
    apply H2, list_elem_of_In. vm_compute. by left.
Defined.

(** ** The shuffle and the pairs of a session *)

Module PairFacts.
Import CatalogFacts StartFacts.

Lemma shuffle_loop_draws {T} i (a : list T) g n :
  (V1.shuffle_loop i a g).2 n = g (n + i).
Proof.
  revert a g n. induction i as [|i IH]; intros a g n; simpl.
  - by rewrite Nat.add_0_r.
  - rewrite IH. f_equal. lia.
Qed.

(** Which image a lookup table holds under an id: the last one loaded. *)
Lemma last_loaded_cons m k img images :
  last_loaded m k (img :: images) =
  match last_loaded m k images with
  | Some i => Some i
  | None => if decide (img_model img = m ∧ img_id img = k) then Some img else None
  end.
Proof.
  unfold last_loaded. rewrite filter_cons.
  case_decide; [| by destruct (last _)].
  rewrite last_cons. by destruct (last _).
Qed.

Lemma build_maps_lookup A B images a b k :
  A ≠ B → plain_ids images →
  own (build_maps A B images (a, b)).1 !! k
  = from_option Some (own a !! k) (last_loaded A k images)
  ∧ own (build_maps A B images (a, b)).2 !! k
    = from_option Some (own b !! k) (last_loaded B k images).
Proof.
  intros HAB Hplain. revert a b.
  induction Hplain as [|img images Himg _ IH]; intros a b; [done |].
  rewrite !last_loaded_cons. simpl.
  rewrite (CatalogFacts.table_set_plain _ img a Himg).
  rewrite (CatalogFacts.table_set_plain _ img b Himg).
  destruct (decide (img_model img = A)) as [HA|HA];
    [| destruct (decide (img_model img = B)) as [HB|HB]];
    match goal with
    | |- context [build_maps _ _ _ (?x, ?y)] => destruct (IH x y) as [-> ->]
    end;
    destruct (last_loaded A k images), (last_loaded B k images);
    simpl; rewrite ?lookup_insert; repeat case_decide; naive_solver.
Qed.

Lemma tables_lookup A B images k :
  A ≠ B → plain_ids images →
  own (tables A B images).1 !! k = last_loaded A k images
  ∧ own (tables A B images).2 !! k = last_loaded B k images.
Proof.
  intros HAB Hplain. unfold tables.
  destruct (build_maps_lookup A B images empty_table empty_table k HAB Hplain)
    as [-> ->].
  simpl. rewrite !lookup_empty.
  by destruct (last_loaded A k images), (last_loaded B k images).
Qed.

(** The left sides of the pairs carry the ids the loop was given, in
    order, when both reads under each id return an image filed under it. *)
Lemma make_pairs_judged map1 map2 order g :
  Forall (both_filed map1 map2) order →
  judged_ids (V1.make_pairs map1 map2 order g).1 = Some <$> order.
Proof.
  intros Hall. revert g.
  induction Hall as [|k order (a & b & Ea & Eb & Ha & Hb) _ IH]; intros g; simpl;
    [done |].
  specialize (IH (λ n, g (S n))).
  destruct (V1.make_pairs map1 map2 order _) as [ps g']. simpl in IH.
  unfold judged_ids in *. rewrite Ea, Eb.
  destruct (below_half (g 0)); cbn [fst]; rewrite fmap_cons, IH; simpl;
    by rewrite ?Ha, ?Hb.
Qed.

Lemma make_pairs2_judged map1 map2 maxRounds i order g :
  Forall (both_filed map1 map2) order →
  ∃ n, judged_ids (V2.make_pairs map1 map2 maxRounds i order g).1
       = Some <$> take n order.
Proof.
  intros Hall. revert i g.
  induction Hall as [|k order (a & b & Ea & Eb & Ha & Hb) _ IH]; intros i g; simpl.
  - by exists 0.
  - destruct (Qlt_le_dec _ _); [| by exists 0].
    destruct (IH (S i) (λ n, g (S n))) as [n Hn].
    destruct (V2.make_pairs map1 map2 maxRounds (S i) order _) as [ps g'].
    simpl in Hn. exists (S n).
    unfold judged_ids in *. rewrite Ea, Eb.
    destruct (below_half (g 0)); cbn [fst]; rewrite fmap_cons, Hn; simpl;
      by rewrite ?Ha, ?Hb.
Qed.

Lemma matched_filed A B images :
  A ≠ B → plain_ids images →
  ∀ k, k ∈ matched A B images →
       both_filed (tables A B images).1 (tables A B images).2 k.
Proof.
  intros HAB Hplain k Hk.
  destruct (matched_in_tables A B images k HAB Hplain Hk)
    as (a & b & Ea & Eb & _ & _ & Ha & Hb).
  by exists a, b.
Qed.

Lemma started1_judged g A B st :
  A ≠ B → plain_ids (V1.images st) →
  ∃ ids, judged_ids (V1.pairs (started1 g A B st)) = Some <$> ids
         ∧ ids ≡ₚ matched A B (V1.images st).
Proof.
  intros HAB Hplain. unfold started1. simpl.
  eexists. split; [| apply shuffleArray_perm].
  apply make_pairs_judged, Forall_forall. intros k Hk.
  rewrite shuffleArray_perm in Hk. by apply matched_filed.
Qed.

Section EarlierRevision.

Variable random_sort : list string → Rng → list string * Rng.
Hypothesis random_sort_perm : ∀ l g, (random_sort l g).1 ≡ₚ l.

Lemma started2_judged g A B st :
  A ≠ B → plain_ids (V2.images st) →
  ∃ ids dropped,
    judged_ids (V2.pairs (started2 random_sort g A B st)) = Some <$> ids
    ∧ (ids ++ dropped)%list ≡ₚ matched A B (V2.images st).
Proof.
  intros HAB Hplain. unfold started2. simpl.
  assert (Forall (both_filed (tables A B (V2.images st)).1 (tables A B (V2.images st)).2)
            (random_sort (matched A B (V2.images st)) g).1) as Hall.
  { apply Forall_forall. intros k Hk.
    rewrite random_sort_perm in Hk. by apply matched_filed. }
  destruct (make_pairs2_judged _ _
              (V2.number_min (V2.rounds st)
                 (inject_Z (Z.of_nat
                    (List.length (random_sort (matched A B (V2.images st)) g).1))))
              0 _ (random_sort (matched A B (V2.images st)) g).2 Hall) as [n Hn].
  eexists _, _. split; [exact Hn |].
  rewrite take_drop. apply random_sort_perm.
Qed.

End EarlierRevision.

End PairFacts.

(** X15. The shuffle returns its input in another order, nothing lost and
    nothing repeated, and draws one random number for each position but the
    first. *)
Theorem shuffle_permutes {T} (items : list T) (g : Rng) :
  (V1.shuffleArray items g).1 ≡ₚ items
  ∧ ∀ n, (V1.shuffleArray items g).2 n = g (n + (List.length items - 1)).
Proof.
  split; [apply CatalogFacts.shuffle_loop_perm |].
  intros n. apply PairFacts.shuffle_loop_draws.
Qed.

(** X16. When no id of the catalog names something a plain object
    inherits, a session of the current revision judges every matched id
    exactly once: the left sides of its pairs carry ids that are all
    different, and they are the ids the two models share. *)
Theorem each_matched_id_is_judged_once (g : Rng) (st : V1.State) :
  plain_ids (V1.images st) →
  (V1.startArena g st).2 = [] →
  ∃ A B ids,
    models (V1.images st) = [A; B]
    ∧ judged_ids (V1.pairs (V1.startArena g st).1) = Some <$> ids
    ∧ NoDup ids
    ∧ (list_to_set ids : gset string)
      = Spec.ids_of A (V1.images st) ∩ Spec.ids_of B (V1.images st).
Proof.
  intros Hplain Hok.
  destruct (StartFacts.startArena_cases g st)
    as [[E _]|[(A & B & _ & _ & _ & _ & E)|(A & B & Hm & _ & _ & _ & E)]];
    rewrite E in Hok |- *; try done.
  pose proof (CatalogFacts.models_distinct _ _ _ Hm) as HAB.
  destruct (PairFacts.started1_judged g A B st HAB Hplain) as (ids & Hj & Hperm).
  exists A, B, ids. split; [done |]. split; [exact Hj |]. split.
  - rewrite Hperm. apply StartFacts.matched_NoDup.
  - rewrite <- (StartFacts.matched_set A B _ HAB Hplain).
    apply set_eq. intros k. rewrite !elem_of_list_to_set. by rewrite Hperm.
Qed.

Lemma each_matched_id_is_judged_once_witness :
  plain_ids (V1.images one_round_planned)
  ∧ (V1.startArena (always 0) one_round_planned).2 = []
  ∧ ∃ A B ids,
      models (V1.images one_round_planned) = [A; B]
      ∧ judged_ids (V1.pairs (V1.startArena (always 0) one_round_planned).1)
        = Some <$> ids
      ∧ NoDup ids
      ∧ (list_to_set ids : gset string)
        = Spec.ids_of A (V1.images one_round_planned)
          ∩ Spec.ids_of B (V1.images one_round_planned).
Proof.
  assert (plain_ids (V1.images one_round_planned)) as Hplain.
  { repeat constructor. }
  split; [exact Hplain |]. split; [by vm_compute |].
  apply (each_matched_id_is_judged_once (always 0) one_round_planned Hplain).
  by vm_compute.
Defined.

(** X17. In the earlier revision, whose sort is the engine's, a session
    over a catalog with plain ids judges matched ids only and none of them
    twice, provided the sort returns a permutation of what it is given. *)
Theorem earlier_judges_no_id_twice
    (random_sort : list string → Rng → list string * Rng)
    (g : Rng) (st : V2.State) :
  (∀ l g', (random_sort l g').1 ≡ₚ l) →
  plain_ids (V2.images st) →
  (V2.startArena random_sort g st).2 = [] →
  ∃ A B ids,
    models (V2.images st) = [A; B]
    ∧ judged_ids (V2.pairs (V2.startArena random_sort g st).1) = Some <$> ids
    ∧ NoDup ids
    ∧ (list_to_set ids : gset string)
      ⊆ Spec.ids_of A (V2.images st) ∩ Spec.ids_of B (V2.images st).
Proof.
  intros Hperm Hplain Hok.
  destruct (StartFacts.startArena2_cases random_sort g st)
    as [[E _]|[(A & B & _ & _ & _ & _ & E)|(A & B & Hm & _ & _ & _ & E)]];
    rewrite E in Hok |- *; try done.
  pose proof (CatalogFacts.models_distinct _ _ _ Hm) as HAB.
  destruct (PairFacts.started2_judged random_sort Hperm g A B st HAB Hplain)
    as (ids & dropped & Hj & Hd).
  exists A, B, ids. split; [done |]. split; [exact Hj |].
  pose proof (StartFacts.matched_NoDup A B (V2.images st)) as Hnd.
  rewrite <- Hd in Hnd. apply NoDup_app in Hnd as (Hnd & _ & _).
  split; [done |].
  rewrite <- (StartFacts.matched_set A B _ HAB Hplain).
  intros k Hk%elem_of_list_to_set. apply elem_of_list_to_set.
  assert (k ∈ (ids ++ dropped)%list) as Hin by (apply elem_of_app; auto).
  by rewrite Hd in Hin.
Qed.

Lemma earlier_judges_no_id_twice_witness :
  (∀ l g', (keep_order l g').1 ≡ₚ l)
  ∧ plain_ids (V2.images shared_config2)
  ∧ (V2.startArena keep_order (always 0) shared_config2).2 = []
  ∧ ∃ A B ids,
      models (V2.images shared_config2) = [A; B]
      ∧ judged_ids (V2.pairs (V2.startArena keep_order (always 0) shared_config2).1)
        = Some <$> ids
      ∧ NoDup ids
      ∧ (list_to_set ids : gset string)
        ⊆ Spec.ids_of A (V2.images shared_config2)
          ∩ Spec.ids_of B (V2.images shared_config2).
Proof.
  assert (∀ l (g' : Rng), (keep_order l g').1 ≡ₚ l) as Hperm by done.
  assert (plain_ids (V2.images shared_config2)) as Hplain.
  { repeat constructor. }
  split; [exact Hperm |]. split; [exact Hplain |]. split; [by vm_compute |].
  apply (earlier_judges_no_id_twice keep_order (always 0) shared_config2 Hperm Hplain).
  by vm_compute.
Defined.

(** X18. When several files carry the same model and id, and no id of the
    catalog names something a plain object inherits, the file loaded last
    is the one shown: each side of every pair is the last image of the
    catalog with that side's model and id. *)
Theorem later_file_wins (g : Rng) (st : V1.State) :
  plain_ids (V1.images st) →
  (V1.startArena g st).2 = [] →
  Forall (λ p,
            ∃ a b, left p = image a ∧ right p = image b
                   ∧ last_loaded (img_model a) (img_id a) (V1.images st) = Some a
                   ∧ last_loaded (img_model b) (img_id b) (V1.images st) = Some b)
    (V1.pairs (V1.startArena g st).1).
Proof.
  intros Hplain Hok.
  destruct (StartFacts.startArena_cases g st)
    as [[E _]|[(A & B & _ & _ & _ & _ & E)|(A & B & Hm & _ & _ & _ & E)]];
    rewrite E in Hok |- *; try done.
  pose proof (CatalogFacts.models_distinct _ _ _ Hm) as HAB.
  unfold started1. simpl.
  eapply Forall_impl; [apply StartFacts.make_pairs_from_tables |].
  intros p (k & Hk & Hsides). rewrite CatalogFacts.shuffleArray_perm in Hk.
  destruct (StartFacts.matched_in_tables A B _ k HAB Hplain Hk)
    as (a & b & Ea & Eb & HA & HB & Ha & Hb).
  destruct (PairFacts.tables_lookup A B (V1.images st) k HAB Hplain) as [L1 L2].
  assert (plain k) as Hplain_k.
  { assert (k ∈ Spec.ids_of A (V1.images st) ∩ Spec.ids_of B (V1.images st)) as Hin.
    { rewrite <- (StartFacts.matched_set A B _ HAB Hplain).
      by apply elem_of_list_to_set. }
    apply elem_of_intersection in Hin as [Hin _]. revert Hin.
    unfold Spec.ids_of. rewrite elem_of_list_to_set.
    intros (i & -> & Hi%list_elem_of_filter)%list_elem_of_fmap.
    destruct Hi as [_ Hi]. by apply (proj1 (Forall_forall _ _) Hplain). }
  destruct (CatalogFacts.build_maps_plain A B (V1.images st) empty_table empty_table
              HAB Hplain) as (_ & _ & P1 & P2).
  fold (tables A B (V1.images st)) in P1, P2. simpl in P1, P2.
  rewrite (CatalogFacts.plain_get k _ Hplain_k P1) in Ea.
  rewrite (CatalogFacts.plain_get k _ Hplain_k P2) in Eb.
  rewrite L1 in Ea. rewrite L2 in Eb.
  assert (last_loaded (img_model a) (img_id a) (V1.images st) = Some a) as La.
  { rewrite HA, Ha. destruct (last_loaded A k (V1.images st)); by simplify_eq/=. }
  assert (last_loaded (img_model b) (img_id b) (V1.images st) = Some b) as Lb.
  { rewrite HB, Hb. destruct (last_loaded B k (V1.images st)); by simplify_eq/=. }
  assert (table_get k (tables A B (V1.images st)).1 = image a) as Ga.
  { rewrite (CatalogFacts.plain_get k _ Hplain_k P1), L1.
    destruct (last_loaded A k (V1.images st)); by simplify_eq/=. }
  assert (table_get k (tables A B (V1.images st)).2 = image b) as Gb.
  { rewrite (CatalogFacts.plain_get k _ Hplain_k P2), L2.
    destruct (last_loaded B k (V1.images st)); by simplify_eq/=. }
  rewrite Ga, Gb in Hsides.
  destruct Hsides as [[Hl Hr]|[Hr Hl]].
  - by exists a, b.
  - by exists b, a.
Qed.

Lemma later_file_wins_witness :
  plain_ids (V1.images duplicate_config)
  ∧ (V1.startArena (always 0) duplicate_config).2 = []
  ∧ V1.pairs (V1.startArena (always 0) duplicate_config).1
    = [{| left := image (V1.loadImage public "/images/alpha-001.png" "alpha-001.png");
          right := image (V1.loadImage public "/images/beta_001.png" "beta_001.png") |}]
  ∧ Forall (λ p,
              ∃ a b, left p = image a ∧ right p = image b
                     ∧ last_loaded (img_model a) (img_id a) (V1.images duplicate_config)
                       = Some a
                     ∧ last_loaded (img_model b) (img_id b) (V1.images duplicate_config)
                       = Some b)
      (V1.pairs (V1.startArena (always 0) duplicate_config).1).
Proof.
  assert (plain_ids (V1.images duplicate_config)) as Hplain.
  { repeat constructor. }
  split; [exact Hplain |]. split; [by vm_compute |]. split; [by vm_compute |].
  apply (later_file_wins (always 0) duplicate_config Hplain). by vm_compute.
Defined.

(** ** The overall winner *)

Module WinnerFacts.

Section TwoModels.

Variables A B : string.
Hypothesis distinct_labels : A ≠ B.
Hypothesis A_nonempty : A ≠ "".
Hypothesis B_nonempty : B ≠ "".

Lemma wins_for_cons {C} m (v : Vote C) votes :
  wins_for m (v :: votes) =
  ((if decide (winnerModel v = Some m) then 1 else 0) + wins_for m votes)%nat.
Proof. unfold wins_for. rewrite filter_cons. by case_decide. Qed.

Lemma increment_counts m wins a b :
  m = A ∨ m = B →
  wins !! A = Some (Num a) → wins !! B = Some (Num b) →
  increment m wins !! A = Some (Num ((if decide (Some m = Some A) then 1 else 0) + a))
  ∧ increment m wins !! B = Some (Num ((if decide (Some m = Some B) then 1 else 0) + b)).
Proof.
  intros [-> | ->] Ha Hb.
  - rewrite (TallyFacts.increment_present _ _ _ Ha).
    rewrite lookup_insert_eq, lookup_insert_ne by done.
    by repeat case_decide; try congruence.
  - rewrite (TallyFacts.increment_present _ _ _ Hb).
    rewrite lookup_insert_eq, lookup_insert_ne by done.
    by repeat case_decide; try congruence.
Qed.

Lemma tally1_counts votes wins a b :
  Forall (Spec.recorded1 A B) votes →
  wins !! A = Some (Num a) → wins !! B = Some (Num b) →
  foldl V1.tally wins votes !! A = Some (Num (a + wins_for A votes))
  ∧ foldl V1.tally wins votes !! B = Some (Num (b + wins_for B votes)).
Proof.
  intros Hvotes. revert wins a b.
  induction Hvotes as [|v votes Hv _ IH]; intros wins a b Ha Hb.
  - unfold wins_for. simpl. by rewrite !Nat.add_0_r.
  - cbn [foldl]. rewrite !wins_for_cons.
    assert (∃ m, winnerModel v = Some m ∧ (m = A ∨ m = B)) as (m & Hm & HmAB).
    { destruct (TallyFacts.recorded1_winner _ _ _ Hv) as [H|H]; eauto. }
    assert (V1.tally wins v = increment m wins) as ->.
    { unfold V1.tally. rewrite Hm.
      assert (truthy (Some m) = true) as ->; [| done].
      apply StartFacts.truthy_some. by destruct HmAB as [-> | ->]. }
    destruct (increment_counts m wins a b HmAB Ha Hb) as [Ha1 Hb1].
    destruct (IH _ _ _ Ha1 Hb1) as [-> ->]. rewrite Hm.
    split; do 2 f_equal; lia.
Qed.

Lemma chosen_cons {C} (p : C → bool) (v : Vote C) votes :
  chosen p (v :: votes) = ((if p (choice v) then 1 else 0) + chosen p votes)%nat.
Proof. unfold chosen. simpl. by destruct (p (choice v)). Qed.

Lemma tally2_counts votes wins t bb a b :
  Forall (Spec.recorded2 A B) votes →
  wins !! A = Some (Num a) → wins !! B = Some (Num b) →
  ∃ wins',
    foldl V2.tally (wins, t, bb) votes
    = (wins', t + chosen is_tie votes, bb + chosen is_both votes)
    ∧ wins' !! A = Some (Num (a + wins_for A votes))
    ∧ wins' !! B = Some (Num (b + wins_for B votes)).
Proof.
  intros Hvotes. revert wins t bb a b.
  induction Hvotes as [|v votes Hv _ IH]; intros wins t bb a b Ha Hb.
  - exists wins. unfold wins_for, chosen. simpl. by rewrite !Nat.add_0_r.
  - cbn [foldl]. rewrite !wins_for_cons, !chosen_cons.
    destruct Hv as (n & c & p & Hp & ->).
    destruct (TallyFacts.pair_between_models _ _ _ Hp) as [Hl Hr].
    destruct c.
    + assert (∃ m, get_model (left p) = Some m ∧ (m = A ∨ m = B))
        as (m & Hm & HmAB).
      { destruct Hl as [H|H]; eauto. }
      assert (V2.tally (wins, t, bb) (V2.ballot n V2.choose_left p)
              = (increment m wins, t, bb)) as ->.
      { unfold V2.tally. simpl choice. simpl winnerModel. rewrite Hm.
        assert (truthy (Some m) = true) as ->; [| done].
        apply StartFacts.truthy_some. by destruct HmAB as [-> | ->]. }
      destruct (increment_counts _ wins a b HmAB Ha Hb) as [Ha1 Hb1].
      destruct (IH _ t bb _ _ Ha1 Hb1) as (wins' & E & Ha' & Hb').
      exists wins'. rewrite E, Ha', Hb'. simpl. rewrite Hm.
      split_and!; do 2 f_equal; lia.
    + assert (∃ m, get_model (right p) = Some m ∧ (m = A ∨ m = B))
        as (m & Hm & HmAB).
      { destruct Hr as [H|H]; eauto. }
      assert (V2.tally (wins, t, bb) (V2.ballot n V2.choose_right p)
              = (increment m wins, t, bb)) as ->.
      { unfold V2.tally. simpl choice. simpl winnerModel. rewrite Hm.
        assert (truthy (Some m) = true) as ->; [| done].
        apply StartFacts.truthy_some. by destruct HmAB as [-> | ->]. }
      destruct (increment_counts _ wins a b HmAB Ha Hb) as [Ha1 Hb1].
      destruct (IH _ t bb _ _ Ha1 Hb1) as (wins' & E & Ha' & Hb').
      exists wins'. rewrite E, Ha', Hb'. simpl. rewrite Hm.
      split_and!; do 2 f_equal; lia.
    + assert (V2.tally (wins, t, bb) (V2.ballot n V2.choose_tie p) = (wins, S t, bb))
        as -> by reflexivity.
      destruct (IH wins (S t) bb a b Ha Hb) as (wins' & E & Ha' & Hb').
      exists wins'. rewrite E, Ha', Hb'. simpl. split_and!; do 2 f_equal; lia.
    + assert (V2.tally (wins, t, bb) (V2.ballot n V2.choose_both p) = (wins, t, S bb))
        as -> by reflexivity.
      destruct (IH wins t (S bb) a b Ha Hb) as (wins' & E & Ha' & Hb').
      exists wins'. rewrite E, Ha', Hb'. simpl. split_and!; do 2 f_equal; lia.
Qed.

End TwoModels.

End WinnerFacts.

(** X19. The current revision exports, for each of the two models, the
    number of rounds it won, and names as the overall winner the model
    with more wins; equal counts, also none at all, give a tie. *)
Theorem overall_winner_has_more_wins
    (A B : string) (planned : nat) (st : V1.State) :
  A ≠ B → A ≠ "" → B ≠ "" →
  Forall (Spec.recorded1 A B) (V1.votesRef st) →
  ∃ msg data,
    V1.finish (Some A, Some B) planned st
    = (V1.setPhase results st,
       [toast_success msg;
        downloadJSON data
          (overall A B (wins_for A (V1.votesRef st)) (wins_for B (V1.votesRef st)))])
    ∧ winsByModel data !! A = Some (Num (wins_for A (V1.votesRef st)))
    ∧ winsByModel data !! B = Some (Num (wins_for B (V1.votesRef st))).
Proof.
  intros HAB HA HB Hvotes.
  destruct (TallyFacts.fresh_counters A B HAB) as [Ha0 Hb0].
  destruct (WinnerFacts.tally1_counts A B HAB HA HB _ _ 0 0 Hvotes Ha0 Hb0)
    as [Ha Hb].
  unfold V1.finish. simpl key_of. rewrite Ha, Hb.
  eexists _, _. split; [reflexivity |]. simpl. split; [exact Ha | exact Hb].
Qed.

Lemma overall_winner_has_more_wins_witness :
  "alpha" ≠ "beta"
  ∧ Forall (Spec.recorded1 "alpha" "beta") (V1.votesRef demo_voted1)
  ∧ ∃ msg data,
      V1.finish (Some "alpha", Some "beta") 20 demo_voted1
      = (V1.setPhase results demo_voted1,
         [toast_success msg; downloadJSON data (Some "alpha")]).
Proof.
  assert (Spec.pair_between "alpha" "beta" demo_pair) as Hpair.
  { exists demo_alpha, demo_beta. split; [by left | by split_and!]. }
  assert (Forall (Spec.recorded1 "alpha" "beta") (V1.votesRef demo_voted1)) as H1.
  { repeat constructor. by exists 1, V1.choose_left, demo_pair. }
  assert ("alpha" ≠ "beta") as HAB by done.
  split; [exact HAB |]. split; [exact H1 |].
  destruct (overall_winner_has_more_wins "alpha" "beta" 20 demo_voted1)
    as (msg & data & E & _); [exact HAB | done | done | exact H1 |].
  by exists msg, data.
Defined.

(** X20. The earlier revision exports the same win counts and winner, and
    beside them the number of rounds judged a tie and the number judged
    both bad; those rounds count for neither model, so the overall winner
    depends on the decided rounds alone. *)
Theorem earlier_export_counts_each_choice (A B : string) (st : V2.State) :
  A ≠ B → A ≠ "" → B ≠ "" →
  models (V2.images st) = [A; B] →
  Forall (Spec.recorded2 A B) (V2.votesRef st) →
  ∃ msg data,
    V2.finish st
    = (V2.setPhase results st,
       [toast_success msg;
        downloadJSON data
          (overall A B (wins_for A (V2.votesRef st)) (wins_for B (V2.votesRef st)))])
    ∧ winsByModel data !! A = Some (Num (wins_for A (V2.votesRef st)))
    ∧ winsByModel data !! B = Some (Num (wins_for B (V2.votesRef st)))
    ∧ ties data = chosen is_tie (V2.votesRef st)
    ∧ bothBad data = chosen is_both (V2.votesRef st).
Proof.
  intros HAB HA HB Hm Hvotes.
  destruct (TallyFacts.fresh_counters A B HAB) as [Ha0 Hb0].
  destruct (WinnerFacts.tally2_counts A B HAB HA HB _ _ 0 0 0 0 Hvotes Ha0 Hb0)
    as (wins & E & Ha & Hb).
  unfold V2.finish. rewrite Hm. simpl key_of. rewrite E, Ha, Hb.
  eexists _, _. split; [reflexivity |]. simpl. by split_and!.
Qed.

Lemma earlier_export_counts_each_choice_witness :
  "alpha" ≠ "beta"
  ∧ models (V2.images demo_voted2) = ["alpha"; "beta"]
  ∧ Forall (Spec.recorded2 "alpha" "beta") (V2.votesRef demo_voted2)
  ∧ ∃ msg data,
      V2.finish demo_voted2
      = (V2.setPhase results demo_voted2,
         [toast_success msg; downloadJSON data (Some "tie")])
      ∧ ties data = 1.
Proof.
  assert (Spec.pair_between "alpha" "beta" demo_pair) as Hpair.
  { exists demo_alpha, demo_beta. split; [by left | by split_and!]. }
  assert (Forall (Spec.recorded2 "alpha" "beta") (V2.votesRef demo_voted2)) as H2.
  { repeat constructor. by exists 1, V2.choose_tie, demo_pair. }
  assert (models (V2.images demo_voted2) = ["alpha"; "beta"]) as Hm by reflexivity.
  assert ("alpha" ≠ "beta") as HAB by done.
  split; [exact HAB |]. split; [exact Hm |]. split; [exact H2 |].
  destruct (earlier_export_counts_each_choice "alpha" "beta" demo_voted2)
    as (msg & data & E & _ & _ & Ht & _);
    [exact HAB | done | done | exact Hm | exact H2 |].
  by exists msg, data.
Defined.

(** ** Sessions of the earlier revision *)

Module SessionFacts.

Section Engine.

Variable random_sort : list string → Rng → list string * Rng.

Lemma run_invariant (P : V2.State → Prop) :
  (∀ e st, P st → P (V2.step random_sort e st).1) →
  ∀ es st, P st → P (V2.run random_sort es st).1.
Proof.
  intros Hstep es. induction es as [|e es IH]; intros st Hst; simpl; [done |].
  specialize (Hstep e st Hst).
  destruct (V2.step random_sort e st) as [st' out].
  specialize (IH st' Hstep).
  by destruct (V2.run random_sort es st') as [st'' out'].
Qed.

Lemma finish_effects st :
  ∃ msg data winner,
    (V2.finish st).2 = [toast_success msg; downloadJSON data winner]
    ∧ roundsPlanned data = V2.rounds st
    ∧ roundsCompleted data = List.length (V2.votesRef st).
Proof.
  unfold V2.finish. destruct (foldl _ _ _) as [[wins t] bb]. simpl.
  by eexists _, _, _.
Qed.

Ltac quiet Hp :=
  simpl; rewrite ?Hp; split_and!; try done; intros [? ?]; done.

(** What a step exports, and when. *)
Lemma step_exports e st :
  (V2.phase st = playing
   ∧ V2.phase (V2.step random_sort e st).1 = results
   ∧ ∃ pr msg data winner,
       V2.pairs st !! V2.current st = Some pr
       ∧ (List.length (V2.pairs st) ≤ V2.current st + 1)%nat
       ∧ (V2.step random_sort e st).2 = [toast_success msg; downloadJSON data winner]
       ∧ roundsPlanned data = V2.rounds st
       ∧ roundsCompleted data = S (List.length (V2.votesRef st)))
  ∨ (Spec.downloads (V2.step random_sort e st).2 = 0
     ∧ Spec.exported_rounds (V2.step random_sort e st).2 = []
     ∧ ¬ (V2.phase st = playing
          ∧ V2.phase (V2.step random_sort e st).1 = results)).
Proof.
  destruct e as [g|c| | |value|imgs]; simpl.
  - right. destruct (V2.phase st) eqn:Hp; try (by quiet Hp).
    destruct (V2.images st) eqn:Hi; [by quiet Hp |].
    destruct (StartFacts.startArena2_cases random_sort g st)
      as [[E _]|[(A & B & _ & _ & _ & _ & E)|(A & B & _ & _ & _ & _ & E)]];
      rewrite E; by quiet Hp.
  - destruct (V2.phase st) eqn:Hp; try (right; by quiet Hp).
    unfold V2.vote.
    destruct (V2.pairs st !! V2.current st) as [pr|] eqn:Hpr;
      [| right; by quiet Hp].
    destruct (negb _); [right; by quiet Hp |].
    cbn [V2.pairs V2.setVotes V2.current].
    destruct (Nat.leb_spec (List.length (V2.pairs st)) (V2.current st + 1)).
    + left. split; [done |].
      rewrite EarlierBound.earlier_finish_state. split; [done |].
      destruct (finish_effects
                  (V2.setVotes
                     (V2.votesRef st ++ [V2.ballot (V2.current st + 1) c pr])%list st))
        as (msg & data & winner & E & Hplanned & Hcompleted).
      exists pr, msg, data, winner. split_and!; try done.
      rewrite Hcompleted. simpl. rewrite length_app. simpl. lia.
    + right. by quiet Hp.
  - right. destruct (V2.phase st) eqn:Hp; by quiet Hp.
  - right. destruct (V2.phase st) eqn:Hp; [destruct (V2.images st) | |];
      by quiet Hp.
  - right. destruct (V2.phase st) eqn:Hp; by quiet Hp.
  - right. split_and!; try done. simpl. by intros [-> ?].
Qed.

Ltac settle Hp := simpl; rewrite ?Hp; try done; auto.

Lemma step_keeps_cap e st : capped2 st → capped2 (V2.step random_sort e st).1.
Proof.
  intros [Hb Hcap]. split; [by apply EarlierBound.step_keeps_bound |].
  destruct e as [g|c| | |value|imgs]; simpl.
  - destruct (V2.phase st) eqn:Hp; try (by settle Hp).
    destruct (V2.images st) eqn:Hi; [by settle Hp |].
    destruct (StartFacts.startArena2_cases random_sort g st)
      as [[E _]|[(A & B & _ & _ & _ & _ & E)|(A & B & _ & _ & _ & _ & E)]];
      rewrite E; try (by settle Hp).
    simpl. intros _.
    destruct (StartFacts.make_pairs2_count
                (tables A B (V2.images st)).1 (tables A B (V2.images st)).2
                (V2.number_min (V2.rounds st)
                   (inject_Z (Z.of_nat
                      (List.length (random_sort (matched A B (V2.images st)) g).1))))
                0 (random_sort (matched A B (V2.images st)) g).1
                (random_sort (matched A B (V2.images st)) g).2)
      as (_ & [Hnone | Hlast] & _); [by left |].
    right. eapply Qlt_le_trans; [exact Hlast |]. apply StartFacts.number_min_le.
  - destruct (V2.phase st) eqn:Hp; try (by settle Hp).
    unfold V2.vote. destruct (V2.pairs st !! V2.current st); [| by settle Hp].
    destruct (negb _); [by settle Hp |].
    cbn [V2.pairs V2.setVotes V2.current].
    destruct (_ <=? _)%nat; [by rewrite EarlierBound.earlier_finish_state |].
    by settle Hp.
  - destruct (V2.phase st) eqn:Hp; by settle Hp.
  - destruct (V2.phase st) eqn:Hp; try (by settle Hp).
    destruct (V2.images st); by settle Hp.
  - destruct (V2.phase st) eqn:Hp; by settle Hp.
  - done.
Qed.

Lemma step_within_plan e st :
  capped2 st →
  Forall within_plan (Spec.exported_rounds (V2.step random_sort e st).2).
Proof.
  intros [[Hle Hcur] Hcap].
  destruct (step_exports e st)
    as [(Hp & _ & pr & msg & data & winner & Hpr & Hlast & -> & Hplanned & Hcompleted)
       |(_ & -> & _)]; [| constructor].
  apply lookup_lt_Some in Hpr. specialize (Hcur Hp). specialize (Hcap Hp).
  assert (roundsCompleted data = List.length (V2.pairs st)) as Hall by lia.
  simpl. apply Forall_cons. split; [| constructor].
  unfold within_plan. simpl. rewrite Hplanned, Hall. split_and!.
  - lia.
  - destruct Hcap as [Hnone | Hbefore]; [lia | done].
  - intros [n Hn]. destruct Hcap as [Hnone | Hbefore]; [lia |].
    rewrite Hn in Hbefore |- *. rewrite <- Zlt_Qlt in Hbefore. rewrite <- Zle_Qle. lia.
Qed.

Lemma run_within_plan es st :
  capped2 st →
  Forall within_plan (Spec.exported_rounds (V2.run random_sort es st).2).
Proof.
  revert st. induction es as [|e es IH]; intros st Hst; simpl; [constructor |].
  pose proof (step_keeps_cap e st Hst) as Hstep.
  pose proof (step_within_plan e st Hst) as Hout.
  destruct (V2.step random_sort e st) as [st' out].
  specialize (IH st' Hstep).
  destruct (V2.run random_sort es st') as [st'' out']. simpl in *.
  unfold Spec.exported_rounds in *. rewrite omap_app. by apply Forall_app.
Qed.

Lemma step_keeps_numbering e st :
  numbered2 st → numbered2 (V2.step random_sort e st).1.
Proof.
  intros [Hb Hnum]. split; [by apply EarlierBound.step_keeps_bound |].
  destruct Hb as [_ Hcur].
  destruct e as [g|c| | |value|imgs]; simpl.
  - destruct (V2.phase st) eqn:Hp; try (by settle Hp).
    destruct (V2.images st) eqn:Hi; [by settle Hp |].
    destruct (StartFacts.startArena2_cases random_sort g st)
      as [[E _]|[(A & B & _ & _ & _ & _ & E)|(A & B & _ & _ & _ & _ & E)]];
      rewrite E; by settle Hp.
  - destruct (V2.phase st) eqn:Hp; try (by settle Hp).
    unfold V2.vote.
    destruct (V2.pairs st !! V2.current st) as [pr|]; [| by settle Hp].
    destruct (negb _); [by settle Hp |].
    cbn [V2.pairs V2.setVotes V2.current].
    assert (round <$> (V2.votesRef st ++ [V2.ballot (V2.current st + 1) c pr])%list
            = seq 1 (List.length
                       (V2.votesRef st ++ [V2.ballot (V2.current st + 1) c pr])%list))
      as Hnext.
    { rewrite fmap_app, length_app, Hnum, (Hcur eq_refl).
      change (List.length [V2.ballot (V2.current st + 1) c pr]) with 1.
      rewrite (Nat.add_1_r (V2.current st)) at 2. rewrite seq_S.
      f_equal. simpl. f_equal. lia. }
    destruct (_ <=? _)%nat; [by rewrite EarlierBound.earlier_finish_state |].
    done.
  - destruct (V2.phase st) eqn:Hp; by settle Hp.
  - destruct (V2.phase st) eqn:Hp; try (by settle Hp).
    destruct (V2.images st); by settle Hp.
  - destruct (V2.phase st) eqn:Hp; by settle Hp.
  - done.
Qed.

Hypothesis random_sort_perm : ∀ l g, (random_sort l g).1 ≡ₚ l.

Lemma step_keeps_playable e st :
  playable2 st → playable2 (V2.step random_sort e st).1.
Proof.
  intros [Hrounds Hpair].
  destruct e as [g|c| | |value|imgs]; simpl.
  - destruct (V2.phase st) eqn:Hp; try (split; by settle Hp).
    destruct (V2.images st) eqn:Hi; [split; by settle Hp |].
    destruct (StartFacts.startArena2_cases random_sort g st)
      as [[E _]|[(A & B & _ & _ & _ & _ & E)|(A & B & _ & _ & _ & Hne & E)]];
      rewrite E; try (split; by settle Hp).
    split; [done |]. intros _. unfold started2. simpl.
    assert ((random_sort (matched A B (V2.images st)) g).1 ≠ []) as Hsorted.
    { intros Hnil. apply Hne. apply Permutation_nil_r.
      by rewrite <- (random_sort_perm _ g), Hnil. }
    apply StartFacts.make_pairs2_nonempty; [| done].
    apply StartFacts.number_min_pos.
    + eapply Qlt_le_trans; [| exact Hrounds]. done.
    + rewrite <- (Zlt_Qlt 0).
      destruct (random_sort (matched A B (V2.images st)) g).1; [done |]. simpl. lia.
  - destruct (V2.phase st) eqn:Hp; try (split; by settle Hp).
    unfold V2.vote.
    destruct (V2.pairs st !! V2.current st) as [pr|]; [| split; by settle Hp].
    destruct (negb _); [split; by settle Hp |].
    cbn [V2.pairs V2.setVotes V2.current].
    destruct (Nat.leb_spec (List.length (V2.pairs st)) (V2.current st + 1)).
    + rewrite EarlierBound.earlier_finish_state. by split.
    + split; [done |]. simpl. intros _. lia.
  - destruct (V2.phase st) eqn:Hp; split; by settle Hp.
  - destruct (V2.phase st) eqn:Hp; try (split; by settle Hp).
    destruct (V2.images st); split; by settle Hp.
  - destruct (V2.phase st) eqn:Hp; split; settle Hp;
      apply (StartFacts.number_max_ge 1).
  - by split.
Qed.

End Engine.

End SessionFacts.

(** X21. In the earlier revision a step exports at most once, and it
    exports exactly when it takes the session from voting to the results:
    the vote on the last pair. *)
Theorem earlier_exports_when_the_last_pair_is_judged
    (random_sort : list string → Rng → list string * Rng)
    (e : V2.Event) (st : V2.State) :
  (Spec.downloads (V2.step random_sort e st).2 ≤ 1)%nat
  ∧ (Spec.downloads (V2.step random_sort e st).2 = 1
     ↔ V2.phase st = playing ∧ V2.phase (V2.step random_sort e st).1 = results)
  ∧ (Spec.downloads (V2.step random_sort e st).2 = 1 →
     ∃ c, e = V2.click_vote c
          ∧ List.length (V2.pairs st) = V2.current st + 1).
Proof.
  destruct (SessionFacts.step_exports random_sort e st)
    as [(Hp & Hr & pr & msg & data & winner & Hpr & Hlast & E & _)|(E & _ & Hno)];
    rewrite E.
  - split; [done |]. split; [done |]. intros _.
    apply lookup_lt_Some in Hpr.
    destruct e as [g|c| | |value|imgs]; simpl in E; rewrite ?Hp in E; try done.
    exists c. split; [done | lia].
  - split; [lia |]. split; [| done]. split; [done | by intros ?].
Qed.

(** X22. Every export of the earlier revision reports at least one
    completed round, and its last completed round was begun before the
    planned number was reached: the rounds field may hold a fraction, and
    the pair loop then runs once more than its whole part.  When the
    planned number is whole, no more rounds are completed than planned.
    This holds whatever the events were and whatever the engine's sort
    returns. *)
Theorem earlier_exports_stay_within_plan
    (random_sort : list string → Rng → list string * Rng)
    (es : list V2.Event) (defaultRounds : nat) :
  Forall within_plan
    (Spec.exported_rounds (V2.run random_sort es (V2.initial defaultRounds)).2).
Proof.
  apply SessionFacts.run_within_plan.
  split; [split; simpl; [lia | done] | done].
Qed.

(** X23. In every state the earlier revision can reach, the votes of the
    log carry the round numbers 1, 2, 3, ... in the order they were
    cast. *)
Theorem earlier_votes_are_numbered_in_order
    (random_sort : list string → Rng → list string * Rng)
    (es : list V2.Event) (defaultRounds : nat) :
  round <$> V2.votesRef (V2.run random_sort es (V2.initial defaultRounds)).1
  = seq 1 (List.length
             (V2.votesRef (V2.run random_sort es (V2.initial defaultRounds)).1)).
Proof.
  apply (SessionFacts.run_invariant random_sort numbered2
           (SessionFacts.step_keeps_numbering random_sort) es).
  split; [split; simpl; [lia | done] | done].
Qed.

(** X24. While the earlier revision is in its voting phase there is
    always a pair at the cursor, so a vote is never dropped there; this
    needs a rounds setting of at least one and a sort that returns a
    permutation. *)
Theorem earlier_voting_always_has_a_pair
    (random_sort : list string → Rng → list string * Rng)
    (es : list V2.Event) (defaultRounds : nat) :
  (∀ l g, (random_sort l g).1 ≡ₚ l) →
  (1 ≤ defaultRounds)%nat →
  V2.phase (V2.run random_sort es (V2.initial defaultRounds)).1 = playing →
  is_Some (V2.pairs (V2.run random_sort es (V2.initial defaultRounds)).1
           !! V2.current (V2.run random_sort es (V2.initial defaultRounds)).1).
Proof.
  intros Hperm Hrounds Hp.
  apply lookup_lt_is_Some.
  apply (SessionFacts.run_invariant random_sort playable2
           (SessionFacts.step_keeps_playable random_sort Hperm) es
           (V2.initial defaultRounds)); [| done].
  split; [| done]. simpl. rewrite <- (Zle_Qle 1). lia.
Qed.

Lemma earlier_voting_always_has_a_pair_witness :
  (∀ l g, (keep_order l g).1 ≡ₚ l)
  ∧ (1 ≤ 20)%nat
  ∧ V2.phase (V2.run keep_order
                [V2.images_loaded demo_catalog; V2.click_start (always 0)]
                (V2.initial 20)).1 = playing
  ∧ is_Some (V2.pairs (V2.run keep_order
                         [V2.images_loaded demo_catalog; V2.click_start (always 0)]
                         (V2.initial 20)).1
             !! V2.current (V2.run keep_order
                              [V2.images_loaded demo_catalog; V2.click_start (always 0)]
                              (V2.initial 20)).1).
Proof.
  assert (∀ l (g : Rng), (keep_order l g).1 ≡ₚ l) as Hperm by done.
  assert (V2.phase (V2.run keep_order
                      [V2.images_loaded demo_catalog; V2.click_start (always 0)]
                      (V2.initial 20)).1 = playing) as Hp by (by vm_compute).
  split; [exact Hperm |]. split; [lia |]. split; [exact Hp |].
  apply (earlier_voting_always_has_a_pair keep_order
           [V2.images_loaded demo_catalog; V2.click_start (always 0)] 20 Hperm);
    [lia | exact Hp].
Defined.

(** ** Loading the catalog *)

Module LoadFacts.
Import JsFacts.

Lemma append_inv_head s t u : s +:+ t = s +:+ u → t = u.
Proof. induction s as [|c s IH]; sapp; [done |]. intros [= H]. auto. Qed.

Lemma ends_with_snoc q s c : Spec.ends_with q (s +:+ String c "") = q c.
Proof.
  induction s as [|d s IH]; [done |]. rewrite append_cons.
  destruct s as [|e s]; [done |]. by rewrite <- IH.
Qed.

Lemma endsWith_char s c :
  JsMore.endsWith s (String c "") = Spec.ends_with (is_char c) s.
Proof.
  induction s as [|d s IH]; [done |].
  change (JsMore.endsWith (String d s) (String c ""))
    with (String.eqb (String d s) (String c "") || JsMore.endsWith s (String c "")).
  rewrite IH. unfold is_char.
  destruct s as [|e s]; simpl; by destruct (Ascii.eqb d c).
Qed.

Lemma endsWith_ends_with q s p :
  JsMore.endsWith s p = true → p ≠ "" → Spec.ends_with q s = Spec.ends_with q p.
Proof.
  intros H Hp. induction s as [|d s IH].
  - by destruct p.
  - change (JsMore.endsWith (String d s) p)
      with (String.eqb (String d s) p || JsMore.endsWith s p) in H.
    apply orb_true_iff in H as [H|H].
    + apply String.eqb_eq in H. by subst.
    + rewrite <- (IH H). destruct s as [|e s]; [| done]. by destruct p.
Qed.

Lemma dropLast_snoc s c : JsMore.dropLast (s +:+ String c "") = s.
Proof.
  induction s as [|d s IH]; [done |]. rewrite append_cons.
  destruct s as [|e s]; [done |].
  rewrite append_cons in IH |- *.
  change (JsMore.dropLast (String d (String e (s +:+ String c ""))))
    with (String d (JsMore.dropLast (String e (s +:+ String c "")))).
  by rewrite IH.
Qed.

Lemma dropLast_all q s : Js.all q s = true → Js.all q (JsMore.dropLast s) = true.
Proof.
  induction s as [|d s IH]; [done |]. simpl Js.all.
  intros [Hd Hs]%andb_true_iff. destruct s as [|e s]; [done |].
  change (q d && Js.all q (JsMore.dropLast (String e s)) = true).
  by rewrite Hd, (IH Hs).
Qed.

Lemma startsWith_char s c :
  Js.startsWith s (String c "") = Spec.starts_with (is_char c) s.
Proof.
  destruct s as [|d s]; [done |]. unfold Js.startsWith, is_char. simpl.
  destruct (ascii_dec c d) as [-> | Hne].
  - rewrite Ascii.eqb_refl. by destruct s.
  - symmetry. apply Ascii.eqb_neq. congruence.
Qed.

(** Splitting at a character. *)
Lemma split_nonempty c s : Js.split c s ≠ [].
Proof.
  destruct s as [|d s]; simpl; [done |].
  destruct (Ascii.eqb d c); [done |]. by destruct (Js.split c s).
Qed.

Lemma split_all q c s :
  Js.all q s = true → Forall (λ x, Js.all q x = true) (Js.split c s).
Proof.
  induction s as [|d s IH]; simpl; [by repeat constructor |].
  intros [Hd Hs]%andb_true_iff. specialize (IH Hs).
  destruct (Ascii.eqb d c); [by constructor |].
  destruct IH as [|l ls Hl Hls]; repeat constructor; simpl; rewrite ?Hd, ?Hl; done.
Qed.

Lemma split_free c s : Forall (free_of (is_char c)) (Js.split c s).
Proof.
  unfold free_of. induction s as [|d s IH]; simpl; [by repeat constructor |].
  destruct (Ascii.eqb d c) eqn:Hd; [by constructor |].
  destruct IH as [|l ls Hl Hls]; repeat constructor; simpl; try done;
    unfold is_char at 1; by rewrite Hd.
Qed.

Lemma split_single c s : free_of (is_char c) s → Js.split c s = [s].
Proof.
  unfold free_of. induction s as [|d s IH]; simpl; [done |].
  unfold is_char at 1. intros [Hd Hs]%andb_true_iff.
  apply negb_true_iff in Hd. by rewrite Hd, (IH Hs).
Qed.

Lemma split_app c s r :
  free_of (is_char c) s → Js.split c (s +:+ String c r) = s :: Js.split c r.
Proof.
  unfold free_of. induction s as [|d s IH]; sapp; simpl.
  - intros _. by rewrite Ascii.eqb_refl.
  - unfold is_char at 1. intros [Hd Hs]%andb_true_iff.
    apply negb_true_iff in Hd. by rewrite Hd, (IH Hs).
Qed.

Lemma split_ends c dir file :
  free_of (is_char c) file →
  ∃ p pre, Js.split c (dir +:+ String c file) = (p :: pre ++ [file])%list.
Proof.
  intros Hfile. induction dir as [|d dir (p & pre & IH)]; sapp; simpl.
  - rewrite Ascii.eqb_refl, (split_single _ _ Hfile). by exists "", [].
  - rewrite IH. destruct (Ascii.eqb d c).
    + by exists "", (p :: pre).
    + by exists (String d p), pre.
Qed.

Lemma last_snoc {T} (l : list T) x d : List.last (l ++ [x]) d = x.
Proof.
  induction l as [|y l IH]; [done |].
  change (List.last ((y :: l) ++ [x]) d)
    with (match (l ++ [x])%list with [] => y | _ :: _ => List.last (l ++ [x]) d end).
  rewrite IH. by destruct l.
Qed.

Lemma lastSegment_app dir file :
  free_of (is_char "/") file → JsMore.lastSegment (dir +:+ String "/" file) = file.
Proof.
  intros Hfile. unfold JsMore.lastSegment.
  destruct (split_ends "/" dir file Hfile) as (p & pre & ->).
  apply (last_snoc (p :: pre)).
Qed.

Lemma last_Forall {T} (P : T → Prop) l d : Forall P l → P d → P (List.last l d).
Proof.
  intros Hl Hd. induction Hl as [|x l Hx Hl IH]; [done |].
  destruct l; [done | exact IH].
Qed.

Lemma lastSegment_all q s : Js.all q s = true → Js.all q (JsMore.lastSegment s) = true.
Proof.
  intros Hs. unfold JsMore.lastSegment.
  apply (last_Forall (λ x, Js.all q x = true)); [by apply split_all | done].
Qed.

Lemma lastSegment_free s : free_of (is_char "/") (JsMore.lastSegment s).
Proof.
  unfold JsMore.lastSegment.
  apply (last_Forall (free_of (is_char "/"))); [apply split_free | done].
Qed.

Lemma lastSegment_empty s :
  JsMore.lastSegment s = "" → s = "" ∨ Spec.ends_with (is_char "/") s = true.
Proof.
  unfold JsMore.lastSegment. induction s as [|d s IH]; [by left |].
  intros H. right. simpl Js.split in H. pose proof (split_nonempty "/" s) as Hne.
  destruct (Ascii.eqb d "/") eqn:Hd.
  - destruct (Js.split "/" s) as [|l ls] eqn:E; [done |].
    change (List.last ("" :: l :: ls) "") with (List.last (l :: ls) "") in H.
    destruct (IH H) as [-> | Hs]; [done |].
    destruct s; [done | exact Hs].
  - destruct (Js.split "/" s) as [|l [|l' ls]] eqn:E; [done | done |].
    change (List.last (String d l :: l' :: ls) "")
      with (List.last (l :: l' :: ls) "") in H.
    destruct (IH H) as [-> | Hs]; [done |].
    destruct s; [done | exact Hs].
Qed.

(** Lower-casing neither makes nor removes a slash. *)
Lemma lower_slash c : is_char "/" (Js.lower_char c) = is_char "/" c.
Proof. by destruct c as [[] [] [] [] [] [] [] []]. Qed.

Lemma ends_with_lower s :
  Spec.ends_with (is_char "/") (Js.toLowerCase s) = Spec.ends_with (is_char "/") s.
Proof.
  induction s as [|c s IH]; [done |].
  destruct s as [|d s]; [apply lower_slash | exact IH].
Qed.

Lemma supported_not_dir name :
  hasSupportedExtension name = true → Spec.ends_with (is_char "/") name = false.
Proof.
  unfold hasSupportedExtension. intros (ext & Hext & Hends)%existsb_exists.
  rewrite <- ends_with_lower.
  assert (ext ≠ "" ∧ Spec.ends_with (is_char "/") ext = false) as [Hne Hfile].
  { unfold supported in Hext. simpl in Hext.
    destruct Hext as [<-|[<-|[<-|[<-|[<-|[<-|[]]]]]]]; by split. }
  by rewrite (endsWith_ends_with _ _ _ Hends Hne).
Qed.

(** What [withBase] puts in front of a path depends on the base alone. *)
Lemma withBase_prefix envBase window :
  ∃ a, ∀ path,
    Spec.starts_with (is_char "/") path = false →
    withBase envBase window path = a +:+ String "/" path.
Proof.
  unfold withBase. eexists. intros path Hpath.
  by rewrite startsWith_char, Hpath.
Qed.

Lemma publicImage_url_inj envBase window n1 n2 :
  img_url (publicImage envBase window n1) = img_url (publicImage envBase window n2) →
  n1 = n2.
Proof.
  destruct (withBase_prefix envBase window) as [a Ha]. simpl.
  rewrite !Ha by done. intros H%append_inv_head.
  injection H as H. exact H.
Qed.

Lemma merge_loop_fresh (seen : gset string) merged incoming :
  NoDup (img_url <$> incoming) →
  (∀ i, i ∈ incoming → img_url i ∉ seen) →
  merge_loop seen merged incoming = (merged ++ incoming)%list.
Proof.
  revert seen merged.
  induction incoming as [|item rest IH]; intros seen merged Hnd Hnew; simpl.
  - by rewrite app_nil_r.
  - rewrite fmap_cons in Hnd. apply NoDup_cons in Hnd as [Hitem Hrest].
    rewrite decide_False by (apply Hnew; set_solver).
    rewrite IH, <- app_assoc; [done | done |].
    intros i Hi. rewrite elem_of_union, elem_of_singleton.
    intros [Hu | Hs]; [| by apply (Hnew i); set_solver].
    apply Hitem. rewrite <- Hu. by apply list_elem_of_fmap_2.
Qed.

End LoadFacts.

(** X25. Whatever links a directory listing holds, the file names read
    off it are plain names: none contains a [/] or a [?], and each ends in
    one of the supported image extensions. *)
Theorem listing_yields_plain_image_names (hrefs : list (option string)) :
  Forall (λ name,
            free_of (is_char "/") name ∧ free_of (is_char "?") name
            ∧ hasSupportedExtension name = true)
    (listingFileNames hrefs).
Proof.
  apply Forall_forall. intros name Hin. unfold listingFileNames in Hin.
  apply list_elem_of_In, filter_In in Hin as [Hin Hext].
  apply in_map_iff in Hin as (h3 & <- & Hin).
  apply in_map_iff in Hin as (h2 & <- & Hin).
  apply filter_In in Hin as [Hin _].
  apply in_map_iff in Hin as (h1 & <- & _).
  set (h2 := default "" (head (Js.split "?" h1))) in *.
  assert (free_of (is_char "?") h2) as Hq.
  { subst h2. pose proof (LoadFacts.split_free "?" h1) as Hall.
    by destruct Hall. }
  set (h3 := if JsMore.endsWith h2 "/" then JsMore.dropLast h2 else h2) in *.
  assert (free_of (is_char "?") h3) as Hq3.
  { subst h3. destruct (JsMore.endsWith h2 "/"); [| done].
    by apply LoadFacts.dropLast_all. }
  split_and!; [| | done]; unfold Js.or_else in *;
    destruct (Js.is_empty (JsMore.lastSegment h3)) eqn:He.
  - apply JsFacts.is_empty_true, LoadFacts.lastSegment_empty in He.
    destruct He as [-> | He]; [done |].
    apply LoadFacts.supported_not_dir in Hext. congruence.
  - apply LoadFacts.lastSegment_free.
  - done.
  - by apply LoadFacts.lastSegment_all.
Qed.

(** X26. On a GitHub Pages project site, where no base is configured,
    paths are resolved against the first segment of the page's path: the
    repository's folder. *)
Theorem github_pages_base
    (envBase : option string) (host repo rest path : string) :
  envBase = None ∨ envBase = Some "" ∨ envBase = Some "/" →
  JsMore.endsWith host "github.io" = true →
  repo ≠ "" → free_of (is_char "/") repo →
  Spec.starts_with (is_char "/") path = false →
  withBase envBase
    (Some {| hostname := host; pathname := "/" +:+ repo +:+ "/" +:+ rest |}) path
  = "/" +:+ repo +:+ "/" +:+ path.
Proof.
  intros Henv Hhost Hrepo Hfree Hpath. unfold withBase.
  assert (Js.is_empty (default "/" envBase) || String.eqb (default "/" envBase) "/"
          = true) as ->.
  { by destruct Henv as [-> | [-> | ->]]. }
  cbn [hostname pathname]. rewrite Hhost.
  assert (Js.split "/" ("/" +:+ repo +:+ "/" +:+ rest)
          = "" :: repo :: Js.split "/" rest) as ->.
  { change ("/" +:+ repo +:+ "/" +:+ rest) with ("" +:+ String "/" (repo +:+ String "/" rest)).
    rewrite (LoadFacts.split_app "/" "") by done.
    by rewrite (LoadFacts.split_app "/" repo). }
  simpl List.filter. apply JsFacts.is_empty_false in Hrepo. rewrite Hrepo. simpl negb.
  cbv iota.
  change ("/" +:+ repo +:+ "/") with (String "/" repo +:+ String "/" "").
  rewrite LoadFacts.endsWith_char, LoadFacts.ends_with_snoc.
  rewrite LoadFacts.dropLast_snoc, LoadFacts.startsWith_char, Hpath.
  by rewrite JsFacts.append_cons.
Qed.

Lemma github_pages_base_witness :
  JsMore.endsWith "tisu19021997.github.io" "github.io" = true
  ∧ free_of (is_char "/") "model-duel-arena"
  ∧ withBase None
      (Some {| hostname := "tisu19021997.github.io";
               pathname := "/" +:+ "model-duel-arena" +:+ "/" +:+ "index.html" |})
      "images/manifest.json"
    = "/" +:+ "model-duel-arena" +:+ "/" +:+ "images/manifest.json".
Proof.
  split; [reflexivity |]. split; [reflexivity |].
  by apply (github_pages_base None "tisu19021997.github.io" "model-duel-arena"
              "index.html" "images/manifest.json"); auto.
Defined.

(** X27. With a configured base, exactly one slash stands between base
    and path, whether or not the base ends in one and whether or not the
    path starts with one. *)
Theorem one_slash_between_base_and_path
    (base path : string) (window : option Location) :
  base ≠ "" → Spec.ends_with (is_char "/") base = false →
  Spec.starts_with (is_char "/") path = false →
  withBase (Some base) window path = base +:+ "/" +:+ path
  ∧ withBase (Some (base +:+ "/")) window path = base +:+ "/" +:+ path
  ∧ withBase (Some base) window ("/" +:+ path) = base +:+ "/" +:+ path
  ∧ withBase (Some (base +:+ "/")) window ("/" +:+ path) = base +:+ "/" +:+ path.
Proof.
  intros Hbase Hend Hpath.
  assert (Js.is_empty base || String.eqb base "/" = false) as E1.
  { apply orb_false_iff. split; [by apply JsFacts.is_empty_false |].
    apply String.eqb_neq. by intros ->. }
  assert (Js.is_empty (base +:+ "/") || String.eqb (base +:+ "/") "/" = false) as E2.
  { destruct base as [|c [|d b]]; [done | | done].
    simpl in Hend. rewrite JsFacts.append_cons, JsFacts.append_nil_l. simpl.
    unfold is_char in Hend. by rewrite Hend. }
  unfold withBase. simpl (default _ _). cbv zeta. rewrite E1, E2.
  rewrite !LoadFacts.endsWith_char, LoadFacts.ends_with_snoc, Hend.
  rewrite LoadFacts.dropLast_snoc, !LoadFacts.startsWith_char, Hpath.
  by rewrite JsFacts.append_cons, JsFacts.append_nil_l.
Qed.

Lemma one_slash_between_base_and_path_witness :
  withBase (Some "/arena/") None "images/a_1.png" = "/arena/images/a_1.png"
  ∧ withBase (Some "/arena") None "/images/a_1.png" = "/arena/images/a_1.png".
Proof.
  destruct (one_slash_between_base_and_path "/arena" "images/a_1.png" None)
    as (_ & E2 & E3 & _); [done | reflexivity | reflexivity |].
  split; [exact E2 | exact E3].
Defined.

(** X28. The entries made of a list of public file names have addresses
    that are all different, one entry for each distinct name, and merged
    into an empty catalog they are all kept, in their shuffled order. *)
Theorem public_images_are_all_kept
    (envBase : option string) (window : option Location)
    (fileNames : list string) (g : Rng) :
  NoDup (img_url <$> publicImages envBase window fileNames g)
  ∧ img_name <$> publicImages envBase window fileNames g ≡ₚ distinct [] fileNames
  ∧ mergeUniqueByUrl [] (publicImages envBase window fileNames g)
    = publicImages envBase window fileNames g.
Proof.
  assert (NoDup (img_url <$> publicImages envBase window fileNames g)) as Hnd.
  { unfold publicImages. rewrite <- list_fmap_compose.
    apply NoDup_fmap_2.
    - intros n1 n2. apply LoadFacts.publicImage_url_inj.
    - rewrite CatalogFacts.shuffleArray_perm. apply CatalogFacts.distinct_NoDup. }
  split; [done |]. split.
  - unfold publicImages. rewrite <- list_fmap_compose.
    rewrite (list_fmap_ext _ id _ (λ _ _ _, eq_refl)), list_fmap_id.
    apply CatalogFacts.shuffleArray_perm.
  - unfold mergeUniqueByUrl. rewrite LoadFacts.merge_loop_fresh; [done | done |].
    intros i _. set_solver.
Qed.

(** X29. A public image is labelled by its file name alone: for a name
    with folders in front, model and id are those of the last segment, as
    they are for the bare name. *)
Theorem public_image_is_labelled_by_its_file_name
    (envBase : option string) (window : option Location) (dir file : string) :
  free_of (is_char "/") file → file ≠ "" →
  img_model (publicImage envBase window (dir +:+ "/" +:+ file))
  = img_model (publicImage envBase window file)
  ∧ img_id (publicImage envBase window (dir +:+ "/" +:+ file))
    = img_id (publicImage envBase window file)
  ∧ img_model (publicImage envBase window file) = V1.parseModelPrefix file
  ∧ img_id (publicImage envBase window file)
    = V1.parseIdSuffix file (Some (V1.parseModelPrefix file)).
Proof.
  intros Hfree Hfile.
  assert (Js.or_else (JsMore.lastSegment (dir +:+ "/" +:+ file)) (dir +:+ "/" +:+ file)
          = file) as E1.
  { change (dir +:+ "/" +:+ file) with (dir +:+ String "/" file).
    rewrite LoadFacts.lastSegment_app by done.
    unfold Js.or_else. by destruct file. }
  assert (Js.or_else (JsMore.lastSegment file) file = file) as E2.
  { unfold JsMore.lastSegment. rewrite LoadFacts.split_single by done.
    unfold Js.or_else. simpl. by destruct file. }
  unfold publicImage. cbn [img_model img_id]. by rewrite E1, E2.
Qed.

Lemma public_image_is_labelled_by_its_file_name_witness :
  free_of (is_char "/") "alpha_007.png"
  ∧ img_model (publicImage None None ("set1" +:+ "/" +:+ "alpha_007.png")) = "alpha"
  ∧ img_id (publicImage None None ("set1" +:+ "/" +:+ "alpha_007.png")) = "7".
Proof.
  split; [reflexivity |].
  destruct (public_image_is_labelled_by_its_file_name None None "set1" "alpha_007.png")
    as (E1 & E2 & E3 & E4); [reflexivity | done |].
  split; [by rewrite E1, E3 | by rewrite E2, E4].
Defined.

(** ** Sessions of the current revision driven by the buttons *)

Module ButtonFacts.

Lemma clicks_keep_numbering e st :
  is_keydown e = false → numbered1 st → numbered1 (V1.step e st).1.
Proof.
  intros He [Hb Hnum]. split; [by apply CurrentBound.clicks_keep_bound |].
  destruct Hb as [_ Hphase].
  destruct e as [g|c|key| | |imgs|text]; simpl; try done.
  - destruct (V1.phase st) eqn:Hp; try done.
    destruct (V1.images st) eqn:Hi; [done |].
    destruct (StartFacts.startArena_cases g st)
      as [[E _]|[(A & B & _ & _ & _ & _ & E)|(A & B & _ & _ & _ & _ & E)]];
      by rewrite E.
  - destruct (V1.phase st) eqn:Hp; try done.
    destruct (V1.justVoted st) eqn:Hj; [done |].
    destruct Hphase as [(_ & _ & Hcur)|[Hne _]]; [| done].
    unfold V1.vote.
    destruct (V1.pairs st !! V1.current st) as [pr|]; [| done].
    destruct (negb _); [done |].
    simpl. rewrite fmap_app, length_app, Hnum, Hcur.
    change (List.length [V1.ballot (V1.current st + 1) c pr]) with 1.
    rewrite (Nat.add_1_r (V1.current st)) at 2. rewrite seq_S.
    f_equal. simpl. f_equal. lia.
  - destruct (V1.timers st) as [|t rest]; [done |].
    unfold V1.timeout_callback.
    destruct (V1.pairs_length t <=? V1.next_round t)%nat; [| done].
    by rewrite finish_keeps_votes.
  - by destruct (V1.phase st).
  - by destruct (size (V1.parseInstructionsCSV text) =? 0)%nat.
Qed.

Lemma click_runs_keep_numbering es st :
  Forall (λ e, is_keydown e = false) es →
  numbered1 st → numbered1 (V1.run es st).1.
Proof.
  intros Hes. revert st.
  induction Hes as [|e es He _ IH]; intros st Hst; simpl; [done |].
  pose proof (clicks_keep_numbering e st He Hst) as Hstep.
  destruct (V1.step e st) as [st' out].
  specialize (IH st' Hstep).
  by destruct (V1.run es st') as [st'' out'].
Qed.

End ButtonFacts.

(** X30. In the current revision, as long as the votes are cast with the
    buttons, the votes of the log carry the round numbers 1, 2, 3, ... in
    the order they were cast, whatever else happens in between. *)
Theorem button_votes_are_numbered_in_order
    (es : list V1.Event) (defaultRounds : nat) :
  Forall (λ e, is_keydown e = false) es →
  round <$> V1.votesRef (V1.run es (V1.initial defaultRounds)).1
  = seq 1 (List.length (V1.votesRef (V1.run es (V1.initial defaultRounds)).1)).
Proof.
  intros Hes.
  apply (ButtonFacts.click_runs_keep_numbering es (V1.initial defaultRounds) Hes).
  split; [split; simpl; [lia | done] | done].
Qed.

Lemma button_votes_are_numbered_in_order_witness :
  Forall (λ e, is_keydown e = false) scenario_session
  ∧ round <$> V1.votesRef (V1.run scenario_session (V1.initial 1)).1 = [1; 2].
Proof.
  assert (Forall (λ e, is_keydown e = false) scenario_session) as Hes.
  { repeat constructor. }
  split; [exact Hes |].
  rewrite (button_votes_are_numbered_in_order scenario_session 1 Hes).
  by vm_compute.
Defined.
